(** * ECHO.AI OS: the live duplex audio session of [GeminiService]

    A shallow embedding of [src/services/geminiService.ts]: the playback
    clock and scheduler ([nextStartTime], [activeSources], [stopAudio]), the
    tool-call loop, the transcript accumulators and the session start and
    stop paths of [connectLive].

    Conventions of the embedding.
    - A JavaScript number holding a time, a duration or a rate is a rational
      [Q]: the arithmetic of the scheduler ([Math.max], [+], [/]) is read
      exactly, without binary64 rounding.  Results about such numbers are
      stated up to [Qeq] when they are not syntactic.  Where rounding
      decides a result, the scheduler is also given with the arithmetic of
      binary64 ([schedule64]): the same rationals, every sum and quotient
      rounded to the nearest binary64 number.
    - Browser and SDK objects (audio contexts, gain nodes, buffer sources,
      media tracks, the live channel) are handles; every call made on them
      is recorded, in program order, as an [Event].
    - [onmessage] is an [async] function.  It is modelled for one message at
      a time, from its first statement to its settlement: messages are
      handled in arrival order and the handling of two messages does not
      interleave at an [await].  A reaction registered with [then] on a
      fulfilled promise runs when the function next gives way, at an
      [await] or at its return.
    - An exception or a rejected promise is a [Throw] completion; the state
      reached and the events emitted before it are kept.  The promise of
      [callbacks.onToolCall] may reject and the platform calls [stop] and
      [close] may fail; [decodeAudioData] and the callbacks
      [onTranscription], [onTurnComplete] and [onError] return normally. *)

From Stdlib Require Import List String Bool Arith NArith ZArith Lia DecimalString.
From Stdlib Require Import QArith Qminmax Qround Qpower Qabs Lqa.
From Stdlib Require Floats.
Import ListNotations.

Set Implicit Arguments.

(** ** Values, handles and events *)

Definition Handle := nat.

(** A value of type [any] crossing the tool interface (arguments of a call,
    result of the handler), kept as its JSON text. *)
Definition JSValue := string.

Inductive Event : Type :=
| AudioContextCreated (ctx : Handle) (sampleRate : N)
| GainCreated (node ctx : Handle)
| GainTarget (node : Handle) (target startTime timeConstant : Q)
| AudioContextClose (ctx : Handle)
| TrackStop (track : Handle)
| ChannelOpened (channel : Handle)
| ChannelClose (channel : Handle)
| SourceStart (source : Handle) (when rate duration : Q)
| SourceStop (source : Handle)
| ToolCallInvoked (name : string) (args : JSValue)
| ToolResponse (id name : string) (result : JSValue)
| OnTranscription (text : string) (isUser : bool)
| OnTurnComplete (input output : string)
| OnError (message : string).

(** [types.ts]: [AudioSettings]. *)
Record AudioSettings : Type := {
  volume : Q;
  speed : Q
}.

(** The fields of [GeminiService], the two closure variables of
    [connectLive] that hold the transcripts, and the allocator of handles. *)
Record State : Type := {
  audioContext : option Handle;
  outputNode : option Handle;
  nextStartTime : Q;
  activeSources : list Handle;
  currentAudioSettings : AudioSettings;
  currentOutputTranscription : string;
  currentInputTranscription : string;
  fresh : Handle
}.

(** The state of [new GeminiService()]. *)
Definition initial : State := {|
  audioContext := None;
  outputNode := None;
  nextStartTime := 0;
  activeSources := [];
  currentAudioSettings := {| volume := 8 # 10; speed := 1 |};
  currentOutputTranscription := "";
  currentInputTranscription := "";
  fresh := O
|}.

Definition set_audio (c n : option Handle) (w : State) : State :=
  {| audioContext := c; outputNode := n;
     nextStartTime := nextStartTime w; activeSources := activeSources w;
     currentAudioSettings := currentAudioSettings w;
     currentOutputTranscription := currentOutputTranscription w;
     currentInputTranscription := currentInputTranscription w;
     fresh := fresh w |}.

Definition set_nextStartTime (t : Q) (w : State) : State :=
  {| audioContext := audioContext w; outputNode := outputNode w;
     nextStartTime := t; activeSources := activeSources w;
     currentAudioSettings := currentAudioSettings w;
     currentOutputTranscription := currentOutputTranscription w;
     currentInputTranscription := currentInputTranscription w;
     fresh := fresh w |}.

Definition set_activeSources (l : list Handle) (w : State) : State :=
  {| audioContext := audioContext w; outputNode := outputNode w;
     nextStartTime := nextStartTime w; activeSources := l;
     currentAudioSettings := currentAudioSettings w;
     currentOutputTranscription := currentOutputTranscription w;
     currentInputTranscription := currentInputTranscription w;
     fresh := fresh w |}.

Definition set_currentAudioSettings (a : AudioSettings) (w : State) : State :=
  {| audioContext := audioContext w; outputNode := outputNode w;
     nextStartTime := nextStartTime w; activeSources := activeSources w;
     currentAudioSettings := a;
     currentOutputTranscription := currentOutputTranscription w;
     currentInputTranscription := currentInputTranscription w;
     fresh := fresh w |}.

Definition set_currentOutputTranscription (s : string) (w : State) : State :=
  {| audioContext := audioContext w; outputNode := outputNode w;
     nextStartTime := nextStartTime w; activeSources := activeSources w;
     currentAudioSettings := currentAudioSettings w;
     currentOutputTranscription := s;
     currentInputTranscription := currentInputTranscription w;
     fresh := fresh w |}.

Definition set_currentInputTranscription (s : string) (w : State) : State :=
  {| audioContext := audioContext w; outputNode := outputNode w;
     nextStartTime := nextStartTime w; activeSources := activeSources w;
     currentAudioSettings := currentAudioSettings w;
     currentOutputTranscription := currentOutputTranscription w;
     currentInputTranscription := s;
     fresh := fresh w |}.

Definition set_fresh (n : Handle) (w : State) : State :=
  {| audioContext := audioContext w; outputNode := outputNode w;
     nextStartTime := nextStartTime w; activeSources := activeSources w;
     currentAudioSettings := currentAudioSettings w;
     currentOutputTranscription := currentOutputTranscription w;
     currentInputTranscription := currentInputTranscription w;
     fresh := n |}.

(** ** The monad of the service: state, emitted events, exceptions *)

Inductive Completion (A : Type) : Type :=
| Normal (value : A)
| Throw (reason : string).
Arguments Throw {A} reason.

Record Run (A : Type) : Type := {
  completion : Completion A;
  final : State;
  emitted : list Event
}.

Definition Js (A : Type) : Type := State -> Run A.

Definition ret {A : Type} (a : A) : Js A :=
  fun w => {| completion := Normal a; final := w; emitted := [] |}.

Definition throw {A : Type} (e : string) : Js A :=
  fun w => {| completion := Throw e; final := w; emitted := [] |}.

Definition bind {A B : Type} (m : Js A) (k : A -> Js B) : Js B :=
  fun w =>
    match m w with
    | {| completion := Normal a; final := w1; emitted := e1 |} =>
        match k a w1 with
        | {| completion := c; final := w2; emitted := e2 |} =>
            {| completion := c; final := w2; emitted := e1 ++ e2 |}
        end
    | {| completion := Throw e; final := w1; emitted := e1 |} =>
        {| completion := Throw e; final := w1; emitted := e1 |}
    end.

Declare Scope js_scope.
Delimit Scope js_scope with js.
Notation "x <- m ;; k" := (bind m (fun x => k))
  (at level 61, m at next level, right associativity) : js_scope.
Notation "m ;; k" := (bind m (fun _ => k))
  (at level 61, right associativity) : js_scope.
Open Scope js_scope.

Definition emit (e : Event) : Js unit :=
  fun w => {| completion := Normal tt; final := w; emitted := [e] |}.

Definition get {A : Type} (f : State -> A) : Js A :=
  fun w => {| completion := Normal (f w); final := w; emitted := [] |}.

Definition modify (f : State -> State) : Js unit :=
  fun w => {| completion := Normal tt; final := f w; emitted := [] |}.

(** [await p]: resume with the value of a fulfilled promise, throw the
    reason of a rejected one. *)
Definition await {A : Type} (p : Completion A) : Js A :=
  match p with
  | Normal a => ret a
  | Throw e => throw e
  end.

(** [try { m } catch (e) {}] and [promise.catch(() => {})]. *)
Definition try_catch (m : Js unit) : Js unit :=
  fun w =>
    match m w with
    | {| completion := _; final := w1; emitted := e1 |} =>
        {| completion := Normal tt; final := w1; emitted := e1 |}
    end.

(** [for (const x of l) { await f(x) }] and [l.forEach(f)]: the first
    exception leaves the loop. *)
Fixpoint forOf {A : Type} (f : A -> Js unit) (l : list A) : Js unit :=
  match l with
  | [] => ret tt
  | x :: rest => f x ;; forOf f rest
  end.

(** [for (const x of l)] with a value carried from one iteration to the
    next. *)
Fixpoint foldOf {A S : Type} (f : S -> A -> Js S) (s : S) (l : list A)
  : Js S :=
  match l with
  | [] => ret s
  | x :: rest => s' <- f s x ;; foldOf f s' rest
  end.

(** A fresh handle for an object created by the platform. *)
Definition alloc : Js Handle :=
  fun w => {| completion := Normal (fresh w);
              final := set_fresh (S (fresh w)) w; emitted := [] |}.

(** ** Messages of the live channel ([LiveServerMessage]) *)

Record FunctionCall : Type := {
  fc_id : string;
  fc_name : string;
  fc_args : JSValue
}.

(** One element of [serverContent.modelTurn.parts].  [inlineData] is
    [part.inlineData?.data].  The two other fields are what the platform
    answers while the part is handled: [currentTime] is the value of
    [this.audioContext.currentTime] read for this part, [duration] is
    [audioBuffer.duration] of the buffer decoded from it. *)
Record Part : Type := {
  inlineData : option string;
  currentTime : Q;
  duration : Q
}.

(** [message.serverContent].  A transcription is present or not (the test
    of lines 157 and 161 is on the object) and carries its [text]; the two
    signals are read for their truthiness. *)
Record ServerContent : Type := {
  modelTurn : option (list Part);
  outputTranscription : option string;
  inputTranscription : option string;
  turnComplete : bool;
  interrupted : bool
}.

(** [toolCall] is [message.toolCall.functionCalls] when the message has a
    [toolCall]. *)
Record LiveServerMessage : Type := {
  toolCall : option (list FunctionCall);
  serverContent : option ServerContent
}.

(** ** What the caller and the platform supply *)

Record Env : Type := {
  (** [callbacks.onToolCall(name, args)]: the settled promise. *)
  onToolCall : string -> JSValue -> Completion JSValue;
  (** [navigator.mediaDevices.getUserMedia]: the tracks of the stream, or
      the rejection. *)
  getUserMedia : Completion (list Handle);
  (** Which calls of the platform fail. *)
  trackStopThrows : Handle -> bool;
  sourceStopThrows : Handle -> bool;
  closeRejects : Handle -> bool
}.

(** What [connectLive] returns when it does not return [null]: the objects
    captured by the [stop] closure and the channel behind
    [sessionPromise]. *)
Record Session : Type := {
  inputCtx : Handle;
  stream : list Handle;
  channel : Handle
}.

(** ** [Set<AudioBufferSourceNode>], in insertion order *)

Definition set_add (s : Handle) (l : list Handle) : list Handle :=
  if existsb (Nat.eqb s) l then l else l ++ [s].

Definition set_delete (s : Handle) (l : list Handle) : list Handle :=
  filter (fun x => negb (Nat.eqb s x)) l.

(** Truthiness of [base64Audio]: defined and not the empty string. *)
Definition truthy (d : option string) : bool :=
  match d with
  | Some s => negb (String.eqb s "")
  | None => false
  end.

Section Service.

Variable env : Env.

(** ** The class [GeminiService] *)

(** [ensureAudioContext]: the output context and its gain node are created
    once and kept. *)
Definition ensureAudioContext : Js Handle :=
  c <- get audioContext ;;
  match c with
  | Some ctx => ret ctx
  | None =>
      ctx <- alloc ;;
      emit (AudioContextCreated ctx 24000%N) ;;
      node <- alloc ;;
      emit (GainCreated node ctx) ;;
      modify (set_audio (Some ctx) (Some node)) ;;
      ret ctx
  end.

(** [setAudioSettings], called when the audio context reads [now]. *)
Definition setAudioSettings (settings : AudioSettings) (now : Q) : Js unit :=
  modify (set_currentAudioSettings settings) ;;
  node <- get outputNode ;;
  ctx <- get audioContext ;;
  match node, ctx with
  | Some n, Some _ => emit (GainTarget n (volume settings) now (1 # 10))
  | _, _ => ret tt
  end.

(** [source.stop()] inside [try { } catch (e) {}]. *)
Definition sourceStop (s : Handle) : Js unit :=
  emit (SourceStop s) ;;
  if sourceStopThrows env s then throw "InvalidStateError" else ret tt.

Definition stopAudio : Js unit :=
  sources <- get activeSources ;;
  forOf (fun s => try_catch (sourceStop s)) sources ;;
  modify (set_activeSources []) ;;
  modify (set_nextStartTime 0).

(** The listener of ['ended'] registered on a source. *)
Definition ended (s : Handle) : Js unit :=
  modify (fun w => set_activeSources (set_delete s (activeSources w)) w).

(** *** [onmessage], block by block *)

(** Lines 135-138: one iteration of the loop over
    [message.toolCall.functionCalls].  Line 137 hands the response to
    [sessionPromise.then], which only registers a reaction: the call of
    [sendToolResponse] is made when [onmessage] next gives way, after the
    reactions registered before it (the session is connected when a message
    arrives, so [sessionPromise] is fulfilled).  [queued] holds the calls
    registered and not yet made.  An iteration calls the handler (line
    136); at the [await] the queued calls are made, whether the promise of
    the handler is then fulfilled or rejected; line 137 registers the
    response to this call, which is the queue that the iteration leaves. *)
Definition dispatch (queued : list Event) (fc : FunctionCall)
  : Js (list Event) :=
  emit (ToolCallInvoked (fc_name fc) (fc_args fc)) ;;
  forOf emit queued ;;
  result <- await (onToolCall env (fc_name fc) (fc_args fc)) ;;
  ret [ToolResponse (fc_id fc) (fc_name fc) result].

(** Lines 142-154: one iteration of the loop over the parts. *)
Definition schedule (part : Part) : Js unit :=
  ctx <- get audioContext ;;
  node <- get outputNode ;;
  match truthy (inlineData part), ctx, node with
  | true, Some _, Some _ =>
      clock <- get nextStartTime ;;
      modify (set_nextStartTime (Qmax clock (currentTime part))) ;;
      source <- alloc ;;
      settings <- get currentAudioSettings ;;
      start <- get nextStartTime ;;
      emit (SourceStart source start (speed settings) (duration part)) ;;
      settings' <- get currentAudioSettings ;;
      modify (set_nextStartTime (start + duration part / speed settings')) ;;
      modify (fun w => set_activeSources (set_add source (activeSources w)) w)
  | _, _, _ => ret tt
  end.

(** Lines 157-165. *)
Definition accumulate (sc : option ServerContent) : Js unit :=
  match sc with
  | None => ret tt
  | Some c =>
      match outputTranscription c, inputTranscription c with
      | Some text, _ =>
          modify (fun w => set_currentOutputTranscription
                             (currentOutputTranscription w ++ text) w) ;;
          out <- get currentOutputTranscription ;;
          emit (OnTranscription out false)
      | None, Some text =>
          modify (fun w => set_currentInputTranscription
                             (currentInputTranscription w ++ text) w) ;;
          inp <- get currentInputTranscription ;;
          emit (OnTranscription inp true)
      | None, None => ret tt
      end
  end.

(** Lines 167-171. *)
Definition completeTurn (sc : option ServerContent) : Js unit :=
  match sc with
  | Some c =>
      if turnComplete c then
        inp <- get currentInputTranscription ;;
        out <- get currentOutputTranscription ;;
        emit (OnTurnComplete inp out) ;;
        modify (set_currentOutputTranscription "") ;;
        modify (set_currentInputTranscription "")
      else ret tt
  | None => ret tt
  end.

(** Line 172. *)
Definition onInterrupted (sc : option ServerContent) : Js unit :=
  match sc with
  | Some c => if interrupted c then stopAudio else ret tt
  | None => ret tt
  end.

(** [message.serverContent?.modelTurn?.parts || []]. *)
Definition partsOf (m : LiveServerMessage) : list Part :=
  match serverContent m with
  | Some c => match modelTurn c with Some ps => ps | None => [] end
  | None => []
  end.

(** Lines 134-139: the tool calls, and the queue that the loop leaves. *)
Definition tools (message : LiveServerMessage) : Js (list Event) :=
  match toolCall message with
  | Some calls => foldOf dispatch [] calls
  | None => ret []
  end.

(** Lines 140-172: the parts, the transcripts and the two signals. *)
Definition content (message : LiveServerMessage) : Js unit :=
  forOf schedule (partsOf message) ;;
  accumulate (serverContent message) ;;
  completeTurn (serverContent message) ;;
  onInterrupted (serverContent message).

(** After the tool calls [onmessage] gives way at the [await] of line 145,
    which it reaches for the first part that is scheduled, if there is
    one. *)
Definition awaited (parts : list Part) (w : State) : bool :=
  match audioContext w, outputNode w with
  | Some _, Some _ => existsb (fun p => truthy (inlineData p)) parts
  | _, _ => false
  end.

(** [onmessage].  The response that the tool calls left in the queue is
    sent where [onmessage] first gives way after them: at the [await] of
    line 145 (no call on a source or on a callback comes before it), or
    else when [onmessage] returns. *)
Definition onmessage (message : LiveServerMessage) : Js unit :=
  queued <- tools message ;;
  early <- get (awaited (partsOf message)) ;;
  (if early then forOf emit queued else ret tt) ;;
  content message ;;
  (if early then ret tt else forOf emit queued).

(** The channel delivers the messages one after the other; a rejection of
    one [onmessage] promise is not observed by the next. *)
Definition deliver (messages : list LiveServerMessage) : Js unit :=
  forOf (fun m => try_catch (onmessage m)) messages.

(** *** [connectLive] and the [stop] closure it returns *)

Definition trackStop (t : Handle) : Js unit :=
  emit (TrackStop t) ;;
  if trackStopThrows env t then throw "TrackStopError" else ret tt.

(** [inputCtx.close().catch(() => {})]. *)
Definition closeContext (c : Handle) : Js unit :=
  try_catch
    (emit (AudioContextClose c) ;;
     if closeRejects env c then throw "InvalidStateError" else ret tt).

Definition connectLive : Js (option Session) :=
  _ <- ensureAudioContext ;;
  input <- alloc ;;
  emit (AudioContextCreated input 16000%N) ;;
  match getUserMedia env with
  | Throw _ =>
      emit (OnError "MIC_ACCESS_DENIED") ;;
      ret None
  | Normal tracks =>
      modify (set_currentOutputTranscription "") ;;
      modify (set_currentInputTranscription "") ;;
      ch <- alloc ;;
      emit (ChannelOpened ch) ;;
      ret (Some {| inputCtx := input; stream := tracks; channel := ch |})
  end.

Definition stop (s : Session) : Js unit :=
  forOf trackStop (stream s) ;;
  closeContext (inputCtx s) ;;
  stopAudio.

End Service.

(** ** Observations on a trace *)

(** The start times passed to [source.start], in program order. *)
Definition startTimes (evs : list Event) : list Q :=
  flat_map (fun e => match e with
                     | SourceStart _ t _ _ => [t]
                     | _ => []
                     end) evs.

(** The arguments of the calls of [callbacks.onTurnComplete]. *)
Definition turnsOf (evs : list Event) : list (string * string) :=
  flat_map (fun e => match e with
                     | OnTurnComplete i o => [(i, o)]
                     | _ => []
                     end) evs.

(** The calls of [callbacks.onTranscription]. *)
Definition transcriptionsOf (evs : list Event) : list (string * bool) :=
  flat_map (fun e => match e with
                     | OnTranscription t u => [(t, u)]
                     | _ => []
                     end) evs.

Definition sumQ (l : list Q) : Q := fold_right Qplus 0 l.

(** The session is active for playback: [this.audioContext] and
    [this.outputNode] are set. *)
Definition playing (w : State) : Prop :=
  audioContext w <> None /\ outputNode w <> None.

(** The timeline that a clock at [clock] and a fixed [rate] give to a run
    of chunks: used to describe the events of the loop over the parts. *)
Fixpoint timeline (s : Handle) (clock rate : Q) (parts : list Part)
  : list Event :=
  match parts with
  | [] => []
  | p :: rest =>
      let t := Qmax clock (currentTime p) in
      SourceStart s t rate (duration p)
        :: timeline (S s) (t + duration p / rate) rate rest
  end.

Definition audible (p : Part) : Prop :=
  truthy (inlineData p) = true /\ 0 <= duration p.

(** The responses sent: id, name and result, in program order. *)
Definition responsesOf (evs : list Event) : list (string * string * JSValue) :=
  flat_map (fun e => match e with
                     | ToolResponse id name result => [(id, name, result)]
                     | _ => []
                     end) evs.

(** The ids carried by the responses sent, in program order. *)
Definition responseIds (evs : list Event) : list string :=
  map (fun r => fst (fst r)) (responsesOf evs).

Definition audioEvent (e : Event) : bool :=
  match e with
  | SourceStart _ _ _ _ | SourceStop _ => true
  | _ => false
  end.

Definition toolEvent (e : Event) : bool :=
  match e with
  | ToolCallInvoked _ _ | ToolResponse _ _ _ => true
  | _ => false
  end.

(** The concatenation of fragments, in order. *)
Definition joined (l : list string) : string := fold_right append ""%string l.

(** The call of the handler for [fc], and the response sent when the
    handler has answered [result]. *)
Definition invocation (fc : FunctionCall) : Event :=
  ToolCallInvoked (fc_name fc) (fc_args fc).

Definition response (x : FunctionCall * JSValue) : Event :=
  ToolResponse (fc_id (fst x)) (fc_name (fst x)) (snd x).

(** The handler is invoked for the next call, then the response to the
    call before it is sent. *)
Definition handover (x : FunctionCall * JSValue * FunctionCall) : list Event :=
  [invocation (snd x); response (fst x)].

(** The responses registered and not yet sent when the loop over the calls
    is left. *)
Definition pending (r : Run (list Event)) : list Event :=
  match completion r with
  | Normal queued => queued
  | Throw _ => []
  end.

(** In the trace [evs], the response to [fc] is sent before the handler is
    invoked for [next]. *)
Definition respondedBefore (fc next : FunctionCall) (evs : list Event)
  : Prop :=
  exists before after result,
    evs = before ++ invocation next :: after /\
    In (ToolResponse (fc_id fc) (fc_name fc) result) before.

Definition responseTo (x : FunctionCall * JSValue)
  : string * string * JSValue :=
  (fc_id (fst x), fc_name (fst x), snd x).

Definition settles (env : Env) (fc : FunctionCall) (result : JSValue) : Prop :=
  onToolCall env (fc_name fc) (fc_args fc) = Normal result.

(** The handler settles the call of [fc] with a result. *)
Definition answered (env : Env) (fc : FunctionCall) : bool :=
  match onToolCall env (fc_name fc) (fc_args fc) with
  | Normal _ => true
  | Throw _ => false
  end.

(** What is left of the calls of a message after the answered ones: nothing,
    or a call that the handler rejects followed by any calls. *)
Definition stalls (env : Env) (rest : list FunctionCall) : Prop :=
  match rest with
  | [] => True
  | fc :: _ => answered env fc = false
  end.

(** [onmessage] gets past its tool calls: no handler rejects. *)
Definition reaches (env : Env) (m : LiveServerMessage) : bool :=
  match toolCall m with
  | Some calls => forallb (answered env) calls
  | None => true
  end.

(** The message carries the turn-complete signal. *)
Definition completes (m : LiveServerMessage) : bool :=
  match serverContent m with
  | Some c => turnComplete c
  | None => false
  end.

(** The text that lines 157-165 append, per direction. *)
Definition outText (sc : option ServerContent) : string :=
  match sc with
  | Some c =>
      match outputTranscription c with
      | Some text => text
      | None => ""
      end
  | None => ""
  end.

Definition inText (sc : option ServerContent) : string :=
  match sc with
  | Some c =>
      match outputTranscription c, inputTranscription c with
      | None, Some text => text
      | _, _ => ""
      end
  | None => ""
  end.

Definition outFragment (m : LiveServerMessage) : string :=
  outText (serverContent m).

Definition inFragment (m : LiveServerMessage) : string :=
  inText (serverContent m).

(** The calls of [callbacks.onTranscription] that lines 157-165 make in
    state [w]. *)
Definition transcribed (sc : option ServerContent) (w : State)
  : list (string * bool) :=
  match sc with
  | Some c =>
      match outputTranscription c, inputTranscription c with
      | Some text, _ => [((currentOutputTranscription w ++ text)%string, false)]
      | None, Some text =>
          [((currentInputTranscription w ++ text)%string, true)]
      | None, None => []
      end
  | None => []
  end.

Definition appendedOut (env : Env) (m : LiveServerMessage) : string :=
  if reaches env m then outFragment m else "".

Definition appendedIn (env : Env) (m : LiveServerMessage) : string :=
  if reaches env m then inFragment m else "".

(** The turn-complete signal of the message is observed: line 167 is
    reached and the flag is set. *)
Definition observed (env : Env) (m : LiveServerMessage) : bool :=
  reaches env m && completes m.

(** What a block of [onmessage] leaves alone: the transcripts, and the
    calls of the caller's text callbacks and of the channel. *)
Definition textQuiet (w : State) (r : Run unit) : Prop :=
  completion r = Normal tt /\
  currentOutputTranscription (final r) = currentOutputTranscription w /\
  currentInputTranscription (final r) = currentInputTranscription w /\
  turnsOf (emitted r) = [] /\
  transcriptionsOf (emitted r) = [] /\
  responsesOf (emitted r) = [].

(** A turn of the conversation as the service sees it: messages whose
    turn-complete signal is not observed, then one whose signal is. *)
Definition Turn : Type := (list LiveServerMessage * LiveServerMessage)%type.

Definition messagesOf (t : Turn) : list LiveServerMessage := fst t ++ [snd t].

Definition wellTurn (env : Env) (t : Turn) : Prop :=
  Forall (fun x => observed env x = false) (fst t) /\
  observed env (snd t) = true.

(** The two texts of a turn: the fragments appended, in arrival order. *)
Definition textsOf (env : Env) (t : Turn) : string * string :=
  (joined (map (appendedIn env) (messagesOf t)),
   joined (map (appendedOut env) (messagesOf t))).

(** The clock after [stopAudio] is the time [now] of the call. *)
Definition clockResetTo (env : Env) (now : Q) (w : State) : Prop :=
  nextStartTime (final (stopAudio env w)) == now.

(** *** Sample inputs *)

(** A caller whose handler answers every call and a platform on which
    nothing fails. *)
Definition calm : Env := {|
  onToolCall := fun _ _ => Normal "Tool executed."%string;
  getUserMedia := Normal [7%nat; 8%nat];
  trackStopThrows := fun _ => false;
  sourceStopThrows := fun _ => false;
  closeRejects := fun _ => false
|}.

(** The handler of [App.tsx] on a [draw_detection] call without a label
    ([args.label.toUpperCase()] throws), a refused microphone, and stops
    and closes that fail. *)
Definition hostile : Env := {|
  onToolCall := fun name _ =>
    if String.eqb name "draw_detection" then Throw "TypeError"%string
    else Normal "Tool executed."%string;
  getUserMedia := Throw "NotAllowedError";
  trackStopThrows := fun _ => false;
  sourceStopThrows := fun _ => true;
  closeRejects := fun _ => true
|}.

(** A session in the middle of playback: two sources scheduled, the clock
    at 5 seconds. *)
Definition busy : State := {|
  audioContext := Some 0%nat;
  outputNode := Some 1%nat;
  nextStartTime := 5;
  activeSources := [4%nat; 5%nat];
  currentAudioSettings := {| volume := 8 # 10; speed := 1 |};
  currentOutputTranscription := "";
  currentInputTranscription := "";
  fresh := 6%nat
|}.

(** A session just connected: nothing scheduled yet. *)
Definition connected : State := {|
  audioContext := Some 0%nat;
  outputNode := Some 1%nat;
  nextStartTime := 0;
  activeSources := [];
  currentAudioSettings := {| volume := 8 # 10; speed := 1 |};
  currentOutputTranscription := "";
  currentInputTranscription := "";
  fresh := 4%nat
|}.

Definition chunk (now d : Q) : Part :=
  {| inlineData := Some "AAA="%string; currentTime := now; duration := d |}.

(** A message that carries one audio chunk and nothing else. *)
Definition chunkMessage (now d : Q) : LiveServerMessage := {|
  toolCall := None;
  serverContent := Some {|
    modelTurn := Some [chunk now d];
    outputTranscription := None;
    inputTranscription := None;
    turnComplete := false;
    interrupted := false
  |}
|}.

(** Chunks of 1 s, 0.5 s and 2 s that arrive at 0 s, 0.3 s and 2 s. *)
Definition threeChunks : list LiveServerMessage :=
  [chunkMessage 0 1; chunkMessage (3 # 10) (1 # 2); chunkMessage 2 2].

Definition call (id name : string) : FunctionCall :=
  {| fc_id := id; fc_name := name; fc_args := "{}"%string |}.

(** A message that carries tool calls and nothing else. *)
Definition toolMessage (calls : list FunctionCall) : LiveServerMessage :=
  {| toolCall := Some calls; serverContent := None |}.

(** A message that carries transcript fragments and the two signals. *)
Definition textMessage (out inp : option string) (complete : bool)
  : LiveServerMessage := {|
  toolCall := None;
  serverContent := Some {|
    modelTurn := None;
    outputTranscription := out;
    inputTranscription := inp;
    turnComplete := complete;
    interrupted := false
  |}
|}.

(** An input fragment alone; an output fragment together with an input
    fragment; an output fragment with the turn-complete signal. *)
Definition heard (i : string) : LiveServerMessage :=
  textMessage None (Some i) false.

Definition saidOver (o i : string) : LiveServerMessage :=
  textMessage (Some o) (Some i) false.

Definition saidLast (o : string) : LiveServerMessage :=
  textMessage (Some o) None true.

(** Two turns.  In the first, a tool call that the handler of [hostile]
    rejects arrives between the fragments, and one message carries both an
    output and an input fragment. *)
Definition parcelTurn : Turn :=
  ([heard "what is "; toolMessage [call "a" "draw_detection"];
    saidOver "A parcel" "this"],
   saidLast ", Sir.").

Definition thanksTurn : Turn := ([heard "thanks"], saidLast "Quite.").


(** ** Further observations *)

(** The sources started and the sources stopped, in program order. *)
Definition startedIn (evs : list Event) : list Handle :=
  flat_map (fun e => match e with
                     | SourceStart s _ _ _ => [s]
                     | _ => []
                     end) evs.

Definition stoppedIn (evs : list Event) : list Handle :=
  flat_map (fun e => match e with
                     | SourceStop s => [s]
                     | _ => []
                     end) evs.

(** The audio contexts created with a given sample rate, and the contexts
    on which [close] was called. *)
Definition createdAt (rate : N) (evs : list Event) : list Handle :=
  flat_map (fun e => match e with
                     | AudioContextCreated c r => if N.eqb r rate then [c] else []
                     | _ => []
                     end) evs.

Definition closedIn (evs : list Event) : list Handle :=
  flat_map (fun e => match e with
                     | AudioContextClose c => [c]
                     | _ => []
                     end) evs.

(** The part passes the test of line 143 on its data. *)
Definition hasAudio (p : Part) : bool := truthy (inlineData p).

(** The message carries the [interrupted] signal. *)
Definition interrupts (m : LiveServerMessage) : bool :=
  match serverContent m with
  | Some c => interrupted c
  | None => false
  end.

(** Handles in use are below the allocator, and no source is twice in
    [activeSources]. *)
Definition tidy (w : State) : Prop :=
  NoDup (activeSources w) /\
  Forall (fun s => (s < fresh w)%nat) (activeSources w) /\
  (forall c, audioContext w = Some c -> (c < fresh w)%nat) /\
  (forall n, outputNode w = Some n -> (n < fresh w)%nat).

(** What every operation on a session keeps, from the state [w] before it
    to its run [r]: the output context, its gain node and the settings stay;
    handles are not given twice; a source that was active or was started is
    still active or was stopped; a source that is active was active before
    or is new. *)
Definition kept {A : Type} (w : State) (r : Run A) : Prop :=
  audioContext (final r) = audioContext w /\
  outputNode (final r) = outputNode w /\
  currentAudioSettings (final r) = currentAudioSettings w /\
  (fresh w <= fresh (final r))%nat /\
  (tidy w -> tidy (final r)) /\
  (forall s, In s (activeSources w) \/ In s (startedIn (emitted r)) ->
             In s (activeSources (final r)) \/ In s (stoppedIn (emitted r))) /\
  (forall s, In s (activeSources (final r)) ->
             In s (activeSources w) \/ (fresh w <= s)%nat).

(** What happens to a session while it plays: a message arrives, or a
    source reaches the end of its buffer and its ['ended'] listener runs. *)
Inductive Happening : Type :=
| Arrives (m : LiveServerMessage)
| Ends (s : Handle).

Definition happens (env : Env) (h : Happening) : Js unit :=
  match h with
  | Arrives m => try_catch (onmessage env m)
  | Ends s => ended s
  end.

Definition playback (env : Env) (hs : list Happening) : Js unit :=
  forOf (happens env) hs.

(** The sources whose ['ended'] listener has run. *)
Definition endedIn (hs : list Happening) : list Handle :=
  flat_map (fun h => match h with
                     | Ends s => [s]
                     | Arrives _ => []
                     end) hs.

(** [activeSources] after a run holds only sources that it held before or
    that the run started. *)
Definition grown {A : Type} (w : State) (r : Run A) : Prop :=
  forall s, In s (activeSources (final r)) ->
            In s (activeSources w) \/ In s (startedIn (emitted r)).

(** ** The text chat: [sendChatMessage] and its caller in [App.tsx] *)

(** [types.ts]: [MessageRole] and the fields of [ChatMessage] that the code
    assigns ([isVoice] absent reads as [false]). *)
Inductive MessageRole : Type := USER | ASSISTANT | SYSTEM.

Record ChatMessage : Type := {
  msg_id : string;
  msg_role : MessageRole;
  msg_content : string;
  msg_timestamp : N;
  msg_isVoice : bool
}.

(** [l.slice(-n)] for [n > 0]: the last [n] elements, all of [l] when it
    has fewer. *)
Definition slice_last {A : Type} (n : nat) (l : list A) : list A :=
  skipn (List.length l - n) l.

(** [n.toString()] of a non-negative integer. *)
Definition decimal (n : N) : string := NilZero.string_of_uint (N.to_uint n).

(** [s || d] on strings: [d] replaces the empty string. *)
Definition orDefault (s d : string) : string :=
  if String.eqb s "" then d else s.

(** The [contents] of the request of [sendChatMessage]. *)
Inductive RequestPart : Type :=
| TextPart (text : string)
| InlineDataPart (mimeType data : string).

Record RequestContent : Type := {
  req_role : string;
  req_parts : list RequestPart
}.

Definition historyContent (msg : ChatMessage) : RequestContent :=
  {| req_role := match msg_role msg with
                 | USER => "user"
                 | _ => "model"
                 end;
     req_parts := [TextPart (msg_content msg)] |}.

Definition currentParts (text : string) (imageData : option string)
  : list RequestPart :=
  TextPart text
    :: match imageData with
       | Some data =>
           if truthy imageData then [InlineDataPart "image/jpeg" data] else []
       | None => []
       end.

(** Lines 66-81. *)
Definition chatContents (text : string) (history : list ChatMessage)
           (imageData : option string) : list RequestContent :=
  map historyContent (slice_last 10 history)
  ++ [{| req_role := "user"; req_parts := currentParts text imageData |}].

(** What the generator yields. *)
Record ChatChunk : Type := {
  chunk_text : string;
  isFinal : bool
}.

(** The stream that [generateContentStream] answers with: the [text] of its
    chunks ([None] when a chunk has none) and, when it breaks off, the
    message of the error thrown after them. *)
Record ResponseStream : Type := {
  chunks : list (option string);
  failure : option string
}.

Definition chunkText (c : option string) : string :=
  match c with
  | Some t => t
  | None => ""
  end.

(** Lines 98-102: the chunks yielded and how the generator ends. *)
Definition chatYields (stream : ResponseStream)
  : list ChatChunk * Completion unit :=
  (flat_map (fun c => if String.eqb (chunkText c) "" then []
                      else [{| chunk_text := chunkText c; isFinal := false |}])
     (chunks stream)
   ++ match failure stream with
      | None => [{| chunk_text := ""; isFinal := true |}]
      | Some _ => []
      end,
   match failure stream with
   | None => Normal tt
   | Some e => Throw e
   end).

(** The [messages], [inputText] and [isProcessing] cells of [App]. *)
Record Chat : Type := {
  messages : list ChatMessage;
  inputText : string;
  isProcessing : bool
}.

(** The readings of [Date.now()] made by [handleSubmitInput], in order. *)
Record SubmitClock : Type := {
  userIdAt : N;
  userAt : N;
  replyIdAt : N;
  replyAt : N;
  errorIdAt : N;
  errorAt : N
}.

(** The updater of line 391: the text of a chunk is appended to the message
    whose id is [assistantId]. *)
Definition appendText (assistantId text : string) (prev : list ChatMessage)
  : list ChatMessage :=
  map (fun m => if String.eqb (msg_id m) assistantId
                then {| msg_id := msg_id m; msg_role := msg_role m;
                        msg_content := msg_content m ++ text;
                        msg_timestamp := msg_timestamp m;
                        msg_isVoice := msg_isVoice m |}
                else m) prev.

Definition userMessage (trimmedInput : string) (clock : SubmitClock)
  : ChatMessage :=
  {| msg_id := decimal (userIdAt clock); msg_role := USER;
     msg_content := trimmedInput; msg_timestamp := userAt clock;
     msg_isVoice := false |}.

Definition assistantId (clock : SubmitClock) : string :=
  decimal (replyIdAt clock + 1).

Definition replyMessage (clock : SubmitClock) (text : string) : ChatMessage :=
  {| msg_id := assistantId clock; msg_role := ASSISTANT;
     msg_content := text; msg_timestamp := replyAt clock;
     msg_isVoice := false |}.

Definition errorMessage (clock : SubmitClock) (message : string)
  : ChatMessage :=
  {| msg_id := decimal (errorIdAt clock + 1); msg_role := ASSISTANT;
     msg_content := "UPLINK_ERROR: " ++ orDefault message "Protocol Failure.";
     msg_timestamp := errorAt clock; msg_isVoice := false |}.

(** The [messages] cell after the updaters of [handleSubmitInput] have run,
    in the order of their calls. *)
Definition submittedMessages (trimmedInput : string) (clock : SubmitClock)
           (stream : ResponseStream) (prev : list ChatMessage)
  : list ChatMessage :=
  let m1 := slice_last 9 prev ++ [userMessage trimmedInput clock] in
  let m2 := m1 ++ [replyMessage clock ""] in
  let m3 := fold_left (fun ms ch => appendText (assistantId clock)
                                      (chunk_text ch) ms)
              (fst (chatYields stream)) m2 in
  match snd (chatYields stream) with
  | Normal _ => m3
  | Throw e => m3 ++ [errorMessage clock e]
  end.

(** What [handleSubmitInput] leaves: the cells, and the request it made, if
    any. *)
Record Submitted : Type := {
  chat : Chat;
  request : option (list RequestContent)
}.

(** [handleSubmitInput] ([App.tsx], lines 371-398).  [trimmedInput] is
    [inputText.trim()], [lastFrame] is [lastFrameRef.current], [stream] is
    the answer to the request. *)
Definition handleSubmitInput (env : Env) (trimmedInput : string)
           (clock : SubmitClock) (lastFrame : option string)
           (stream : ResponseStream) (app : Chat) : Js Submitted :=
  if String.eqb trimmedInput "" || isProcessing app
  then ret {| chat := app; request := None |}
  else
    stopAudio env ;;
    ret {| chat := {| messages := submittedMessages trimmedInput clock stream
                                    (messages app);
                      inputText := "";
                      isProcessing := false |};
           request := Some (chatContents trimmedInput (messages app)
                              lastFrame) |}.

(** The history cache of [localStorage]: absent, or the list last written
    (lines 241-247 and 261-265), and [handlePurgeHistory]. *)
Definition saveHistory (msgs : list ChatMessage)
           (cache : option (list ChatMessage)) : option (list ChatMessage) :=
  match msgs with
  | [] => cache
  | _ :: _ => Some (slice_last 10 msgs)
  end.

Definition loadHistory (cache : option (list ChatMessage))
           (msgs : list ChatMessage) : list ChatMessage :=
  match cache with
  | Some parsed => slice_last 10 parsed
  | None => msgs
  end.

(** The updater of [onTurnComplete] ([App.tsx], lines 419-427) on the
    [messages] cell; [now] is the reading of [Date.now()]. *)
Definition voiceTurn (input output : string) (now : N)
           (prev : list ChatMessage) : list ChatMessage :=
  slice_last 8 prev
  ++ [{| msg_id := "v-in-" ++ decimal now; msg_role := USER;
         msg_content := orDefault input "[Voice Input]";
         msg_timestamp := now; msg_isVoice := true |};
      {| msg_id := "v-out-" ++ decimal now; msg_role := ASSISTANT;
         msg_content := orDefault output "[Neural Output]";
         msg_timestamp := now + 1; msg_isVoice := true |}].

(** [handlePurgeHistory] on the [messages] cell and the cache. *)
Definition handlePurgeHistory
           (state : list ChatMessage * option (list ChatMessage))
  : list ChatMessage * option (list ChatMessage) :=
  ([], None).

(** The session was configured without input transcription (line 182): the
    server puts no [inputTranscription] in its messages. *)
Definition noInputTranscription (m : LiveServerMessage) : Prop :=
  forall c, serverContent m = Some c -> inputTranscription c = None.

(** ** The voice button of [App.tsx] and the end of a channel *)

(** [onerror] and [onclose] of the channel (lines 174-175): [message] is
    [e.message], [code] is [e?.code]. *)
Definition onerror (message : option string) : Js unit :=
  emit (OnError (orDefault (chunkText message) "UPLINK_PROTOCOL_ERROR")).

Definition onclose (code : option N) : Js unit :=
  emit (OnError ("SESSION_CLOSED_"
                 ++ match code with
                    | Some c => if N.eqb c 0 then "1006" else decimal c
                    | None => "1006"
                    end)).

(** The cells of [App] behind the voice button. *)
Record Voice : Type := {
  voiceActive : bool;
  liveSessionRef : option Session;
  voiceError : option string;
  commandFeedback : option string
}.

(** The [onError] callback that [toggleVoice] passes to [connectLive]. *)
Definition onErrorCallback (message : string) (v : Voice) : Voice :=
  {| voiceActive := false; liveSessionRef := liveSessionRef v;
     voiceError := Some message; commandFeedback := Some "SYNC_FAILED"%string |}.

(** The cells after the callbacks called in a trace have run. *)
Definition react (evs : list Event) (v : Voice) : Voice :=
  fold_left (fun v e => match e with
                        | OnError message => onErrorCallback message v
                        | _ => v
                        end) evs v.

(** [toggleVoice] ([App.tsx], lines 408-476): the cells it leaves and its
    run on the service.  The image sent after a start is not recorded. *)
Definition toggleVoice (env : Env) (v : Voice) (w : State)
  : Voice * Run unit :=
  if voiceActive v then
    let r := match liveSessionRef v with
             | Some s => stop env s w
             | None => ret tt w
             end in
    match completion r with
    | Normal _ =>
        ({| voiceActive := false; liveSessionRef := None;
            voiceError := voiceError v;
            commandFeedback := commandFeedback v |}, r)
    | Throw _ => (v, r)
    end
  else
    let r := connectLive env w in
    let v1 := react (emitted r)
                {| voiceActive := true; liveSessionRef := liveSessionRef v;
                   voiceError := voiceError v;
                   commandFeedback := commandFeedback v |} in
    match completion r with
    | Normal (Some s) =>
        ({| voiceActive := voiceActive v1; liveSessionRef := Some s;
            voiceError := voiceError v1;
            commandFeedback := Some "NEURAL_SYNC_ESTABLISHED"%string |},
         {| completion := Normal tt; final := final r; emitted := emitted r |})
    | Normal None =>
        ({| voiceActive := false; liveSessionRef := liveSessionRef v1;
            voiceError := voiceError v1;
            commandFeedback := commandFeedback v1 |},
         {| completion := Normal tt; final := final r; emitted := emitted r |})
    | Throw e =>
        (v1, {| completion := Throw e; final := final r;
                emitted := emitted r |})
    end.

(** What happens to the application, one thing at a time: the voice button
    is pressed, the channel closes or fails, messages arrive. *)
Inductive AppEvent : Type :=
| Toggle (env : Env)
| Closed (code : option N)
| Failed (message : option string)
| Received (env : Env) (msgs : list LiveServerMessage).

Definition appStep (e : AppEvent) (v : Voice) (w : State) : Voice * Run unit :=
  match e with
  | Toggle env => toggleVoice env v w
  | Closed code => (react (emitted (onclose code w)) v, onclose code w)
  | Failed message => (react (emitted (onerror message w)) v, onerror message w)
  | Received env msgs =>
      (react (emitted (deliver env msgs w)) v, deliver env msgs w)
  end.

(** The cells, the service and the whole trace after a list of events. *)
Fixpoint appRun (es : list AppEvent) (v : Voice) (w : State)
  : Voice * State * list Event :=
  match es with
  | [] => (v, w, [])
  | e :: rest =>
      let (v1, r) := appStep e v w in
      match appRun rest v1 (final r) with
      | (v2, w2, evs) => (v2, w2, emitted r ++ evs)
      end
  end.

(** Every event that a program emits satisfies [P], whatever the state. *)
Definition emits {A : Type} (P : Event -> Prop) (m : Js A) : Prop :=
  forall w, Forall P (emitted (m w)).

(** The events that the handling of a message can emit. *)
Definition messageEvent (e : Event) : Prop :=
  match e with
  | SourceStart _ _ _ _ | SourceStop _
  | ToolCallInvoked _ _ | ToolResponse _ _ _
  | OnTranscription _ _ | OnTurnComplete _ _ => True
  | _ => False
  end.

(** The channel has ended: [onclose] or [onerror] was called. *)
Definition ends (e : AppEvent) : bool :=
  match e with
  | Closed _ | Failed _ => true
  | _ => false
  end.

(** ** The tool handler of [App.tsx] and the detections it draws *)

(** A value that [args.label] can have, up to [===]: a string; [undefined],
    when the call has no such property; or another value, a primitive
    ([null], a number, a boolean) by the text that [JSON.stringify] gives
    it, an object or an array by its identity (the objects of two calls are
    two objects). *)
Inductive Label : Type :=
| Text (s : string)
| Undefined
| Primitive (json : string)
| Reference (object : Handle).

(** What [ToNumber] makes of [args.level]: a number; [NaN] (no such
    property, text that is not a number, an object); or an infinity. *)
Inductive JsNumber : Type :=
| Finite (q : Q)
| NaN
| PlusInfinity
| MinusInfinity.

(** [Math.min(a, b)], [Math.max(a, b)] and [a / d] for a number [d > 0]. *)
Definition mathMin (a b : JsNumber) : JsNumber :=
  match a, b with
  | NaN, _ | _, NaN => NaN
  | MinusInfinity, _ | _, MinusInfinity => MinusInfinity
  | PlusInfinity, x | x, PlusInfinity => x
  | Finite x, Finite y => Finite (Qmin x y)
  end.

Definition mathMax (a b : JsNumber) : JsNumber :=
  match a, b with
  | NaN, _ | _, NaN => NaN
  | PlusInfinity, _ | _, PlusInfinity => PlusInfinity
  | MinusInfinity, x | x, MinusInfinity => x
  | Finite x, Finite y => Finite (Qmax x y)
  end.

Definition over (a : JsNumber) (d : Q) : JsNumber :=
  match a with
  | Finite x => Finite (x / d)
  | other => other
  end.

(** [Detection] ([App.tsx], lines 12-26); the label is the [args.label] of
    the call that drew it. *)
Record Detection : Type := {
  det_id : string;
  det_label : Label;
  det_x : Q;
  det_y : Q;
  det_w : Q;
  det_h : Q;
  targetX : Q;
  targetY : Q;
  targetW : Q;
  targetH : Q;
  opacity : Q;
  distance : Z;
  threat : string
}.

(** The [args] object of a tool call, when the call has one.  [level] is
    read through [Math.min] and [label] is compared and called upon, so
    both are taken in any shape; [x], [y], [w] and [h] are only stored, and
    are the numbers that the declarations of [systemActions] require. *)
Record ToolArgs : Type := {
  args_level : JsNumber;
  args_label : Label;
  args_x : Q;
  args_y : Q;
  args_w : Q;
  args_h : Q
}.

(** Built-ins of the platform that the handler calls to make text:
    [String.prototype.toUpperCase];
    [Math.random().toString(36).substr(2, 9)] as a function of the number
    drawn; and the text of [Math.round(level * 100)] in a template, as a
    function of [level] (the product is taken in binary64 and need not be
    the exact one: for 0.575 it is below 57.5). *)
Record Builtins : Type := {
  toUpperCase : string -> string;
  randomId : Q -> string;
  percent : JsNumber -> string
}.

(** [a === b] on labels. *)
Definition sameLabel (a b : Label) : bool :=
  match a, b with
  | Text x, Text y => String.eqb x y
  | Undefined, Undefined => true
  | Primitive x, Primitive y => String.eqb x y
  | Reference x, Reference y => Nat.eqb x y
  | _, _ => false
  end.

(** [Math.floor(Math.random() * 5) + 1] and
    [Math.random() > 0.8 ? 'HIGH' : 'LOW'] for a number drawn [r]. *)
Definition randomDistance (r : Q) : Z := (Qfloor (r * 5) + 1)%Z.

Definition randomThreat (r : Q) : string :=
  if Qle_bool r (8 # 10) then "LOW" else "HIGH".

(** The [map] of lines 443-450: every detection with the label of the call
    gets the new target, full opacity and two numbers drawn from
    [Math.random], the [k]-th and the next. *)
Fixpoint retarget (args : ToolArgs) (random : nat -> Q) (k : nat)
         (prev : list Detection) : list Detection :=
  match prev with
  | [] => []
  | d :: rest =>
      if sameLabel (det_label d) (args_label args)
      then {| det_id := det_id d; det_label := det_label d;
              det_x := det_x d; det_y := det_y d;
              det_w := det_w d; det_h := det_h d;
              targetX := args_x args; targetY := args_y args;
              targetW := args_w args; targetH := args_h args;
              opacity := 1;
              distance := randomDistance (random k);
              threat := randomThreat (random (S k)) |}
           :: retarget args random (S (S k)) rest
      else d :: retarget args random k rest
  end.

(** The updater of [setDetections] in the [draw_detection] branch (lines
    441-461); [random] gives the numbers that [Math.random] draws, in
    order. *)
Definition drawDetection (b : Builtins) (args : ToolArgs) (random : nat -> Q)
           (prev : list Detection) : list Detection :=
  if existsb (fun d => sameLabel (det_label d) (args_label args)) prev
  then retarget args random 0 prev
  else prev ++ [{| det_id := randomId b (random 0%nat);
                   det_label := args_label args;
                   det_x := args_x args; det_y := args_y args;
                   det_w := args_w args; det_h := args_h args;
                   targetX := args_x args; targetY := args_y args;
                   targetW := args_w args; targetH := args_h args;
                   opacity := 1;
                   distance := randomDistance (random 1%nat);
                   threat := randomThreat (random 2%nat) |}].

(** The cells of [App] that the handler writes; [hud_volume] and
    [hud_speed] are the two fields of the [audioSettings] cell. *)
Record Hud : Type := {
  hud_messages : list ChatMessage;
  hud_cache : option (list ChatMessage);
  hud_volume : JsNumber;
  hud_speed : Q;
  hud_detections : list Detection;
  hud_feedback : option string
}.

(** [onToolCall] of [toggleVoice] ([App.tsx], lines 433-466): the cells and
    the settled promise.  [args] is [None] for a call that has no [args]
    object: reading a property of it throws (lines 436 and 462), and so
    does the updater handed to [setDetections], which leaves the cell as it
    is.  [toUpperCase] is a method of strings only. *)
Definition appToolCall (b : Builtins) (random : nat -> Q) (name : string)
           (args : option ToolArgs) (h : Hud) : Hud * Completion string :=
  if String.eqb name "clear_chat" then
    ({| hud_messages := []; hud_cache := None;
        hud_volume := hud_volume h; hud_speed := hud_speed h;
        hud_detections := hud_detections h;
        hud_feedback := Some "HISTORY_PURGED"%string |},
     Normal "History purged."%string)
  else if String.eqb name "set_volume" then
    match args with
    | None => (h, Throw "TypeError")
    | Some a =>
        let level :=
          over (mathMax (Finite 0) (mathMin (Finite 100) (args_level a))) 100 in
        ({| hud_messages := hud_messages h; hud_cache := hud_cache h;
            hud_volume := level; hud_speed := hud_speed h;
            hud_detections := hud_detections h;
            hud_feedback := hud_feedback h |},
         Normal ("Volume set to " ++ percent b level ++ "%.")%string)
    end
  else if String.eqb name "draw_detection" then
    match args with
    | None => (h, Throw "TypeError")
    | Some a =>
        let drawn := drawDetection b a random (hud_detections h) in
        match args_label a with
        | Text l =>
            ({| hud_messages := hud_messages h; hud_cache := hud_cache h;
                hud_volume := hud_volume h; hud_speed := hud_speed h;
                hud_detections := drawn;
                hud_feedback :=
                  Some ("TARGET_LOCKED: " ++ toUpperCase b l)%string |},
             Normal "Target tracked."%string)
        | _ =>
            ({| hud_messages := hud_messages h; hud_cache := hud_cache h;
                hud_volume := hud_volume h; hud_speed := hud_speed h;
                hud_detections := drawn;
                hud_feedback := hud_feedback h |},
             Throw "TypeError")
        end
    end
  else (h, Normal "Tool executed."%string).


(** What the settings effect (lines 268-275) hands to the service, for a
    volume that is a number; [setTargetAtTime] takes no other. *)
Definition audioSettingsOf (h : Hud) : option AudioSettings :=
  match hud_volume h with
  | Finite v => Some {| volume := v; speed := hud_speed h |}
  | _ => None
  end.

(** One tick of the animation timer (lines 281-296): every box moves 15% of
    the way to its target and fades by 0.015; a box that has faded out is
    dropped. *)
Definition tickOne (d : Detection) : Detection :=
  {| det_id := det_id d; det_label := det_label d;
     det_x := det_x d + (targetX d - det_x d) * (15 # 100);
     det_y := det_y d + (targetY d - det_y d) * (15 # 100);
     det_w := det_w d + (targetW d - det_w d) * (15 # 100);
     det_h := det_h d + (targetH d - det_h d) * (15 # 100);
     targetX := targetX d; targetY := targetY d;
     targetW := targetW d; targetH := targetH d;
     opacity := opacity d - (15 # 1000);
     distance := distance d; threat := threat d |}.

Definition visible (d : Detection) : bool := negb (Qle_bool (opacity d) 0).

Definition tick (prev : list Detection) : list Detection :=
  filter visible (map tickOne prev).

(** Where a detection is drawn. *)
Definition boxOf (d : Detection) : Q * Q * Q * Q :=
  (det_x d, det_y d, det_w d, det_h d).

(** How much a detection has faded after [n] ticks. *)
Definition faded (n : nat) : Q := inject_Z (Z.of_nat n) * (15 # 1000).

(** ** The scan of [BootScreen] ([App.tsx], lines 108-121) *)

Inductive ScanPhase : Type := IDLE | SCANNING | VERIFYING | GRANTED.

(** The local [p], the cells [phase] and [progress], whether the interval
    timer is set, and how many times [onAuthenticated] was scheduled. *)
Record Scan : Type := {
  scan_p : N;
  scan_phase : ScanPhase;
  scan_progress : N;
  scan_interval : bool;
  scan_authenticated : nat
}.

Definition startScan (s : Scan) : Scan :=
  {| scan_p := 0; scan_phase := SCANNING; scan_progress := scan_progress s;
     scan_interval := true; scan_authenticated := scan_authenticated s |}.

(** One firing of the interval timer, if it is set. *)
Definition scanTick (s : Scan) : Scan :=
  if scan_interval s then
    let p := (scan_p s + 2)%N in
    let phase1 := if N.eqb p 60 then VERIFYING else scan_phase s in
    if N.leb 100 p
    then {| scan_p := p; scan_phase := GRANTED; scan_progress := p;
            scan_interval := false;
            scan_authenticated := S (scan_authenticated s) |}
    else {| scan_p := p; scan_phase := phase1; scan_progress := p;
            scan_interval := true;
            scan_authenticated := scan_authenticated s |}
  else s.

(** *** More sample inputs *)

Definition twoChunks : list Part := [chunk 0 1; chunk (3 # 10) (1 # 2)].

(** A message with one audio chunk and the [interrupted] signal. *)
Definition bargeIn : LiveServerMessage := {|
  toolCall := None;
  serverContent := Some {|
    modelTurn := Some [chunk 1 1];
    outputTranscription := None;
    inputTranscription := None;
    turnComplete := false;
    interrupted := true
  |}
|}.

(** The same with a [draw_detection] call before it. *)
Definition stalled : LiveServerMessage := {|
  toolCall := Some [call "a" "draw_detection"];
  serverContent := serverContent bargeIn
|}.

(** A chunk arrives in the session [busy], where it gets the source 6, and
    plays to its end before the next one arrives. *)
Definition chunkEnds : list Happening :=
  [Arrives (chunkMessage 0 1); Ends 6%nat; Arrives (chunkMessage 6 2)].

(** The session that [connectLive] returns from [initial] when the
    microphone is granted. *)
Definition firstSession : Session :=
  {| inputCtx := 2%nat; stream := [7%nat; 8%nat]; channel := 3%nat |}.

Definition idle : Voice :=
  {| voiceActive := false; liveSessionRef := None; voiceError := None;
     commandFeedback := None |}.

Definition inSession : Voice :=
  {| voiceActive := true; liveSessionRef := Some firstSession;
     voiceError := None; commandFeedback := None |}.

Definition greeting : ChatMessage :=
  {| msg_id := "999"; msg_role := ASSISTANT; msg_content := "Good evening.";
     msg_timestamp := 999; msg_isVoice := false |}.

Definition sampleClock : SubmitClock :=
  {| userIdAt := 1000; userAt := 1000; replyIdAt := 1000; replyAt := 1001;
     errorIdAt := 1500; errorAt := 1500 |}.

Definition sampleStream : ResponseStream :=
  {| chunks := [Some "It is "; None; Some ""; Some "a parcel."]%string;
     failure := None |}.

Definition brokenStream : ResponseStream :=
  {| chunks := [Some "It is "]%string; failure := Some ""%string |}.

Definition sampleChat : Chat :=
  {| messages := [greeting]; inputText := "what is this"; isProcessing := false |}.

Definition plain : Builtins :=
  {| toUpperCase := fun l => l; randomId := fun _ => "k3x9q0a1z"%string;
     percent := fun _ => "50"%string |}.

Definition sampleArgs : ToolArgs :=
  {| args_level := Finite 150; args_label := Text "parcel";
     args_x := 10; args_y := 20; args_w := 30; args_h := 40 |}.

Definition halfVolume : ToolArgs :=
  {| args_level := Finite 50; args_label := Undefined;
     args_x := 0; args_y := 0; args_w := 0; args_h := 0 |}.

Definition parcel : Detection :=
  {| det_id := "k3x9q0a1z"; det_label := Text "parcel";
     det_x := 0; det_y := 0; det_w := 10; det_h := 10;
     targetX := 10; targetY := 20; targetW := 30; targetH := 40;
     opacity := 1; distance := 3; threat := "LOW" |}.

Definition sampleHud : Hud :=
  {| hud_messages := [greeting]; hud_cache := Some [greeting];
     hud_volume := Finite (8 # 10); hud_speed := 1;
     hud_detections := [parcel]; hud_feedback := None |}.

Definition noScan : Scan :=
  {| scan_p := 0; scan_phase := IDLE; scan_progress := 0;
     scan_interval := false; scan_authenticated := 0 |}.

(** ** The scheduler in binary64 *)

(** The clock of the scheduler is a binary64 number, and line 152 rounds
    twice: the quotient, then the sum.  A binary64 number is a rational, and
    an operation of the platform is the exact operation followed by the
    rounding to the nearest binary64 number, ties going to the even
    significand.  [rnd64] is that rounding: 53 significant bits, and a
    least exponent of -1074, below which the numbers are subnormal.  The
    exponent has no upper bound here: a result of 2^1024 or more stands for
    an overflow, which binary64 gives as [Infinity]. *)

(** [floor (log2 q)] for [q > 0]. *)
Definition ilog2 (q : Q) : Z :=
  let k := (Z.log2 (Qnum q) - Z.log2 (Zpos (Qden q)))%Z in
  if Qle_bool (2 ^ k) q then k else (k - 1)%Z.

(** The exponent of the unit in the last place of [q]. *)
Definition exponent (q : Q) : Z := Z.max (ilog2 (Qabs q) - 52) (-1074).

(** The nearest integer, ties to even. *)
Definition roundEven (q : Q) : Z :=
  let f := Qfloor q in
  match Qcompare (q - inject_Z f) (1 # 2) with
  | Lt => f
  | Gt => (f + 1)%Z
  | Eq => if Z.even f then f else (f + 1)%Z
  end.

Definition rnd64 (q : Q) : Q :=
  inject_Z (roundEven (q / 2 ^ exponent q)) * 2 ^ exponent q.

(** A binary64 number that is not negative. *)
Definition binary64 (x : Q) : Prop := 0 <= x /\ rnd64 x == x.

(** Lines 142-154 as in [schedule], with the arithmetic of line 152 as
    binary64 has it.  [Math.max] returns one of its arguments and rounds
    nothing. *)
Definition schedule64 (part : Part) : Js unit :=
  ctx <- get audioContext ;;
  node <- get outputNode ;;
  match truthy (inlineData part), ctx, node with
  | true, Some _, Some _ =>
      clock <- get nextStartTime ;;
      modify (set_nextStartTime (Qmax clock (currentTime part))) ;;
      source <- alloc ;;
      settings <- get currentAudioSettings ;;
      start <- get nextStartTime ;;
      emit (SourceStart source start (speed settings) (duration part)) ;;
      settings' <- get currentAudioSettings ;;
      modify (set_nextStartTime
                (rnd64 (start + rnd64 (duration part / speed settings')))) ;;
      modify (fun w => set_activeSources (set_add source (activeSources w)) w)
  | _, _, _ => ret tt
  end.

(** The timeline that a clock at [clock] and a fixed [rate] give to a run
    of chunks in binary64. *)
Fixpoint timeline64 (s : Handle) (clock rate : Q) (parts : list Part)
  : list Event :=
  match parts with
  | [] => []
  | p :: rest =>
      let t := Qmax clock (currentTime p) in
      SourceStart s t rate (duration p)
        :: timeline64 (S s) (rnd64 (t + rnd64 (duration p / rate))) rate rest
  end.

(** A part with audio whose duration is not negative, scheduled when the
    audio context reads a binary64 time. *)
Definition audible64 (p : Part) : Prop :=
  truthy (inlineData p) = true /\ 0 <= duration p /\
  binary64 (currentTime p).

(** The sum of the quotients [d / rate] as the clock accumulates it: in the
    order of the chunks, each quotient rounded and each partial sum
    rounded. *)
Definition sum64 (rate : Q) (ds : list Q) : Q :=
  fold_left (fun acc d => rnd64 (acc + rnd64 (d / rate))) ds 0.

(** The binary64 numbers of the kernel, read as rationals: [rnd64] is
    checked against their arithmetic on samples. *)
Module Float64.
Import Floats.

Definition toQ (f : float) : option Q :=
  match Prim2SF f with
  | S754_zero _ => Some 0
  | S754_finite s m e =>
      Some ((if s then -1 else 1) * inject_Z (Zpos m) * 2 ^ e)
  | _ => None
  end.

(** The literals [0.1] and [0.7], and the clock after chunks of 0.1 s and
    0.7 s scheduled at time 0 and rate 1 from a clock at 0. *)
Definition tenth : float := (1 / 10)%float.

Definition seventTenths : float := (7 / 10)%float.

Definition clockAfterTwo : float := (0 + tenth / 1 + seventTenths / 1)%float.

(** A quotient that is rounded; a number halfway between 1 and the number
    after it, and one halfway between the next two; half of the least
    positive number, and three halves of it. *)
Definition thirdOfTenth : float := (tenth / 3)%float.

Definition tieDown : float := (1 + 0x1p-53)%float.

Definition tieUp : float := (1 + 0x1p-52 + 0x1p-53)%float.

Definition halfLeast : float := (0x1p-1074 / 2)%float.

Definition threeHalvesLeast : float := (0x3p-1074 / 2)%float.

(** Negative numbers: a literal and a tie. *)
Definition minusTenth : float := (- (1 / 10))%float.

Definition minusTie : float := (- 1 - 0x1p-52 - 0x1p-53)%float.

End Float64.

(** The binary64 number [f] is the rational [q]. *)
Definition agrees (f : PrimFloat.float) (q : Q) : Prop :=
  match Float64.toQ f with
  | Some x => x == q
  | None => False
  end.

(** Chunks of 0.1 s, 0.7 s and 0.1 s, all scheduled at time 0. *)
Definition tenths : list Part :=
  [chunk 0 (rnd64 (1 # 10)); chunk 0 (rnd64 (7 # 10));
   chunk 0 (rnd64 (1 # 10))].

(** ** The monad: runs of composed programs *)

Lemma run_bind_normal {A B : Type} (m : Js A) (k : A -> Js B) w a :
  completion (m w) = Normal a ->
  bind m k w =
    {| completion := completion (k a (final (m w)));
       final := final (k a (final (m w)));
       emitted := emitted (m w) ++ emitted (k a (final (m w))) |}.
Proof.
  intros H. unfold bind. destruct (m w) as [c w1 e1]. simpl in *. subst c.
  destruct (k a w1); reflexivity.
Qed.

Lemma run_bind_throw {A B : Type} (m : Js A) (k : A -> Js B) w e :
  completion (m w) = Throw e ->
  bind m k w =
    {| completion := Throw e; final := final (m w);
       emitted := emitted (m w) |}.
Proof.
  intros H. unfold bind. destruct (m w) as [c w1 e1]. simpl in *. subst c.
  reflexivity.
Qed.

Lemma forOf_app {A : Type} (f : A -> Js unit) (l1 l2 : list A) w :
  completion (forOf f l1 w) = Normal tt ->
  forOf f (l1 ++ l2) w =
    {| completion := completion (forOf f l2 (final (forOf f l1 w)));
       final := final (forOf f l2 (final (forOf f l1 w)));
       emitted := emitted (forOf f l1 w)
                  ++ emitted (forOf f l2 (final (forOf f l1 w))) |}.
Proof.
  revert w. induction l1 as [|x l1 IH]; intros w H.
  - simpl. destruct (forOf f l2 w); reflexivity.
  - simpl in *. unfold bind in *.
    destruct (f x w) as [[[]|e] w1 e1]; simpl in *.
    + destruct (forOf f l1 w1) as [c2 w2 e2] eqn:E2.
      assert (H2 : completion (forOf f l1 w1) = Normal tt)
        by (rewrite E2; exact H).
      rewrite (IH _ H2), E2. simpl. rewrite app_assoc. reflexivity.
    + discriminate.
Qed.

(** ** The scheduler *)

Lemma schedule_playing (p : Part) (w : State) :
  playing w -> truthy (inlineData p) = true ->
  schedule p w =
    let t := Qmax (nextStartTime w) (currentTime p) in
    let r := speed (currentAudioSettings w) in
    {| completion := Normal tt;
       final :=
         set_activeSources (set_add (fresh w) (activeSources w))
           (set_nextStartTime (t + duration p / r)
              (set_fresh (S (fresh w)) (set_nextStartTime t w)));
       emitted := [SourceStart (fresh w) t r (duration p)] |}.
Proof.
  intros [Hc Hn] Ht. unfold schedule, bind, get. simpl. rewrite Ht.
  destruct (audioContext w); [|congruence].
  destruct (outputNode w); [|congruence].
  reflexivity.
Qed.

Lemma set_add_In s l : In s (set_add s l).
Proof.
  unfold set_add. destruct (existsb (Nat.eqb s) l) eqn:E.
  - apply existsb_exists in E. destruct E as [x [Hx He]].
    apply Nat.eqb_eq in He. subst. exact Hx.
  - apply in_or_app. right. left. reflexivity.
Qed.



Lemma playing_schedule_final (p : Part) (w : State) :
  playing w -> truthy (inlineData p) = true ->
  let w' := final (schedule p w) in
  playing w' /\
  currentAudioSettings w' = currentAudioSettings w /\
  fresh w' = S (fresh w) /\
  nextStartTime w' =
    Qmax (nextStartTime w) (currentTime p)
    + duration p / speed (currentAudioSettings w).
Proof.
  intros Hp Ht. cbv zeta. rewrite (schedule_playing p Hp Ht).
  destruct Hp as [Hc Hn]. simpl. unfold playing. simpl. auto.
Qed.

(** The loop over the parts of a message emits the timeline of its
    chunks. *)
Lemma forOf_schedule_timeline (parts : list Part) :
  forall w,
    playing w ->
    Forall (fun p => truthy (inlineData p) = true) parts ->
    completion (forOf schedule parts w) = Normal tt /\
    emitted (forOf schedule parts w) =
      timeline (fresh w) (nextStartTime w)
        (speed (currentAudioSettings w)) parts.
Proof.
  induction parts as [|p rest IH]; intros w Hp Hall.
  - simpl. auto.
  - inversion Hall as [|? ? Ht Hrest]; subst.
    destruct (playing_schedule_final p Hp Ht) as [Hp' [Hs [Hf Hc]]].
    destruct (IH _ Hp' Hrest) as [IHc IHe].
    simpl forOf.
    rewrite (@run_bind_normal unit unit (schedule p) _ w tt)
      by (rewrite (schedule_playing p Hp Ht); reflexivity).
    cbn [completion final emitted]. split; [exact IHc|].
    rewrite IHe, Hs, Hf, Hc.
    rewrite (schedule_playing p Hp Ht). reflexivity.
Qed.

Lemma timeline_length s clock rate parts :
  List.length (timeline s clock rate parts) = List.length parts.
Proof.
  revert s clock. induction parts as [|p rest IH]; intros; simpl; auto.
Qed.

Lemma Qdiv_plus_distr (a b r : Q) : (a + b) / r == a / r + b / r.
Proof. unfold Qdiv. ring. Qed.

Lemma Qdiv_nonneg (a r : Q) : 0 <= a -> 0 < r -> 0 <= a / r.
Proof.
  intros Ha Hr. unfold Qdiv. apply Qmult_le_0_compat; [exact Ha|].
  apply Qlt_le_weak, Qinv_lt_0_compat, Hr.
Qed.

(** The [k]-th chunk of a timeline keeps its duration and rate and starts
    no earlier than the clock plus the time taken by the chunks before
    it. *)
Lemma timeline_nth (rate : Q) (parts : list Part) :
  forall s clock k p,
    nth_error parts k = Some p ->
    exists t,
      nth_error (timeline s clock rate parts) k
        = Some (SourceStart (k + s)%nat t rate (duration p)) /\
      clock + sumQ (map duration (firstn k parts)) / rate <= t.
Proof.
  induction parts as [|q rest IH]; intros s clock k p Hk.
  - destruct k; discriminate.
  - destruct k as [|k]; simpl in Hk.
    + inversion Hk; subst. exists (Qmax clock (currentTime p)). split.
      * reflexivity.
      * simpl. unfold Qdiv. rewrite Qmult_0_l, Qplus_0_r.
        apply Q.le_max_l.
    + destruct (IH (S s) (Qmax clock (currentTime q) + duration q / rate)
                  k p Hk) as [t [Ht Hle]].
      exists t. split.
      * simpl. rewrite Ht. do 3 f_equal. lia.
      * simpl. rewrite Qdiv_plus_distr.
        pose proof (Q.le_max_l clock (currentTime q)). lra.
Qed.

(** With durations that are not negative and a positive rate, every chunk
    of a timeline starts at or after the clock. *)
Lemma timeline_after_clock (rate : Q) (parts : list Part) :
  0 < rate ->
  Forall (fun p => 0 <= duration p) parts ->
  forall s clock k s' t r d,
    nth_error (timeline s clock rate parts) k = Some (SourceStart s' t r d) ->
    clock <= t.
Proof.
  intros Hr. induction 1 as [|q rest Hq Hrest IH]; intros s clock k s' t r d Hk.
  - destruct k; discriminate.
  - destruct k as [|k]; simpl in Hk.
    + inversion Hk; subst. apply Q.le_max_l.
    + apply IH in Hk.
      pose proof (Q.le_max_l clock (currentTime q)).
      pose proof (Qdiv_nonneg Hq Hr). lra.
Qed.

Lemma timeline_disjoint (rate : Q) (parts : list Part) :
  0 < rate ->
  Forall (fun p => 0 <= duration p) parts ->
  forall s clock i j si ti ri di sj tj rj dj,
    (i < j)%nat ->
    nth_error (timeline s clock rate parts) i = Some (SourceStart si ti ri di) ->
    nth_error (timeline s clock rate parts) j = Some (SourceStart sj tj rj dj) ->
    ti + di / ri <= tj.
Proof.
  intros Hr. induction 1 as [|q rest Hq Hrest IH];
    intros s clock i j si ti ri di sj tj rj dj Hij Hi Hj.
  - destruct i; discriminate.
  - destruct j as [|j]; [lia|]. simpl in Hj.
    destruct i as [|i]; simpl in Hi.
    + inversion Hi; subst.
      eapply timeline_after_clock; [exact Hr|exact Hrest|exact Hj].
    + eapply IH; [|exact Hi|exact Hj]. lia.
Qed.

(** In exact arithmetic, chunks scheduled one after the other at a fixed
    positive rate, with no interrupt in between, from a clock that is not
    negative: the [k]-th chunk starts no earlier than the sum of the
    durations before it divided by the rate, and a chunk ends (start plus
    duration over rate) no later than any later chunk starts.  Binary64
    keeps neither bound exactly. *)
Lemma schedule_sequence_gapless (parts : list Part) (w : State) :
  playing w ->
  0 < speed (currentAudioSettings w) ->
  0 <= nextStartTime w ->
  Forall audible parts ->
  let rate := speed (currentAudioSettings w) in
  let run := forOf schedule parts w in
  completion run = Normal tt /\
  List.length (emitted run) = List.length parts /\
  (forall k p, nth_error parts k = Some p ->
     exists s t,
       nth_error (emitted run) k = Some (SourceStart s t rate (duration p)) /\
       sumQ (map duration (firstn k parts)) / rate <= t) /\
  (forall i j si ti ri di sj tj rj dj,
     (i < j)%nat ->
     nth_error (emitted run) i = Some (SourceStart si ti ri di) ->
     nth_error (emitted run) j = Some (SourceStart sj tj rj dj) ->
     ti + di / ri <= tj).
Proof.
  intros Hp Hr Hc Hall. cbv zeta.
  assert (Ht : Forall (fun p => truthy (inlineData p) = true) parts)
    by (eapply Forall_impl; [|exact Hall]; intros a [H _]; exact H).
  assert (Hd : Forall (fun p => 0 <= duration p) parts)
    by (eapply Forall_impl; [|exact Hall]; intros a [_ H]; exact H).
  destruct (forOf_schedule_timeline Hp Ht) as [Hn He].
  rewrite He. split; [exact Hn|]. split; [apply timeline_length|]. split.
  - intros k p Hk.
    destruct (timeline_nth (speed (currentAudioSettings w)) parts
                (fresh w) (nextStartTime w) k Hk) as [t [Hev Hle]].
    exists (k + fresh w)%nat, t. split; [exact Hev|]. lra.
  - intros. eapply timeline_disjoint; eauto.
Qed.

(** The clock stays non-negative: it is 0 in a new service and after
    [stopAudio], and scheduling a chunk keeps it so. *)
Lemma schedule_keeps_clock_nonneg (p : Part) (w : State) :
  playing w -> audible p ->
  0 < speed (currentAudioSettings w) ->
  0 <= nextStartTime w ->
  0 <= nextStartTime (final (schedule p w)).
Proof.
  intros Hp [Ht Hd] Hr Hc.
  destruct (playing_schedule_final p Hp Ht) as [_ [_ [_ Hn]]].
  rewrite Hn.
  pose proof (Q.le_max_l (nextStartTime w) (currentTime p)).
  pose proof (Qdiv_nonneg Hd Hr). lra.
Qed.


(** ** The scheduler in binary64 *)

(** Powers of two. *)
Lemma pow2_pos (z : Z) : 0 < 2 ^ z.
Proof. apply Qpower_0_lt. reflexivity. Qed.

Lemma pow2_nonzero (z : Z) : ~ 2 ^ z == 0.
Proof. intros H. pose proof (pow2_pos z). lra. Qed.

Lemma pow2_le (n m : Z) : (n <= m)%Z -> 2 ^ n <= 2 ^ m.
Proof. intros H. apply Qpower_le_compat_l; [exact H|discriminate]. Qed.

Lemma pow2_lt (n m : Z) : (n < m)%Z -> 2 ^ n < 2 ^ m.
Proof. intros H. apply Qpower_lt_compat_l; [exact H|reflexivity]. Qed.

Lemma pow2_lt_inv (n m : Z) : 2 ^ n < 2 ^ m -> (n < m)%Z.
Proof. intros H. apply (Qpower_lt_compat_l_inv 2); [exact H|reflexivity]. Qed.

Lemma pow2_plus (n m : Z) : 2 ^ (n + m) == 2 ^ n * 2 ^ m.
Proof. apply Qpower_plus. discriminate. Qed.

Lemma pow2_Z (n : Z) : (0 <= n)%Z -> inject_Z (2 ^ n) == 2 ^ n.
Proof. intros H. apply (Zpower_Qpower 2 n H). Qed.

Lemma ilog2_spec (q : Q) :
  0 < q -> 2 ^ ilog2 q <= q /\ q < 2 ^ (ilog2 q + 1).
Proof.
  destruct q as [n d]. intros Hq.
  assert (Hn : (0 < n)%Z).
  { unfold Qlt in Hq. simpl in Hq. lia. }
  unfold ilog2. cbn [Qnum Qden].
  set (a := Z.log2 n). set (b := Z.log2 (Z.pos d)).
  destruct (Z.log2_spec n Hn) as [Ha1 Ha2]. fold a in Ha1, Ha2.
  destruct (Z.log2_spec (Z.pos d) eq_refl) as [Hb1 Hb2]. fold b in Hb1, Hb2.
  assert (Ha : (0 <= a)%Z) by apply Z.log2_nonneg.
  assert (Hb : (0 <= b)%Z) by apply Z.log2_nonneg.
  assert (Qa1 : 2 ^ a <= inject_Z n).
  { rewrite <- pow2_Z by exact Ha. rewrite <- Zle_Qle. exact Ha1. }
  assert (Qa2 : inject_Z n < 2 ^ (a + 1)).
  { rewrite <- pow2_Z by lia. rewrite <- Zlt_Qlt. exact Ha2. }
  assert (Qb1 : 2 ^ b <= inject_Z (Z.pos d)).
  { rewrite <- pow2_Z by exact Hb. rewrite <- Zle_Qle. exact Hb1. }
  assert (Qb2 : inject_Z (Z.pos d) < 2 ^ (b + 1)).
  { rewrite <- pow2_Z by lia. rewrite <- Zlt_Qlt. exact Hb2. }
  assert (Hd : 0 < inject_Z (Z.pos d)) by reflexivity.
  destruct (Qle_bool (2 ^ (a - b)) (n # d)) eqn:E.
  - split; [apply Qle_bool_iff; exact E|].
    rewrite (Qmake_Qdiv n d). apply Qlt_shift_div_r; [exact Hd|].
    eapply Qlt_le_trans; [exact Qa2|].
    replace (a + 1)%Z with ((a - b + 1) + b)%Z by lia.
    rewrite pow2_plus. apply Qmult_le_l; [apply pow2_pos|exact Qb1].
  - assert (Hlt : n # d < 2 ^ (a - b)).
    { apply Qnot_le_lt. intros H. apply Qle_bool_iff in H. congruence. }
    split.
    + rewrite (Qmake_Qdiv n d). apply Qle_shift_div_l; [exact Hd|].
      eapply Qle_trans; [|exact Qa1].
      replace a with ((a - b - 1) + (b + 1))%Z at 2 by lia.
      rewrite pow2_plus. apply Qmult_le_l; [apply pow2_pos|].
      apply Qlt_le_weak. exact Qb2.
    + replace (a - b - 1 + 1)%Z with (a - b)%Z by lia. exact Hlt.
Qed.

Lemma ilog2_unique (q : Q) (k : Z) :
  0 < q -> 2 ^ k <= q -> q < 2 ^ (k + 1) -> ilog2 q = k.
Proof.
  intros Hq H1 H2. destruct (ilog2_spec Hq) as [S1 S2].
  assert (A : (k < ilog2 q + 1)%Z) by (apply pow2_lt_inv; lra).
  assert (B : (ilog2 q < k + 1)%Z) by (apply pow2_lt_inv; lra).
  lia.
Qed.

Lemma ilog2_le (x y : Q) : 0 < x -> x <= y -> (ilog2 x <= ilog2 y)%Z.
Proof.
  intros Hx Hxy. assert (Hy : 0 < y) by lra.
  destruct (ilog2_spec Hx) as [X1 X2]. destruct (ilog2_spec Hy) as [Y1 Y2].
  assert (A : (ilog2 x < ilog2 y + 1)%Z) by (apply pow2_lt_inv; lra).
  lia.
Qed.

Lemma Qabs_nonneg_eq (x : Q) : 0 <= x -> Qabs x = x.
Proof.
  destruct x as [n d]. unfold Qle. simpl. intros H.
  rewrite Z.abs_eq by lia. reflexivity.
Qed.

(** Rounding to an integer. *)
Lemma roundEven_Z (n : Z) : roundEven (inject_Z n) = n.
Proof.
  unfold roundEven. rewrite Qfloor_Z.
  destruct (Qcompare_spec (inject_Z n - inject_Z n) (1 # 2)) as [A|A|A];
    try reflexivity; exfalso; lra.
Qed.

Lemma roundEven_floor (q : Q) :
  (Qfloor q <= roundEven q <= Qfloor q + 1)%Z.
Proof.
  unfold roundEven.
  destruct (Qcompare (q - inject_Z (Qfloor q)) (1 # 2)); [destruct (Z.even _)| |]; lia.
Qed.

Lemma roundEven_le (a b : Q) : a <= b -> (roundEven a <= roundEven b)%Z.
Proof.
  intros Hab. pose proof (Qfloor_resp_le _ _ Hab) as Hf.
  destruct (Z.eq_dec (Qfloor a) (Qfloor b)) as [E|E].
  - unfold roundEven. rewrite E.
    assert (Hr : a - inject_Z (Qfloor b) <= b - inject_Z (Qfloor b)) by lra.
    destruct (Qcompare_spec (a - inject_Z (Qfloor b)) (1 # 2)) as [A|A|A];
      destruct (Qcompare_spec (b - inject_Z (Qfloor b)) (1 # 2)) as [B|B|B];
      try destruct (Z.even (Qfloor b)); try lia; lra.
  - pose proof (roundEven_floor a). pose proof (roundEven_floor b). lia.
Qed.

Lemma roundEven_comp (a b : Q) : a == b -> roundEven a = roundEven b.
Proof.
  intros H. apply Z.le_antisymm; apply roundEven_le; lra.
Qed.

(** Rounding to binary64. *)
Lemma exponent_nonneg (x : Q) :
  0 <= x -> exponent x = Z.max (ilog2 x - 52) (-1074).
Proof. intros H. unfold exponent. rewrite (Qabs_nonneg_eq H). reflexivity. Qed.

Lemma exponent_min (x : Q) : (-1074 <= exponent x)%Z.
Proof. unfold exponent. lia. Qed.

Lemma scaled_zero (x u : Q) : x == 0 -> x / u == inject_Z 0.
Proof. intros H. rewrite H. unfold Qdiv. ring. Qed.

Lemma rnd64_zero (x : Q) : x == 0 -> rnd64 x == 0.
Proof.
  intros H. unfold rnd64.
  rewrite (roundEven_comp (scaled_zero (2 ^ exponent x) H)), roundEven_Z.
  ring.
Qed.

Lemma round_below (n : Z) (q u : Q) :
  0 < u -> q <= inject_Z n * u ->
  inject_Z (roundEven (q / u)) * u <= inject_Z n * u.
Proof.
  intros Hu H. apply Qmult_le_compat_r; [|lra].
  rewrite <- Zle_Qle.
  apply Z.le_trans with (roundEven (inject_Z n));
    [|rewrite roundEven_Z; apply Z.le_refl].
  apply roundEven_le. apply Qle_shift_div_r; assumption.
Qed.

Lemma round_above (n : Z) (q u : Q) :
  0 < u -> inject_Z n * u <= q ->
  inject_Z n * u <= inject_Z (roundEven (q / u)) * u.
Proof.
  intros Hu H. apply Qmult_le_compat_r; [|lra].
  rewrite <- Zle_Qle.
  apply Z.le_trans with (roundEven (inject_Z n));
    [rewrite roundEven_Z; apply Z.le_refl|].
  apply roundEven_le. apply Qle_shift_div_l; assumption.
Qed.

Lemma rnd64_nonneg (x : Q) : 0 <= x -> 0 <= rnd64 x.
Proof.
  intros H. unfold rnd64.
  pose proof (@round_above 0 x (2 ^ exponent x) (pow2_pos _)) as R.
  assert (E : inject_Z 0 * 2 ^ exponent x == 0) by ring.
  rewrite E in R. apply R. exact H.
Qed.

Lemma rnd64_le (x y : Q) : 0 <= x -> x <= y -> rnd64 x <= rnd64 y.
Proof.
  intros Hx Hxy. destruct (Qlt_le_dec 0 x) as [Hpos|Hz].
  2:{ assert (H0 : x == 0) by lra. rewrite (rnd64_zero H0).
      apply rnd64_nonneg. lra. }
  assert (Hy : 0 < y) by lra.
  assert (Hy' : 0 <= y) by lra.
  pose proof (ilog2_le Hpos Hxy) as Hk.
  destruct (ilog2_spec Hpos) as [X1 X2]. destruct (ilog2_spec Hy) as [Y1 Y2].
  unfold rnd64. rewrite (exponent_nonneg Hx), (exponent_nonneg Hy').
  set (kx := ilog2 x) in *. set (ky := ilog2 y) in *.
  set (ex := Z.max (kx - 52) (-1074)). set (ey := Z.max (ky - 52) (-1074)).
  destruct (Z.eq_dec ex ey) as [E|E].
  - rewrite E. apply Qmult_le_compat_r; [|apply Qlt_le_weak, pow2_pos].
    rewrite <- Zle_Qle. apply roundEven_le.
    apply Qmult_le_compat_r; [exact Hxy|].
    apply Qlt_le_weak, Qinv_lt_0_compat, pow2_pos.
  - assert (Hlt : (ex < ey)%Z) by lia.
    assert (Hey : ey = (ky - 52)%Z) by lia.
    assert (Hkk : (kx + 1 <= ky)%Z) by lia.
    assert (Hb : x <= 2 ^ ky).
    { pose proof (pow2_le Hkk). lra. }
    apply Qle_trans with (2 ^ ky).
    + assert (B : inject_Z (2 ^ (ky - ex)) * 2 ^ ex == 2 ^ ky).
      { rewrite pow2_Z by lia. rewrite <- pow2_plus.
        replace (ky - ex + ex)%Z with ky by lia. reflexivity. }
      rewrite <- B. apply round_below; [apply pow2_pos|]. rewrite B. exact Hb.
    + assert (B : inject_Z (2 ^ 52) * 2 ^ ey == 2 ^ ky).
      { rewrite pow2_Z by lia. rewrite <- pow2_plus.
        replace (52 + ey)%Z with ky by lia. reflexivity. }
      rewrite <- B. apply round_above; [apply pow2_pos|]. rewrite B. exact Y1.
Qed.

Lemma rnd64_comp (x y : Q) : 0 <= x -> x == y -> rnd64 x == rnd64 y.
Proof.
  intros Hx H. apply Qle_antisym; apply rnd64_le; lra.
Qed.

Lemma rnd64_grid (v : Q) (N : Z) :
  v == inject_Z N * 2 ^ exponent v -> rnd64 v == v.
Proof.
  intros H.
  assert (E : v / 2 ^ exponent v == inject_Z N).
  { revert H. generalize (pow2_nonzero (exponent v)).
    generalize (2 ^ exponent v). intros u Hu H. rewrite H. field. exact Hu. }
  unfold rnd64. rewrite (roundEven_comp E), roundEven_Z. symmetry. exact H.
Qed.

Lemma rnd64_idem (x : Q) : 0 <= x -> rnd64 (rnd64 x) == rnd64 x.
Proof.
  intros Hx.
  pose proof (rnd64_nonneg Hx) as Hv.
  destruct (Qlt_le_dec 0 (rnd64 x)) as [Hpos|Hz].
  2:{ assert (H0 : rnd64 x == 0) by lra.
      rewrite (rnd64_zero H0). symmetry. exact H0. }
  assert (Hxpos : 0 < x).
  { destruct (Qlt_le_dec 0 x) as [H|H]; [exact H|].
    assert (H0 : x == 0) by lra. rewrite (rnd64_zero H0) in Hpos. lra. }
  destruct (ilog2_spec Hxpos) as [X1 X2].
  revert Hv Hpos. unfold rnd64 at 1 2 4 5. rewrite (exponent_nonneg Hx).
  set (k := ilog2 x) in *. set (e := Z.max (k - 52) (-1074)).
  set (n := roundEven (x / 2 ^ e)). intros Hv Hpos.
  assert (Hn : (0 < n)%Z).
  { destruct (Z_lt_le_dec 0 n) as [H|H]; [exact H|]. exfalso.
    assert (inject_Z n <= 0) by (change 0 with (inject_Z 0); rewrite <- Zle_Qle; exact H).
    pose proof (pow2_pos e). nra. }
  assert (Hn53 : (n <= 2 ^ 53)%Z).
  { unfold n. apply Z.le_trans with (roundEven (inject_Z (2 ^ 53)));
      [|rewrite roundEven_Z; apply Z.le_refl]. apply roundEven_le.
    apply Qle_shift_div_r; [apply pow2_pos|].
    rewrite pow2_Z by lia. rewrite <- pow2_plus.
    assert (L : (k + 1 <= 53 + e)%Z) by lia.
    pose proof (pow2_le L). lra. }
  set (j := Z.log2 n).
  destruct (Z.log2_spec n Hn) as [J1 J2]. fold j in J1, J2.
  assert (Hj0 : (0 <= j)%Z) by apply Z.log2_nonneg.
  assert (Hj : (j <= 53)%Z).
  { destruct (Z_le_gt_dec j 53) as [H|H]; [exact H|]. exfalso.
    assert (L : (2 ^ 54 <= 2 ^ j)%Z) by (apply Z.pow_le_mono_r; lia).
    lia. }
  assert (Q1 : 2 ^ j <= inject_Z n).
  { rewrite <- pow2_Z by exact Hj0. rewrite <- Zle_Qle. exact J1. }
  assert (Q2 : inject_Z n < 2 ^ (j + 1)).
  { rewrite <- pow2_Z by lia. rewrite <- Zlt_Qlt. exact J2. }
  assert (Hk : ilog2 (inject_Z n * 2 ^ e) = (j + e)%Z).
  { apply ilog2_unique; [exact Hpos| |].
    - rewrite pow2_plus. apply Qmult_le_compat_r; [exact Q1|].
      apply Qlt_le_weak, pow2_pos.
    - replace (j + e + 1)%Z with ((j + 1) + e)%Z by lia. rewrite pow2_plus.
      apply Qmult_lt_compat_r; [apply pow2_pos|exact Q2]. }
  assert (He : exponent (inject_Z n * 2 ^ e) = Z.max (j + e - 52) (-1074)).
  { rewrite (exponent_nonneg Hv), Hk. reflexivity. }
  destruct (Z_le_gt_dec j 52) as [H52|H52].
  - apply (@rnd64_grid _ (n * 2 ^ (e - exponent (inject_Z n * 2 ^ e)))).
    rewrite He. set (e' := Z.max (j + e - 52) (-1074)).
    assert (Le : (0 <= e - e')%Z) by lia.
    rewrite inject_Z_mult, pow2_Z by exact Le.
    rewrite <- Qmult_assoc, <- pow2_plus.
    replace (e - e' + e')%Z with e by lia. reflexivity.
  - assert (En : n = (2 ^ 53)%Z).
    { assert (j = 53%Z) by lia. subst j.
      replace (Z.log2 n) with 53%Z in J1 by lia. lia. }
    apply (@rnd64_grid _ (2 ^ 52)).
    rewrite He. replace (Z.max (j + e - 52) (-1074)) with (e + 1)%Z by lia.
    rewrite En. rewrite !pow2_Z by lia. rewrite <- !pow2_plus.
    replace (52 + (e + 1))%Z with (53 + e)%Z by lia. reflexivity.
Qed.

Lemma binary64_rnd (x : Q) : 0 <= x -> binary64 (rnd64 x).
Proof. intros H. split; [apply rnd64_nonneg; exact H|apply rnd64_idem; exact H]. Qed.

Lemma rnd64_grows (t x : Q) : binary64 t -> 0 <= x -> t <= rnd64 (t + x).
Proof.
  intros [Ht Hr] Hx. rewrite <- Hr at 1. apply rnd64_le; lra.
Qed.

(** [rnd64] against the arithmetic of the platform: a literal, a quotient
    and a sum that are rounded, ties above 1 (to the even neighbour, which
    is once the lower and once the upper one), ties among the subnormal
    numbers (to zero, and upwards), and negative numbers. *)
Lemma rnd64_agrees_with_platform_on_samples :
  agrees Float64.tenth (rnd64 (1 # 10)) /\
  agrees Float64.thirdOfTenth (rnd64 (rnd64 (1 # 10) / 3)) /\
  agrees Float64.clockAfterTwo (rnd64 (rnd64 (1 # 10) + rnd64 (7 # 10))) /\
  agrees Float64.tieDown (rnd64 (1 + 2 ^ (-53))) /\
  agrees Float64.tieUp (rnd64 (1 + 2 ^ (-52) + 2 ^ (-53))) /\
  agrees Float64.halfLeast (rnd64 (2 ^ (-1075))) /\
  agrees Float64.threeHalvesLeast (rnd64 (3 * 2 ^ (-1075))) /\
  agrees Float64.minusTenth (rnd64 (- (1 # 10))) /\
  agrees Float64.minusTie (rnd64 (- 1 - 2 ^ (-52) - 2 ^ (-53))).
Proof. repeat split; vm_compute; reflexivity. Qed.

Lemma binary64_comp (x y : Q) : binary64 x -> x == y -> binary64 y.
Proof.
  intros [H0 Hr] E. split; [lra|].
  rewrite <- (rnd64_comp H0 E), Hr. exact E.
Qed.

Lemma binary64_max (a b : Q) :
  binary64 a -> binary64 b -> binary64 (Qmax a b).
Proof.
  intros Ha Hb. destruct (Q.max_spec a b) as [[_ E]|[_ E]];
    [apply (binary64_comp Hb)|apply (binary64_comp Ha)]; symmetry; exact E.
Qed.

(** One step of the clock in binary64: from a start [t] that is a binary64
    number, the clock is a binary64 number again and not before [t]. *)
Lemma clock64_step (t d r : Q) :
  binary64 t -> 0 <= d -> 0 < r ->
  binary64 (rnd64 (t + rnd64 (d / r))) /\
  t <= rnd64 (t + rnd64 (d / r)).
Proof.
  intros Ht Hd Hr.
  assert (Hq : 0 <= rnd64 (d / r)) by (apply rnd64_nonneg, Qdiv_nonneg; assumption).
  split; [|apply rnd64_grows; assumption].
  apply binary64_rnd. destruct Ht as [Ht _]. lra.
Qed.

Lemma schedule64_playing (p : Part) (w : State) :
  playing w -> truthy (inlineData p) = true ->
  schedule64 p w =
    let t := Qmax (nextStartTime w) (currentTime p) in
    let r := speed (currentAudioSettings w) in
    {| completion := Normal tt;
       final :=
         set_activeSources (set_add (fresh w) (activeSources w))
           (set_nextStartTime (rnd64 (t + rnd64 (duration p / r)))
              (set_fresh (S (fresh w)) (set_nextStartTime t w)));
       emitted := [SourceStart (fresh w) t r (duration p)] |}.
Proof.
  intros [Hc Hn] Ht. unfold schedule64, bind, get. simpl. rewrite Ht.
  destruct (audioContext w); [|congruence].
  destruct (outputNode w); [|congruence].
  reflexivity.
Qed.

Lemma forOf_schedule64_timeline (parts : list Part) :
  forall w,
    playing w ->
    Forall (fun p => truthy (inlineData p) = true) parts ->
    completion (forOf schedule64 parts w) = Normal tt /\
    emitted (forOf schedule64 parts w) =
      timeline64 (fresh w) (nextStartTime w)
        (speed (currentAudioSettings w)) parts.
Proof.
  induction parts as [|p rest IH]; intros w Hp Hall.
  - simpl. auto.
  - inversion Hall as [|? ? Ht Hrest]; subst.
    pose proof (schedule64_playing p Hp Ht) as Hrun. cbv zeta in Hrun.
    assert (Hp' : playing (final (schedule64 p w))).
    { rewrite Hrun. destruct Hp as [Hc Hn]. split; simpl; assumption. }
    destruct (IH _ Hp' Hrest) as [IHc IHe].
    simpl forOf.
    rewrite (@run_bind_normal unit unit (schedule64 p) _ w tt)
      by (rewrite Hrun; reflexivity).
    cbn [completion final emitted]. split; [exact IHc|].
    rewrite IHe. rewrite Hrun. reflexivity.
Qed.

Lemma timeline64_length s clock rate parts :
  List.length (timeline64 s clock rate parts) = List.length parts.
Proof.
  revert s clock. induction parts as [|p rest IH]; intros; simpl; auto.
Qed.

(** The [k]-th chunk of a timeline starts no earlier than the sum of the
    quotients before it, accumulated in binary64 from any number that the
    clock has reached. *)
Lemma timeline64_nth (rate : Q) (parts : list Part) :
  0 < rate ->
  Forall audible64 parts ->
  forall s clock acc k p,
    0 <= acc -> acc <= clock ->
    nth_error parts k = Some p ->
    exists t,
      nth_error (timeline64 s clock rate parts) k
        = Some (SourceStart (k + s)%nat t rate (duration p)) /\
      fold_left (fun a d => rnd64 (a + rnd64 (d / rate)))
        (map duration (firstn k parts)) acc <= t.
Proof.
  intros Hr. induction 1 as [|q rest [_ [Hq _]] _ IH];
    intros s clock acc k p Ha Hc Hk.
  - destruct k; discriminate.
  - destruct k as [|k]; simpl in Hk.
    + inversion Hk; subst. exists (Qmax clock (currentTime p)). split.
      * reflexivity.
      * simpl. pose proof (Q.le_max_l clock (currentTime p)). lra.
    + assert (Hx : 0 <= rnd64 (duration q / rate))
        by (apply rnd64_nonneg, Qdiv_nonneg; assumption).
      pose proof (Q.le_max_l clock (currentTime q)) as Hm.
      destruct (IH (S s)
                  (rnd64 (Qmax clock (currentTime q)
                          + rnd64 (duration q / rate)))
                  (rnd64 (acc + rnd64 (duration q / rate))) k p)
        as [t [Ht Hle]].
      * apply rnd64_nonneg. lra.
      * apply rnd64_le; lra.
      * exact Hk.
      * exists t. split.
        -- simpl. rewrite Ht. do 3 f_equal. lia.
        -- simpl. exact Hle.
Qed.

Lemma timeline64_after_clock (rate : Q) (parts : list Part) :
  0 < rate ->
  Forall audible64 parts ->
  forall s clock k s' t r d,
    binary64 clock ->
    nth_error (timeline64 s clock rate parts) k = Some (SourceStart s' t r d) ->
    clock <= t.
Proof.
  intros Hr. induction 1 as [|q rest [_ [Hq Hnow]] _ IH];
    intros s clock k s' t r d Hc Hk.
  - destruct k; discriminate.
  - pose proof (Q.le_max_l clock (currentTime q)) as Hm.
    destruct k as [|k]; simpl in Hk.
    + inversion Hk; subst. exact Hm.
    + destruct (clock64_step (binary64_max Hc Hnow) Hq Hr) as [Hb Hle].
      apply (IH _ _ _ _ _ _ _ Hb) in Hk. lra.
Qed.

Lemma timeline64_disjoint (rate : Q) (parts : list Part) :
  0 < rate ->
  Forall audible64 parts ->
  forall s clock i j si ti ri di sj tj rj dj,
    binary64 clock ->
    (i < j)%nat ->
    nth_error (timeline64 s clock rate parts) i = Some (SourceStart si ti ri di) ->
    nth_error (timeline64 s clock rate parts) j = Some (SourceStart sj tj rj dj) ->
    ti <= rnd64 (ti + rnd64 (di / ri)) /\
    rnd64 (ti + rnd64 (di / ri)) <= tj.
Proof.
  intros Hr Hall. pose proof Hall as Hall'.
  induction Hall as [|q rest [Hd [Hq Hnow]] Hrest IH];
    intros s clock i j si ti ri di sj tj rj dj Hc Hij Hi Hj.
  - destruct i; discriminate.
  - inversion Hall' as [|? ? _ Hrest']; subst.
    destruct (clock64_step (binary64_max Hc Hnow) Hq Hr) as [Hb Hle].
    destruct j as [|j]; [lia|]. simpl in Hj.
    destruct i as [|i]; simpl in Hi.
    + inversion Hi; subst. split; [exact Hle|].
      eapply timeline64_after_clock; [exact Hr|exact Hrest|exact Hb|exact Hj].
    + eapply (IH Hrest'); [exact Hb| |exact Hi|exact Hj]. lia.
Qed.

(** C2, as the code has it.  Chunks scheduled one after the other at a fixed
    positive rate, with no interrupt in between, from a clock that is not
    negative, the numbers being binary64 numbers and the clock staying
    finite.  The [k]-th chunk starts no earlier than the sum of the
    quotients [d / rate] of the chunks before it as binary64 accumulates it
    (each quotient rounded, each partial sum rounded).  A chunk starts no
    earlier than the end that the scheduler has computed for any chunk
    before it, which is that chunk's start plus its duration over the rate
    in binary64, and this end is not before that chunk's start. *)
Theorem schedule64_sequence_in_order (parts : list Part) (w : State) :
  playing w ->
  0 < speed (currentAudioSettings w) ->
  binary64 (nextStartTime w) ->
  Forall audible64 parts ->
  nextStartTime (final (forOf schedule64 parts w)) < 2 ^ 1024 ->
  let rate := speed (currentAudioSettings w) in
  let run := forOf schedule64 parts w in
  completion run = Normal tt /\
  List.length (emitted run) = List.length parts /\
  (forall k p, nth_error parts k = Some p ->
     exists s t,
       nth_error (emitted run) k = Some (SourceStart s t rate (duration p)) /\
       sum64 rate (map duration (firstn k parts)) <= t) /\
  (forall i j si ti ri di sj tj rj dj,
     (i < j)%nat ->
     nth_error (emitted run) i = Some (SourceStart si ti ri di) ->
     nth_error (emitted run) j = Some (SourceStart sj tj rj dj) ->
     ti <= rnd64 (ti + rnd64 (di / ri)) /\
     rnd64 (ti + rnd64 (di / ri)) <= tj).
Proof.
  intros Hp Hr Hc Hall _. cbv zeta.
  assert (Ht : Forall (fun p => truthy (inlineData p) = true) parts)
    by (eapply Forall_impl; [|exact Hall]; intros a [H _]; exact H).
  destruct (forOf_schedule64_timeline Hp Ht) as [Hn He].
  rewrite He. split; [exact Hn|]. split; [apply timeline64_length|]. split.
  - intros k p Hk.
    destruct (@timeline64_nth (speed (currentAudioSettings w)) parts Hr Hall
                (fresh w) (nextStartTime w) 0 k p (Qle_refl 0)
                (proj1 Hc) Hk) as [t [Hev Hle]].
    exists (k + fresh w)%nat, t. split; [exact Hev|exact Hle].
  - intros i j si ti ri di sj tj rj dj Hij Hi Hj.
    eapply timeline64_disjoint; [exact Hr|exact Hall|exact Hc|exact Hij| |];
      eassumption.
Qed.

(** C2, as the spec has it, fails in binary64.  Chunks of 0.1 s, 0.7 s and
    0.1 s are scheduled at time 0 and at rate 1 from a clock at 0.  The
    third starts where binary64 puts 0.1 + 0.7: below the exact sum of the
    two durations over the rate, and below the exact end of the second
    chunk.  The numbers are those of the platform. *)
Lemma rounded_sum_starts_third_chunk_early :
  let d1 := rnd64 (1 # 10) in
  let d2 := rnd64 (7 # 10) in
  exists t2 t3,
    startTimes (emitted (forOf schedule64 tenths connected)) = [0; t2; t3] /\
    agrees Float64.tenth d1 /\
    agrees Float64.seventTenths d2 /\
    agrees Float64.clockAfterTwo t3 /\
    t3 < (d1 + d2) / 1 /\
    t3 < t2 + d2 / 1.
Proof.
  cbv zeta. eexists. eexists.
  split; [vm_compute; reflexivity|].
  repeat split; vm_compute; reflexivity.
Qed.

(** ** Interruption *)

Lemma try_sourceStop_run (env : Env) (s : Handle) (w : State) :
  try_catch (sourceStop env s) w =
    {| completion := Normal tt; final := w; emitted := [SourceStop s] |}.
Proof.
  unfold try_catch, sourceStop, bind, emit. simpl.
  destruct (sourceStopThrows env s); reflexivity.
Qed.

Lemma forOf_sourceStop_run (env : Env) (l : list Handle) (w : State) :
  forOf (fun s => try_catch (sourceStop env s)) l w =
    {| completion := Normal tt; final := w; emitted := map SourceStop l |}.
Proof.
  induction l as [|s l IH]; [reflexivity|].
  simpl. unfold bind. rewrite try_sourceStop_run. simpl. rewrite IH.
  reflexivity.
Qed.

Lemma stopAudio_run (env : Env) (w : State) :
  stopAudio env w =
    {| completion := Normal tt;
       final := set_nextStartTime 0 (set_activeSources [] w);
       emitted := map SourceStop (activeSources w) |}.
Proof.
  unfold stopAudio, bind, get. simpl. rewrite forOf_sourceStop_run. simpl.
  rewrite app_nil_r. reflexivity.
Qed.

(** C3, as the code has it.  In every state, [stopAudio] calls [stop] on
    every source of [activeSources] (a failing [stop] is swallowed), leaves
    the set empty and puts the clock back to 0; a second call finds nothing
    to stop and changes nothing; the inbound [interrupted] signal runs
    exactly this. *)
Theorem stopAudio_clears_and_rewinds (env : Env) (w : State) :
  let run := stopAudio env w in
  completion run = Normal tt /\
  emitted run = map SourceStop (activeSources w) /\
  activeSources (final run) = [] /\
  nextStartTime (final run) = 0 /\
  stopAudio env (final run) =
    {| completion := Normal tt; final := final run; emitted := [] |} /\
  (forall c, interrupted c = true -> onInterrupted env (Some c) w = run).
Proof.
  cbv zeta. rewrite !stopAudio_run. simpl. repeat split.
  intros c Hc. unfold onInterrupted. rewrite Hc. apply stopAudio_run.
Qed.

(** C3, as the spec has it, fails: an interrupt at time 3 in a session whose
    clock was at 5 leaves the clock at 0, not at 3. *)
Lemma stopAudio_clock_is_not_call_time :
  ~ clockResetTo calm 3 busy /\
  nextStartTime (final (stopAudio calm busy)) == 0.
Proof.
  unfold clockResetTo. rewrite stopAudio_run. simpl. split.
  - intros H. discriminate H.
  - reflexivity.
Qed.

(** After [stopAudio] the next chunk starts when it is scheduled: the clock
    at 0 never exceeds the time of the audio context. *)
Lemma schedule_after_stopAudio_starts_now (env : Env) (p : Part) (w : State) :
  playing w -> truthy (inlineData p) = true ->
  0 <= currentTime p ->
  exists t,
    startTimes (emitted (schedule p (final (stopAudio env w)))) = [t] /\
    t == currentTime p.
Proof.
  intros [Hc Hn] Ht Hnow. rewrite stopAudio_run. cbn [final].
  rewrite schedule_playing by (try split; assumption).
  simpl. eexists. split; [reflexivity|]. apply Q.max_r. exact Hnow.
Qed.

(** ** The three-chunk scenario *)

(** C6, as the code has it.  From a clock at 0 and at rate 1, chunks of 1 s,
    0.5 s and 2 s that arrive at 0 s, 0.3 s and 2 s start at 0, 1 and 2: the
    third arrives after the clock (1.5) and starts on arrival. *)
Theorem threeChunks_start_times (env : Env) (w : State) :
  playing w ->
  nextStartTime w = 0 ->
  speed (currentAudioSettings w) = 1 ->
  Forall2 Qeq (startTimes (emitted (deliver env threeChunks w))) [0; 1; 2].
Proof.
  intros [Hc Hn] Ht Hs. destruct w as [c n t l [v s] o i f]. simpl in *.
  subst. destruct c; [|congruence]. destruct n; [|congruence].
  vm_compute. repeat constructor.
Qed.

(** C6, as the spec has it, fails: the third start time is 2, not 1.5. *)
Lemma threeChunks_third_start_is_not_1_5 :
  ~ Forall2 Qeq (startTimes (emitted (deliver calm threeChunks connected)))
      [0; 1; 3 # 2].
Proof.
  assert (E : startTimes (emitted (deliver calm threeChunks connected))
              = [0; 1; 2]) by (vm_compute; reflexivity).
  rewrite E. intros H.
  inversion H as [|? ? ? ? _ H1]; subst.
  inversion H1 as [|? ? ? ? _ H2]; subst.
  inversion H2 as [|? ? ? ? H3 _]; subst.
  discriminate H3.
Qed.

(** ** The tool-call loop *)

Lemma forOf_emit_run (evs : list Event) (w : State) :
  forOf emit evs w = {| completion := Normal tt; final := w; emitted := evs |}.
Proof.
  induction evs as [|e evs IH]; [reflexivity|].
  simpl forOf. unfold bind. unfold emit at 1. rewrite IH. reflexivity.
Qed.

Lemma dispatch_settled (env : Env) (queued : list Event) (fc : FunctionCall)
      (r : JSValue) w :
  settles env fc r ->
  dispatch env queued fc w =
    {| completion := Normal [response (fc, r)]; final := w;
       emitted := invocation fc :: queued |}.
Proof.
  unfold settles, dispatch. intros H. unfold bind at 1. unfold emit at 1.
  unfold bind at 1. rewrite forOf_emit_run. unfold bind. rewrite H. simpl.
  rewrite app_nil_r. reflexivity.
Qed.

Lemma dispatch_rejected (env : Env) (queued : list Event) (fc : FunctionCall)
      w :
  answered env fc = false ->
  exists e,
    dispatch env queued fc w =
      {| completion := Throw e; final := w;
         emitted := invocation fc :: queued |}.
Proof.
  unfold answered, dispatch. intros H. unfold bind at 1. unfold emit at 1.
  unfold bind at 1. rewrite forOf_emit_run. unfold bind.
  destruct (onToolCall env (fc_name fc) (fc_args fc)) as [r|e].
  - discriminate.
  - exists e. simpl. rewrite app_nil_r. reflexivity.
Qed.

Lemma responsesOf_app (a b : list Event) :
  responsesOf (a ++ b) = responsesOf a ++ responsesOf b.
Proof. apply flat_map_app. Qed.

Lemma slice_last_1_cons {A : Type} (x y : A) (l : list A) :
  slice_last 1 (x :: y :: l) = slice_last 1 (y :: l).
Proof. unfold slice_last. simpl. rewrite Nat.sub_0_r. reflexivity. Qed.

(** The loop over the calls of a message, from any queue: the calls before
    the first one that the handler rejects are answered, the response to
    each is sent after the invocation of the next call, and the response to
    the last call is left in the queue. *)
Lemma foldOf_dispatch_run (env : Env) (pre rest : list FunctionCall)
      (results : list JSValue) :
  Forall2 (settles env) pre results ->
  stalls env rest ->
  forall queued w,
    let run := foldOf (dispatch env) queued (pre ++ rest) w in
    emitted run =
      match pre ++ firstn 1 rest with
      | [] => []
      | fc :: next =>
          invocation fc :: queued
          ++ flat_map handover (combine (combine pre results) next)
      end /\
    final run = w /\
    (rest = [] ->
       completion run =
         Normal match combine pre results with
                | [] => queued
                | l => map response (slice_last 1 l)
                end) /\
    (rest <> [] -> exists e, completion run = Throw e) /\
    responsesOf (emitted run ++ pending run)
    = responsesOf queued ++ map responseTo (combine pre results).
Proof.
  intros Hpre Hrest.
  induction Hpre as [|fc r pre results Hs Hpre IH]; intros queued w; cbv zeta.
  - destruct rest as [|fc post].
    + simpl. unfold pending. simpl. rewrite app_nil_r.
      repeat apply conj; auto. congruence.
    + simpl in Hrest.
      destruct (dispatch_rejected env queued fc w Hrest) as [e He].
      simpl app. simpl foldOf. unfold bind. rewrite He.
      unfold pending. simpl. rewrite !app_nil_r. repeat apply conj; auto.
      * discriminate.
      * intros _. exists e. reflexivity.
  - destruct (IH [response (fc, r)] w) as [He [Hf [Hn [Ht Hr]]]].
    change ((fc :: pre) ++ firstn 1 rest) with (fc :: (pre ++ firstn 1 rest)).
    set (invoked := pre ++ firstn 1 rest) in *.
    simpl app. simpl foldOf.
    rewrite (@run_bind_normal _ _ (dispatch env queued fc) _ w
               [response (fc, r)])
      by (rewrite (dispatch_settled queued w Hs); reflexivity).
    rewrite (dispatch_settled queued w Hs). cbn [completion final emitted].
    unfold pending in *. cbn [completion final emitted].
    repeat apply conj.
    + rewrite He. clear.
      destruct invoked as [|next more]; simpl.
      * rewrite app_nil_r. reflexivity.
      * reflexivity.
    + exact Hf.
    + intros Hnil. rewrite (Hn Hnil). simpl combine.
      destruct (combine pre results) as [|x l]; [reflexivity|].
      rewrite slice_last_1_cons. reflexivity.
    + exact Ht.
    + rewrite <- app_assoc, responsesOf_app, Hr. reflexivity.
Qed.

(** C9, as the code has it.  The calls of one message are served in the
    order of the message, stopping at the first call that the handler
    rejects, and the handler of a call is invoked only when the handler of
    the call before it has answered.  The response to a call is registered
    at that moment and sent later: after the invocation of the next call,
    and before the one after it; the response to the last call is left to
    be sent when [onmessage] next gives way.  The responses go out in the
    order of the requests, one for each call answered, also when the loop
    is left by a rejection. *)
Theorem dispatch_loop_defers_responses
        (env : Env) (pre rest : list FunctionCall)
        (results : list JSValue) (w : State) :
  Forall2 (settles env) pre results ->
  stalls env rest ->
  let invoked := pre ++ firstn 1 rest in
  let run := foldOf (dispatch env) [] (pre ++ rest) w in
  emitted run =
    map invocation (firstn 1 invoked)
    ++ flat_map handover (combine (combine pre results) (tl invoked)) /\
  (rest = [] ->
     completion run
     = Normal (map response (slice_last 1 (combine pre results)))) /\
  (rest <> [] -> exists e, completion run = Throw e) /\
  responseIds (emitted run ++ pending run) = map fc_id pre.
Proof.
  intros Hpre Hrest. cbv zeta.
  destruct (@foldOf_dispatch_run env pre rest results Hpre Hrest [] w)
    as [He [_ [Hn [Ht Hr]]]].
  repeat apply conj.
  - rewrite He. clear.
    destruct (pre ++ firstn 1 rest) as [|fc next]; [|reflexivity].
    simpl. destruct (combine pre results); reflexivity.
  - intros Hnil. rewrite (Hn Hnil).
    destruct (combine pre results); reflexivity.
  - exact Ht.
  - unfold responseIds. rewrite Hr. simpl. clear - Hpre.
    induction Hpre as [|fc r pre results _ _ IH]; [reflexivity|].
    simpl. f_equal. exact IH.
Qed.

(** C9, as the spec has it, fails: of two calls that the handler answers,
    the handler is invoked for the second before the response to the first
    is sent. *)
Lemma second_call_invoked_before_first_response :
  emitted (onmessage calm
             (toolMessage [call "a" "set_volume"; call "b" "clear_chat"])
             connected)
  = [ToolCallInvoked "set_volume" "{}";
     ToolCallInvoked "clear_chat" "{}";
     ToolResponse "a" "set_volume" "Tool executed.";
     ToolResponse "b" "clear_chat" "Tool executed."]%string /\
  ~ respondedBefore (call "a" "set_volume") (call "b" "clear_chat")
      (emitted (onmessage calm
                  (toolMessage [call "a" "set_volume"; call "b" "clear_chat"])
                  connected)).
Proof.
  split; [vm_compute; reflexivity|].
  intros [before [after [result [He Hin]]]].
  vm_compute in He.
  destruct before as [|e0 [|e1 [|e2 [|e3 before]]]];
    simpl in He, Hin; inversion He; subst; simpl in Hin;
    try (destruct before; discriminate); intuition discriminate.
Qed.

(** ** One message *)

Lemma append_nil_r (s : string) : (s ++ "")%string = s.
Proof. induction s as [|a s IH]; simpl; [reflexivity|]. rewrite IH. reflexivity. Qed.

Lemma append_assoc (a b c : string) :
  ((a ++ b) ++ c)%string = (a ++ (b ++ c))%string.
Proof. induction a as [|x a IH]; simpl; [reflexivity|]. rewrite IH. reflexivity. Qed.

Lemma flat_map_silent {B : Type} (f : Event -> list B) (P : Event -> bool)
      (evs : list Event) :
  (forall e, P e = true -> f e = []) ->
  forallb P evs = true ->
  flat_map f evs = [].
Proof.
  intros Hf. induction evs as [|e evs IH]; simpl; [reflexivity|].
  intros H. apply andb_true_iff in H. destruct H as [He Hevs].
  rewrite (Hf e He), (IH Hevs). reflexivity.
Qed.

Ltac silent P :=
  apply (@flat_map_silent _ _ P);
  [intros []; simpl; intros; (reflexivity || discriminate)|assumption].

Lemma audio_textQuiet (w : State) (r : Run unit) :
  completion r = Normal tt ->
  currentOutputTranscription (final r) = currentOutputTranscription w ->
  currentInputTranscription (final r) = currentInputTranscription w ->
  forallb audioEvent (emitted r) = true ->
  textQuiet w r.
Proof.
  intros Hc Ho Hi Ha. unfold textQuiet. repeat split; try assumption.
  - unfold turnsOf. silent audioEvent.
  - unfold transcriptionsOf. silent audioEvent.
  - unfold responsesOf. silent audioEvent.
Qed.

Lemma schedule_frame (p : Part) (w : State) :
  let r := schedule p w in
  completion r = Normal tt /\
  currentOutputTranscription (final r) = currentOutputTranscription w /\
  currentInputTranscription (final r) = currentInputTranscription w /\
  forallb audioEvent (emitted r) = true.
Proof.
  unfold schedule, bind, get. simpl.
  destruct (truthy (inlineData p)), (audioContext w), (outputNode w);
    simpl; auto.
Qed.

Lemma forOf_schedule_frame (parts : list Part) :
  forall w,
    let r := forOf schedule parts w in
    completion r = Normal tt /\
    currentOutputTranscription (final r) = currentOutputTranscription w /\
    currentInputTranscription (final r) = currentInputTranscription w /\
    forallb audioEvent (emitted r) = true.
Proof.
  induction parts as [|p rest IH]; intros w; cbv zeta.
  - simpl. auto.
  - destruct (schedule_frame p w) as [Hc [Ho [Hi Ha]]].
    destruct (IH (final (schedule p w))) as [IHc [IHo [IHi IHa]]].
    simpl forOf. rewrite (run_bind_normal _ _ w Hc).
    cbn [completion final emitted].
    rewrite forallb_app, Ha, IHa, IHo, IHi, Ho, Hi. auto.
Qed.

Lemma onInterrupted_frame (env : Env) (sc : option ServerContent) (w : State) :
  textQuiet w (onInterrupted env sc w).
Proof.
  apply audio_textQuiet; unfold onInterrupted;
    destruct sc as [c|]; try reflexivity;
    destruct (interrupted c); try reflexivity;
    rewrite stopAudio_run; try reflexivity.
  simpl. induction (activeSources w); simpl; auto.
Qed.

Lemma accumulate_run (sc : option ServerContent) (w : State) :
  let r := accumulate sc w in
  completion r = Normal tt /\
  currentOutputTranscription (final r)
    = (currentOutputTranscription w ++ outText sc)%string /\
  currentInputTranscription (final r)
    = (currentInputTranscription w ++ inText sc)%string /\
  turnsOf (emitted r) = [] /\
  transcriptionsOf (emitted r) = transcribed sc w /\
  responsesOf (emitted r) = [].
Proof.
  unfold accumulate, outText, inText, transcribed.
  destruct sc as [c|]; simpl.
  - destruct (outputTranscription c) as [o|], (inputTranscription c) as [i|];
      simpl; rewrite ?append_nil_r; auto 10.
  - rewrite !append_nil_r. auto 10.
Qed.

Lemma completeTurn_run (sc : option ServerContent) (w : State) :
  let r := completeTurn sc w in
  let done := match sc with Some c => turnComplete c | None => false end in
  completion r = Normal tt /\
  currentOutputTranscription (final r)
    = (if done then ""%string else currentOutputTranscription w) /\
  currentInputTranscription (final r)
    = (if done then ""%string else currentInputTranscription w) /\
  turnsOf (emitted r)
    = (if done
       then [(currentInputTranscription w, currentOutputTranscription w)]
       else []) /\
  transcriptionsOf (emitted r) = [] /\
  responsesOf (emitted r) = [].
Proof.
  unfold completeTurn. destruct sc as [c|]; simpl.
  - destruct (turnComplete c); simpl; auto 10.
  - auto 10.
Qed.

(** The content part of [onmessage]: it always completes; the transcripts
    grow by the fragments of the message and are emptied after the call of
    [onTurnComplete] when the message carries the signal. *)
Lemma content_run (env : Env) (m : LiveServerMessage) (w : State) :
  let r := content env m w in
  let out := (currentOutputTranscription w ++ outFragment m)%string in
  let inp := (currentInputTranscription w ++ inFragment m)%string in
  completion r = Normal tt /\
  currentOutputTranscription (final r)
    = (if completes m then ""%string else out) /\
  currentInputTranscription (final r)
    = (if completes m then ""%string else inp) /\
  turnsOf (emitted r) = (if completes m then [(inp, out)] else []) /\
  transcriptionsOf (emitted r) = transcribed (serverContent m) w /\
  responsesOf (emitted r) = [].
Proof.
  cbv zeta. unfold content, outFragment, inFragment, completes.
  set (sc := serverContent m).
  destruct (forOf_schedule_frame (partsOf m) w) as [C1 [O1 [I1 A1]]].
  destruct (audio_textQuiet w _ C1 O1 I1 A1) as [_ [_ [_ [T1 [S1 R1]]]]].
  set (w1 := final (forOf schedule (partsOf m) w)) in *.
  destruct (accumulate_run sc w1) as [C2 [O2 [I2 [T2 [S2 R2]]]]].
  set (w2 := final (accumulate sc w1)) in *.
  destruct (completeTurn_run sc w2) as [C3 [O3 [I3 [T3 [S3 R3]]]]].
  set (w3 := final (completeTurn sc w2)) in *.
  destruct (onInterrupted_frame env sc w3) as [C4 [O4 [I4 [T4 [S4 R4]]]]].
  rewrite (run_bind_normal _ _ w C1). cbn [completion final emitted].
  fold w1. rewrite (run_bind_normal _ _ w1 C2). cbn [completion final emitted].
  fold w2. rewrite (run_bind_normal _ _ w2 C3). cbn [completion final emitted].
  fold w3.
  unfold turnsOf, transcriptionsOf, responsesOf in *.
  rewrite !flat_map_app.
  rewrite T1, T2, T3, T4, S1, S2, S3, S4, R1, R2, R3, R4, O4, I4, O3, I3.
  rewrite O2, I2, O1, I1, C4. simpl. rewrite !app_nil_r.
  assert (St : transcribed sc w1 = transcribed sc w).
  { unfold transcribed. rewrite O1, I1. reflexivity. }
  rewrite St. auto 10.
Qed.

Lemma foldOf_dispatch_frame (env : Env) (calls : list FunctionCall) :
  forall queued w,
    forallb toolEvent queued = true ->
    let r := foldOf (dispatch env) queued calls w in
    final r = w /\
    forallb toolEvent (emitted r) = true /\
    forallb toolEvent (pending r) = true /\
    (forallb (answered env) calls = true ->
       exists q, completion r = Normal q) /\
    (forallb (answered env) calls = false ->
       exists e, completion r = Throw e).
Proof.
  induction calls as [|fc calls IH]; intros queued w Hq; cbv zeta.
  - unfold pending. simpl. repeat apply conj; auto.
    + intros _. exists queued. reflexivity.
    + discriminate.
  - simpl foldOf. simpl forallb.
    destruct (onToolCall env (fc_name fc) (fc_args fc)) as [r|e] eqn:E.
    + assert (Ha : answered env fc = true)
        by (unfold answered; rewrite E; reflexivity).
      rewrite Ha. simpl andb.
      rewrite (@run_bind_normal _ _ (dispatch env queued fc) _ w
                 [response (fc, r)])
        by (rewrite (@dispatch_settled env queued fc r w E); reflexivity).
      rewrite (@dispatch_settled env queued fc r w E).
      unfold pending. cbn [completion final emitted].
      destruct (IH [response (fc, r)] w eq_refl) as [If [It [Ip [Ia In']]]].
      unfold pending in Ip. simpl forallb. rewrite forallb_app, Hq, It.
      repeat apply conj; auto.
    + assert (Ha : answered env fc = false)
        by (unfold answered; rewrite E; reflexivity).
      rewrite Ha. destruct (dispatch_rejected env queued fc w Ha) as [e' He].
      rewrite (@run_bind_throw _ _ (dispatch env queued fc) _ w e')
        by (rewrite He; reflexivity).
      rewrite He. unfold pending. simpl. rewrite Hq.
      repeat apply conj; auto; try discriminate.
      intros _. exists e'. reflexivity.
Qed.

Lemma tools_frame (env : Env) (m : LiveServerMessage) (w : State) :
  let r := tools env m w in
  final r = w /\
  forallb toolEvent (emitted r) = true /\
  forallb toolEvent (pending r) = true /\
  (reaches env m = true -> exists q, completion r = Normal q) /\
  (reaches env m = false -> exists e, completion r = Throw e).
Proof.
  unfold tools, reaches. destruct (toolCall m) as [calls|].
  - apply foldOf_dispatch_frame. reflexivity.
  - unfold pending. simpl. repeat apply conj; auto.
    + intros _. exists []. reflexivity.
    + discriminate.
Qed.

(** A message whose handlers all answer, block by block: the tool calls;
    the response left in the queue, if [onmessage] gives way at a part; the
    content; the response left in the queue, if it did not. *)
Lemma onmessage_run (env : Env) (m : LiveServerMessage) (w : State) :
  reaches env m = true ->
  let early := awaited (partsOf m) w in
  let queued := pending (tools env m w) in
  completion (onmessage env m w) = Normal tt /\
  final (onmessage env m w) = final (content env m w) /\
  emitted (onmessage env m w)
  = emitted (tools env m w) ++ (if early then queued else [])
    ++ emitted (content env m w) ++ (if early then [] else queued).
Proof.
  intros Hr. cbv zeta.
  destruct (tools_frame env m w) as [Hf [_ [_ [Hc _]]]].
  destruct (Hc Hr) as [q Hq].
  destruct (content_run env m w) as [C _].
  unfold onmessage, pending. rewrite Hq.
  rewrite (run_bind_normal _ _ w Hq). cbn [completion final emitted].
  rewrite Hf.
  rewrite (@run_bind_normal _ _ (get (awaited (partsOf m))) _ w
             (awaited (partsOf m) w)) by reflexivity.
  cbn [get completion final emitted]. simpl app.
  destruct (awaited (partsOf m) w).
  - rewrite (@run_bind_normal _ _ (forOf emit q) _ w tt)
      by (rewrite forOf_emit_run; reflexivity).
    rewrite forOf_emit_run. cbn [completion final emitted].
    rewrite (run_bind_normal _ _ w C). cbn [completion final emitted].
    unfold ret. cbn [completion final emitted].
    rewrite !app_nil_r. auto.
  - rewrite (@run_bind_normal _ _ (ret tt) _ w tt) by reflexivity.
    change (final (ret tt w)) with w.
    change (emitted (ret tt w)) with (@nil Event).
    cbn [completion final emitted].
    rewrite (run_bind_normal _ _ w C). cbn [completion final emitted].
    rewrite forOf_emit_run. cbn [completion final emitted]. auto.
Qed.

Lemma toolEvents_silent (evs : list Event) :
  forallb toolEvent evs = true ->
  turnsOf evs = [] /\ transcriptionsOf evs = [] /\
  filter audioEvent evs = [].
Proof.
  intros H. repeat apply conj.
  - unfold turnsOf. silent toolEvent.
  - unfold transcriptionsOf. silent toolEvent.
  - induction evs as [|e evs IH]; [reflexivity|].
    simpl in H. apply andb_true_iff in H. destruct H as [He Hevs].
    simpl. destruct e; simpl in *; try discriminate; apply IH; exact Hevs.
Qed.

Lemma turnsOf_app (a b : list Event) :
  turnsOf (a ++ b) = turnsOf a ++ turnsOf b.
Proof. apply flat_map_app. Qed.

Lemma transcriptionsOf_app (a b : list Event) :
  transcriptionsOf (a ++ b) = transcriptionsOf a ++ transcriptionsOf b.
Proof. apply flat_map_app. Qed.

(** A message whose handlers all answer. *)
Lemma onmessage_reached (env : Env) (m : LiveServerMessage) (w : State) :
  reaches env m = true ->
  let r := onmessage env m w in
  let out := (currentOutputTranscription w ++ outFragment m)%string in
  let inp := (currentInputTranscription w ++ inFragment m)%string in
  completion r = Normal tt /\
  currentOutputTranscription (final r)
    = (if completes m then ""%string else out) /\
  currentInputTranscription (final r)
    = (if completes m then ""%string else inp) /\
  turnsOf (emitted r) = (if completes m then [(inp, out)] else []) /\
  transcriptionsOf (emitted r) = transcribed (serverContent m) w /\
  responsesOf (emitted r)
  = responsesOf (emitted (tools env m w) ++ pending (tools env m w)).
Proof.
  intros Hr. cbv zeta.
  destruct (onmessage_run env m w Hr) as [Hc [Hf He]].
  destruct (tools_frame env m w) as [_ [Ht [Hp _]]].
  destruct (content_run env m w) as [C [O [I [T [S R]]]]].
  destruct (toolEvents_silent _ Ht) as [T0 [S0 _]].
  destruct (toolEvents_silent _ Hp) as [T1 [S1 _]].
  rewrite Hc, Hf, He, O, I.
  rewrite !turnsOf_app, !transcriptionsOf_app, !responsesOf_app.
  rewrite T0, S0, T, S, R.
  destruct (awaited (partsOf m) w); simpl;
    rewrite ?T1, ?S1, ?app_nil_r; auto 10.
Qed.

(** A message one of whose handlers rejects: [onmessage] is left at the
    tool calls and nothing of the content is looked at. *)
Lemma onmessage_unreached (env : Env) (m : LiveServerMessage) (w : State) :
  reaches env m = false ->
  let r := onmessage env m w in
  (exists e, completion r = Throw e) /\
  final r = w /\
  emitted r = emitted (tools env m w) /\
  pending (tools env m w) = [].
Proof.
  intros Hr. cbv zeta.
  destruct (tools_frame env m w) as [Hf [_ [_ [_ Hc]]]].
  destruct (Hc Hr) as [e He].
  unfold onmessage, pending. rewrite He.
  rewrite (run_bind_throw _ _ w He). cbn [completion final emitted].
  split; [exists e; reflexivity|]. auto.
Qed.

Lemma settled_answered (env : Env) (calls : list FunctionCall)
      (results : list JSValue) :
  Forall2 (settles env) calls results ->
  forallb (answered env) calls = true.
Proof.
  induction 1 as [|fc r calls results Hs _ IH]; [reflexivity|].
  simpl. unfold answered at 1. unfold settles in Hs. rewrite Hs. exact IH.
Qed.

Lemma onmessage_responsesOf (env : Env) (m : LiveServerMessage) (w : State) :
  responsesOf (emitted (onmessage env m w))
  = responsesOf (emitted (tools env m w) ++ pending (tools env m w)).
Proof.
  destruct (reaches env m) eqn:Hr.
  - apply (onmessage_reached env m w Hr).
  - destruct (onmessage_unreached env m w Hr) as [_ [_ [He Hp]]].
    rewrite He, Hp, app_nil_r. reflexivity.
Qed.

(** C4, as the code has it.  The calls of a message that come before the
    first call rejected by the handler get exactly one response each, with
    the id and the name of the call and the result of the handler, in the
    order of the calls; the rejected call and the calls after it get none,
    and a message without a rejected call is handled to its end. *)
Theorem onmessage_responds_to_answered_calls
        (env : Env) (m : LiveServerMessage) (pre rest : list FunctionCall)
        (results : list JSValue) (w : State) :
  toolCall m = Some (pre ++ rest) ->
  Forall2 (settles env) pre results ->
  stalls env rest ->
  let run := onmessage env m w in
  responsesOf (emitted run) = map responseTo (combine pre results) /\
  (rest = [] -> completion run = Normal tt) /\
  (rest <> [] -> exists e, completion run = Throw e).
Proof.
  intros Hm Hpre Hrest. cbv zeta.
  destruct (@foldOf_dispatch_run env pre rest results Hpre Hrest [] w)
    as [_ [_ [_ [_ Hr]]]].
  assert (Htools : tools env m = foldOf (dispatch env) [] (pre ++ rest))
    by (unfold tools; rewrite Hm; reflexivity).
  split; [|split].
  - rewrite onmessage_responsesOf, Htools, Hr. reflexivity.
  - intros Hnil. apply onmessage_reached. unfold reaches. rewrite Hm.
    subst rest. rewrite app_nil_r. eapply settled_answered; eassumption.
  - intros Hcons. apply onmessage_unreached. unfold reaches. rewrite Hm.
    rewrite forallb_app. destruct rest as [|fc post]; [congruence|].
    simpl in *. rewrite Hrest. simpl. apply andb_false_r.
Qed.

(** C4, as the spec has it, fails: the handler of the application throws on
    a [draw_detection] call without a label, and no response with the id of
    that call is sent. *)
Lemma rejected_call_gets_no_response :
  ~ (exists name result,
        In ("a"%string, name, result)
           (responsesOf
              (emitted (onmessage hostile
                          (toolMessage [call "a" "draw_detection"])
                          connected)))).
Proof. intros [name [result H]]. vm_compute in H. exact H. Qed.

(** ** Transcripts *)

Lemma joined_app (a b : list string) :
  joined (a ++ b) = (joined a ++ joined b)%string.
Proof.
  induction a as [|x a IH]; simpl; [reflexivity|].
  rewrite IH, append_assoc. reflexivity.
Qed.

Lemma try_catch_run (m : Js unit) (w : State) :
  completion (try_catch m w) = Normal tt /\
  final (try_catch m w) = final (m w) /\
  emitted (try_catch m w) = emitted (m w).
Proof. unfold try_catch. destruct (m w); simpl. auto. Qed.

(** One message that does not end the turn: the transcripts grow by what
    the message appends and [onTurnComplete] is not called. *)
Lemma settle_open_turn (env : Env) (m : LiveServerMessage) (w : State) :
  observed env m = false ->
  let r := try_catch (onmessage env m) w in
  completion r = Normal tt /\
  turnsOf (emitted r) = [] /\
  currentInputTranscription (final r)
    = (currentInputTranscription w ++ appendedIn env m)%string /\
  currentOutputTranscription (final r)
    = (currentOutputTranscription w ++ appendedOut env m)%string.
Proof.
  intros Hobs. cbv zeta.
  destruct (try_catch_run (onmessage env m) w) as [Hc [Hf He]].
  rewrite Hc, Hf, He. unfold observed, appendedIn, appendedOut in *.
  destruct (reaches env m) eqn:Hr.
  - simpl in Hobs.
    destruct (onmessage_reached env m w Hr) as [_ [O [I [T _]]]].
    rewrite Hobs in *. auto.
  - destruct (onmessage_unreached env m w Hr) as [_ [Hw [Hev _]]].
    rewrite Hw, Hev, !append_nil_r. repeat split.
    destruct (tools_frame env m w) as [_ [Ht [Hq _]]].
    unfold turnsOf. silent toolEvent.
Qed.

Lemma deliver_open_turn (env : Env) (msgs : list LiveServerMessage) :
  Forall (fun x => observed env x = false) msgs ->
  forall w,
    let r := deliver env msgs w in
    completion r = Normal tt /\
    turnsOf (emitted r) = [] /\
    currentInputTranscription (final r)
      = (currentInputTranscription w
         ++ joined (map (appendedIn env) msgs))%string /\
    currentOutputTranscription (final r)
      = (currentOutputTranscription w
         ++ joined (map (appendedOut env) msgs))%string.
Proof.
  induction 1 as [|m msgs Hm _ IH]; intros w; cbv zeta.
  - simpl. rewrite !append_nil_r. auto.
  - destruct (settle_open_turn env m w Hm) as [C [T [I O]]].
    destruct (IH (final (try_catch (onmessage env m) w)))
      as [C' [T' [I' O']]].
    unfold deliver in *. simpl forOf.
    rewrite (run_bind_normal _ _ w C). cbn [completion final emitted].
    unfold turnsOf in *. rewrite flat_map_app, T, T', I', O', I, O.
    simpl. rewrite !append_assoc. auto.
Qed.

(** One turn, from empty transcripts. *)
Lemma one_turn (env : Env) (msgs : list LiveServerMessage)
      (m : LiveServerMessage) (w : State) :
  currentInputTranscription w = ""%string ->
  currentOutputTranscription w = ""%string ->
  Forall (fun x => observed env x = false) msgs ->
  observed env m = true ->
  let r := deliver env (msgs ++ [m]) w in
  completion r = Normal tt /\
  turnsOf (emitted r)
    = [(joined (map (appendedIn env) (msgs ++ [m])),
        joined (map (appendedOut env) (msgs ++ [m])))] /\
  currentInputTranscription (final r) = ""%string /\
  currentOutputTranscription (final r) = ""%string.
Proof.
  intros Hi Ho Hopen Hobs. cbv zeta.
  destruct (@deliver_open_turn env msgs Hopen w) as [C [T [I O]]].
  unfold deliver in *. rewrite (forOf_app _ _ [m] w C).
  cbn [completion final emitted].
  set (w1 := final (forOf (fun x => try_catch (onmessage env x)) msgs w)) in *.
  simpl forOf.
  destruct (try_catch_run (onmessage env m) w1) as [Hc [Hf He]].
  rewrite (run_bind_normal _ _ w1 Hc). unfold ret.
  cbn [completion final emitted]. rewrite app_nil_r, Hf, He.
  unfold observed in Hobs. apply andb_true_iff in Hobs.
  destruct Hobs as [Hr Hd].
  destruct (onmessage_reached env m w1 Hr) as [_ [O1 [I1 [T1 _]]]].
  rewrite Hd in *. unfold turnsOf in *. rewrite flat_map_app, T, T1, O1, I1.
  rewrite I, O, Hi, Ho, !map_app, !joined_app. simpl.
  unfold appendedIn, appendedOut. rewrite Hr, !append_nil_r. auto.
Qed.

(** C5.  Over the messages of any number of turns, from empty transcripts
    (session start): at each turn-complete signal observed, and only then,
    [onTurnComplete] is called, with the concatenation in arrival order of
    the input fragments and that of the output fragments appended since the
    turn-complete before it (or the start); both transcripts are empty
    after each of these calls. *)
Theorem turn_complete_hands_over_transcripts
        (env : Env) (turns : list Turn) (w : State) :
  currentInputTranscription w = ""%string ->
  currentOutputTranscription w = ""%string ->
  Forall (wellTurn env) turns ->
  let r := deliver env (flat_map messagesOf turns) w in
  completion r = Normal tt /\
  turnsOf (emitted r) = map (textsOf env) turns /\
  currentInputTranscription (final r) = ""%string /\
  currentOutputTranscription (final r) = ""%string.
Proof.
  intros Hi Ho Hall. revert w Hi Ho. cbv zeta.
  induction Hall as [|t turns [Hopen Hobs] _ IH]; intros w Hi Ho.
  - simpl. auto.
  - destruct (@one_turn env (fst t) (snd t) w Hi Ho Hopen Hobs)
      as [C [T [I O]]].
    simpl flat_map. unfold deliver in *. fold (messagesOf t) in *.
    rewrite (forOf_app _ _ _ w C). cbn [completion final emitted].
    destruct (IH _ I O) as [C' [T' [I' O']]].
    unfold turnsOf in *. rewrite flat_map_app, T, T', C', I', O'.
    auto.
Qed.

(** C10.  A message with both an output and an input fragment: when its
    handlers answer, [onTranscription] is called once, for the output
    transcript grown by the output fragment, the input transcript is left
    as it was and the input fragment is in none of the two; when a handler
    rejects, no transcript is touched. *)
Theorem both_fragments_keep_only_output
        (env : Env) (m : LiveServerMessage) (c : ServerContent)
        (o i : string) (w : State) :
  serverContent m = Some c ->
  outputTranscription c = Some o ->
  inputTranscription c = Some i ->
  let r := onmessage env m w in
  let out := (currentOutputTranscription w ++ o)%string in
  (reaches env m = true ->
     transcriptionsOf (emitted r) = [(out, false)] /\
     (turnComplete c = false ->
        currentOutputTranscription (final r) = out /\
        currentInputTranscription (final r) = currentInputTranscription w) /\
     (turnComplete c = true ->
        turnsOf (emitted r) = [(currentInputTranscription w, out)])) /\
  (reaches env m = false ->
     transcriptionsOf (emitted r) = [] /\ final r = w).
Proof.
  intros Hsc Ho Hi. cbv zeta. split; intros Hr.
  - destruct (onmessage_reached env m w Hr) as [_ [O [I [T [S _]]]]].
    unfold outFragment, inFragment, completes, outText, inText, transcribed
      in *.
    rewrite Hsc in O, I, T, S. rewrite Ho in O, I, T, S.
    rewrite append_nil_r in I, T.
    split; [exact S|]. split; intros Hd; rewrite Hd in *; auto.
  - destruct (onmessage_unreached env m w Hr) as [_ [Hw [He _]]].
    split; [|exact Hw]. rewrite He.
    destruct (tools_frame env m w) as [_ [Ht [Hq _]]].
    unfold transcriptionsOf. silent toolEvent.
Qed.

(** ** Start and stop of a session *)

Lemma forOf_trackStop_run (env : Env) (tracks : list Handle) (w : State) :
  (forall t, In t tracks -> trackStopThrows env t = false) ->
  forOf (trackStop env) tracks w =
    {| completion := Normal tt; final := w; emitted := map TrackStop tracks |}.
Proof.
  induction tracks as [|t tracks IH]; intros H; [reflexivity|].
  simpl forOf. unfold bind, trackStop at 1. unfold bind, emit. simpl.
  rewrite (H t (or_introl eq_refl)). simpl.
  rewrite IH by (intros t' Ht'; apply H; right; exact Ht'). reflexivity.
Qed.

Lemma closeContext_run (env : Env) (c : Handle) (w : State) :
  closeContext env c w =
    {| completion := Normal tt; final := w;
       emitted := [AudioContextClose c] |}.
Proof.
  unfold closeContext, try_catch, bind, emit. simpl.
  destruct (closeRejects env c); reflexivity.
Qed.

(** C7, as the code has it.  When no track throws on [stop], the [stop]
    closure stops every track of the capture stream, then closes the
    capture context, then stops every active playback source and empties
    the set, whether or not the close or a source stop fails; it makes no
    call that closes the channel. *)
Theorem stop_releases_capture_and_playback
        (env : Env) (s : Session) (w : State) :
  (forall t, In t (stream s) -> trackStopThrows env t = false) ->
  let run := stop env s w in
  completion run = Normal tt /\
  emitted run =
    map TrackStop (stream s) ++ [AudioContextClose (inputCtx s)]
    ++ map SourceStop (activeSources w) /\
  activeSources (final run) = [] /\
  (forall ch, ~ In (ChannelClose ch) (emitted run)).
Proof.
  intros Ht. cbv zeta. unfold stop, bind.
  rewrite (forOf_trackStop_run env (stream s) w Ht), closeContext_run,
    stopAudio_run. simpl. repeat split.
  intros ch Hin. apply in_app_or in Hin. destruct Hin as [Hin|[Hin|Hin]].
  - apply in_map_iff in Hin. destruct Hin as [x [Hx _]]. discriminate.
  - discriminate.
  - apply in_map_iff in Hin. destruct Hin as [x [Hx _]]. discriminate.
Qed.

(** C7, as the spec has it, fails: a session is started and stopped, and its
    channel is not closed. *)
Lemma stop_leaves_channel_open :
  exists s,
    completion (connectLive calm initial) = Normal (Some s) /\
    ~ In (ChannelClose (channel s))
         (emitted (stop calm s (final (connectLive calm initial)))).
Proof.
  eexists. split; [vm_compute; reflexivity|].
  vm_compute. intuition discriminate.
Qed.

(** C8: the code at a refused microphone.  [connectLive] reports
    [MIC_ACCESS_DENIED] and returns [null]; the capture context that it
    created before asking for the microphone is not closed. *)
Theorem connectLive_mic_denied_leaks_inputCtx
        (env : Env) (w : State) (reason : string) :
  getUserMedia env = Throw reason ->
  let run := connectLive env w in
  completion run = Normal None /\
  In (OnError "MIC_ACCESS_DENIED") (emitted run) /\
  exists input,
    In (AudioContextCreated input 16000%N) (emitted run) /\
    ~ In (AudioContextClose input) (emitted run).
Proof.
  intros Hm. cbv zeta. unfold connectLive, ensureAudioContext, bind, get.
  simpl. rewrite Hm. destruct (audioContext w) as [ctx|]; simpl.
  - repeat split; auto. exists (fresh w). split; [auto|].
    intuition discriminate.
  - repeat split; auto. exists (S (S (fresh w))). split; [auto|].
    intuition discriminate.
Qed.

(** A session that starts has empty transcripts. *)
Lemma connectLive_starts_with_empty_transcripts
      (env : Env) (w : State) (tracks : list Handle) :
  getUserMedia env = Normal tracks ->
  let run := connectLive env w in
  (exists s, completion run = Normal (Some s) /\ stream s = tracks) /\
  currentInputTranscription (final run) = ""%string /\
  currentOutputTranscription (final run) = ""%string.
Proof.
  intros Hm. cbv zeta. unfold connectLive, ensureAudioContext, bind, get.
  simpl. rewrite Hm.
  destruct (audioContext w) as [ctx|]; simpl; (split; [eexists; split; reflexivity|auto]).
Qed.

(** ** The theorems at sample inputs *)

Lemma playing_connected : playing connected.
Proof. split; discriminate. Defined.

Lemma playing_busy : playing busy.
Proof. split; discriminate. Defined.


Lemma audible_chunk_1 : audible (chunk 0 1).
Proof. split; [reflexivity|discriminate]. Defined.

Lemma audible_chunk_2 : audible (chunk (3 # 10) (1 # 2)).
Proof. split; [reflexivity|discriminate]. Defined.

Lemma schedule_sequence_gapless_at_two_chunks :
  playing connected /\
  0 < speed (currentAudioSettings connected) /\
  0 <= nextStartTime connected /\
  Forall audible [chunk 0 1; chunk (3 # 10) (1 # 2)] /\
  List.length
    (emitted (forOf schedule [chunk 0 1; chunk (3 # 10) (1 # 2)] connected))
  = 2%nat.
Proof.
  assert (Hr : 0 < speed (currentAudioSettings connected)) by reflexivity.
  assert (Hc : 0 <= nextStartTime connected) by discriminate.
  assert (Ha : Forall audible [chunk 0 1; chunk (3 # 10) (1 # 2)])
    by (apply Forall_cons;
        [exact audible_chunk_1
        |apply Forall_cons; [exact audible_chunk_2|apply Forall_nil]]).
  repeat (split; [assumption || exact playing_connected|]).
  apply (@schedule_sequence_gapless [chunk 0 1; chunk (3 # 10) (1 # 2)]
           connected playing_connected Hr Hc Ha).
Defined.

Lemma binary64_zero : binary64 0.
Proof. split; [discriminate|vm_compute; reflexivity]. Defined.

Lemma audible64_tenths : Forall audible64 tenths.
Proof.
  repeat (apply Forall_cons;
          [split; [reflexivity|split;
                     [vm_compute; discriminate|exact binary64_zero]]|]).
  apply Forall_nil.
Defined.

Lemma tenths_clock_finite :
  nextStartTime (final (forOf schedule64 tenths connected)) < 2 ^ 1024.
Proof. vm_compute. reflexivity. Defined.

Lemma schedule64_sequence_in_order_at_tenths :
  playing connected /\
  0 < speed (currentAudioSettings connected) /\
  binary64 (nextStartTime connected) /\
  Forall audible64 tenths /\
  nextStartTime (final (forOf schedule64 tenths connected)) < 2 ^ 1024 /\
  completion (forOf schedule64 tenths connected) = Normal tt /\
  List.length (emitted (forOf schedule64 tenths connected))
  = List.length tenths.
Proof.
  assert (Hr : 0 < speed (currentAudioSettings connected)) by reflexivity.
  split; [exact playing_connected|]. split; [exact Hr|].
  split; [exact binary64_zero|]. split; [exact audible64_tenths|].
  split; [exact tenths_clock_finite|].
  destruct (@schedule64_sequence_in_order tenths connected playing_connected
              Hr binary64_zero audible64_tenths tenths_clock_finite)
    as [Hc [Hl _]].
  split; [exact Hc|exact Hl].
Defined.

Lemma stopAudio_clears_and_rewinds_at_busy :
  emitted (stopAudio hostile busy) = [SourceStop 4%nat; SourceStop 5%nat] /\
  activeSources (final (stopAudio hostile busy)) = [] /\
  nextStartTime (final (stopAudio hostile busy)) = 0.
Proof.
  destruct (stopAudio_clears_and_rewinds hostile busy) as [_ [He [Ha [Hn _]]]].
  split; [exact He|]. split; [exact Ha|exact Hn].
Defined.

Lemma threeChunks_start_times_at_connected :
  playing connected /\
  nextStartTime connected = 0 /\
  speed (currentAudioSettings connected) = 1 /\
  Forall2 Qeq (startTimes (emitted (deliver calm threeChunks connected)))
    [0; 1; 2].
Proof.
  split; [exact playing_connected|]. split; [reflexivity|].
  split; [reflexivity|].
  apply (@threeChunks_start_times calm connected playing_connected
           eq_refl eq_refl).
Defined.

Lemma dispatch_loop_defers_responses_at_three_calls :
  Forall2 (settles hostile) [call "a" "clear_chat"; call "b" "set_volume"]
    ["Tool executed."; "Tool executed."]%string /\
  stalls hostile [call "c" "draw_detection"; call "d" "set_volume"] /\
  emitted
    (foldOf (dispatch hostile) []
       ([call "a" "clear_chat"; call "b" "set_volume"]
        ++ [call "c" "draw_detection"; call "d" "set_volume"]) connected)
  = [ToolCallInvoked "clear_chat" "{}";
     ToolCallInvoked "set_volume" "{}";
     ToolResponse "a" "clear_chat" "Tool executed.";
     ToolCallInvoked "draw_detection" "{}";
     ToolResponse "b" "set_volume" "Tool executed."]%string.
Proof.
  assert (Hp : Forall2 (settles hostile)
                 [call "a" "clear_chat"; call "b" "set_volume"]
                 ["Tool executed."; "Tool executed."]%string)
    by (repeat constructor).
  assert (Hs : stalls hostile
                 [call "c" "draw_detection"; call "d" "set_volume"])
    by reflexivity.
  split; [exact Hp|]. split; [exact Hs|].
  destruct (@dispatch_loop_defers_responses hostile
              [call "a" "clear_chat"; call "b" "set_volume"]
              [call "c" "draw_detection"; call "d" "set_volume"]
              ["Tool executed."; "Tool executed."]%string connected Hp Hs)
    as [He _].
  exact He.
Defined.

Lemma onmessage_responds_to_answered_calls_at_three_calls :
  toolCall (toolMessage ([call "a" "clear_chat"]
                         ++ [call "b" "draw_detection"; call "c" "set_volume"]))
  = Some ([call "a" "clear_chat"]
          ++ [call "b" "draw_detection"; call "c" "set_volume"]) /\
  Forall2 (settles hostile) [call "a" "clear_chat"] ["Tool executed."%string] /\
  stalls hostile [call "b" "draw_detection"; call "c" "set_volume"] /\
  responsesOf
    (emitted
       (onmessage hostile
          (toolMessage ([call "a" "clear_chat"]
                        ++ [call "b" "draw_detection"; call "c" "set_volume"]))
          connected))
  = [("a", "clear_chat", "Tool executed.")]%string.
Proof.
  assert (Hp : Forall2 (settles hostile) [call "a" "clear_chat"]
                 ["Tool executed."%string])
    by (repeat constructor).
  assert (Hs : stalls hostile [call "b" "draw_detection"; call "c" "set_volume"])
    by reflexivity.
  split; [reflexivity|]. split; [exact Hp|]. split; [exact Hs|].
  apply (@onmessage_responds_to_answered_calls hostile
           (toolMessage ([call "a" "clear_chat"]
                         ++ [call "b" "draw_detection"; call "c" "set_volume"]))
           [call "a" "clear_chat"]
           [call "b" "draw_detection"; call "c" "set_volume"]
           ["Tool executed."%string] connected eq_refl Hp Hs).
Defined.

Lemma wellTurn_parcel : wellTurn hostile parcelTurn.
Proof.
  split; [|reflexivity].
  apply Forall_cons; [reflexivity|].
  apply Forall_cons; [reflexivity|].
  apply Forall_cons; [reflexivity|apply Forall_nil].
Defined.

Lemma wellTurn_thanks : wellTurn hostile thanksTurn.
Proof.
  split; [|reflexivity]. apply Forall_cons; [reflexivity|apply Forall_nil].
Defined.

Lemma turn_complete_hands_over_transcripts_at_two_turns :
  currentInputTranscription connected = ""%string /\
  currentOutputTranscription connected = ""%string /\
  Forall (wellTurn hostile) [parcelTurn; thanksTurn] /\
  turnsOf
    (emitted
       (deliver hostile (flat_map messagesOf [parcelTurn; thanksTurn])
          connected))
  = [("what is ", "A parcel, Sir."); ("thanks", "Quite.")]%string.
Proof.
  assert (Hall : Forall (wellTurn hostile) [parcelTurn; thanksTurn])
    by (apply Forall_cons; [exact wellTurn_parcel|];
        apply Forall_cons; [exact wellTurn_thanks|apply Forall_nil]).
  split; [reflexivity|]. split; [reflexivity|]. split; [exact Hall|].
  apply (@turn_complete_hands_over_transcripts hostile
           [parcelTurn; thanksTurn] connected eq_refl eq_refl Hall).
Defined.

Lemma both_fragments_keep_only_output_at_parcel :
  reaches calm (saidOver "A parcel" "this") = true /\
  transcriptionsOf
    (emitted
       (onmessage calm (saidOver "A parcel" "this")
          connected))
  = [("A parcel"%string, false)].
Proof.
  split; [reflexivity|].
  destruct (@both_fragments_keep_only_output calm
              (saidOver "A parcel" "this")
              _ "A parcel" "this" connected eq_refl eq_refl eq_refl)
    as [Hreached _].
  apply (Hreached eq_refl).
Defined.

Lemma stop_releases_capture_and_playback_at_busy :
  (forall t, In t [7%nat; 8%nat] -> trackStopThrows hostile t = false) /\
  emitted
    (stop hostile {| inputCtx := 2%nat; stream := [7%nat; 8%nat];
                     channel := 3%nat |} busy)
  = [TrackStop 7%nat; TrackStop 8%nat; AudioContextClose 2%nat;
     SourceStop 4%nat; SourceStop 5%nat] /\
  activeSources
    (final (stop hostile {| inputCtx := 2%nat; stream := [7%nat; 8%nat];
                            channel := 3%nat |} busy)) = [].
Proof.
  assert (Ht : forall t, In t [7%nat; 8%nat] ->
                         trackStopThrows hostile t = false)
    by (intros t _; reflexivity).
  split; [exact Ht|].
  destruct (@stop_releases_capture_and_playback hostile
              {| inputCtx := 2%nat; stream := [7%nat; 8%nat];
                 channel := 3%nat |} busy Ht) as [_ [He [Ha _]]].
  split; [exact He|exact Ha].
Defined.

Lemma connectLive_mic_denied_leaks_inputCtx_at_initial :
  getUserMedia hostile = Throw "NotAllowedError" /\
  completion (connectLive hostile initial) = Normal None /\
  In (OnError "MIC_ACCESS_DENIED") (emitted (connectLive hostile initial)).
Proof.
  split; [reflexivity|].
  destruct (@connectLive_mic_denied_leaks_inputCtx hostile initial
              "NotAllowedError" eq_refl) as [Hc [He _]].
  split; [exact Hc|exact He].
Defined.

(** ** More on the scheduler *)

Lemma schedule_skips (p : Part) (w : State) :
  hasAudio p = false \/ audioContext w = None \/ outputNode w = None ->
  schedule p w = {| completion := Normal tt; final := w; emitted := [] |}.
Proof.
  unfold hasAudio, schedule, bind, get. simpl.
  intros [H|[H|H]]; rewrite H; try reflexivity.
  - destruct (truthy (inlineData p)); reflexivity.
  - destruct (truthy (inlineData p)), (audioContext w); reflexivity.
Qed.

Lemma bind_skip (k : Js unit) (m : Js unit) (w : State) :
  m w = {| completion := Normal tt; final := w; emitted := [] |} ->
  bind m (fun _ => k) w = k w.
Proof. intros H. unfold bind. rewrite H. destruct (k w); reflexivity. Qed.

(** Parts without audio data (text parts, empty data) are passed over: the
    loop over the parts of a message does exactly what it does on the parts
    that carry audio. *)
Theorem forOf_schedule_ignores_silent_parts (parts : list Part) (w : State) :
  forOf schedule parts w = forOf schedule (filter hasAudio parts) w.
Proof.
  revert w. induction parts as [|p rest IH]; intros w; [reflexivity|].
  simpl. destruct (hasAudio p) eqn:E.
  - simpl. unfold bind. destruct (schedule p w) as [[[]|e] w1 e1].
    + rewrite IH. reflexivity.
    + reflexivity.
  - rewrite bind_skip by (apply schedule_skips; left; exact E). apply IH.
Qed.

(** Without an output context nothing is scheduled. *)
Theorem forOf_schedule_without_context (parts : list Part) (w : State) :
  audioContext w = None \/ outputNode w = None ->
  forOf schedule parts w
  = {| completion := Normal tt; final := w; emitted := [] |}.
Proof.
  intros H. induction parts as [|p rest IH]; [reflexivity|].
  simpl. rewrite bind_skip by (apply schedule_skips; right; exact H).
  exact IH.
Qed.




Lemma timeline_not_early (rate : Q) (parts : list Part) :
  forall s clock k p s1 t r d,
    nth_error parts k = Some p ->
    nth_error (timeline s clock rate parts) k = Some (SourceStart s1 t r d) ->
    currentTime p <= t.
Proof.
  induction parts as [|q rest IH]; intros s clock k p s1 t r d Hp Hk.
  - destruct k; discriminate.
  - destruct k as [|k]; simpl in Hp, Hk.
    + inversion Hp; subst. inversion Hk; subst. apply Q.le_max_r.
    + eapply IH; eassumption.
Qed.

Lemma forOf_schedule_clock (parts : list Part) :
  forall w,
    playing w ->
    0 < speed (currentAudioSettings w) ->
    Forall audible parts ->
    nextStartTime w <= nextStartTime (final (forOf schedule parts w)).
Proof.
  induction parts as [|p rest IH]; intros w Hp Hr Hall.
  - simpl. apply Qle_refl.
  - inversion Hall as [|? ? [Ht Hd] Hrest]; subst.
    destruct (playing_schedule_final p Hp Ht) as [Hp' [Hs [_ Hc]]].
    simpl forOf.
    rewrite (@run_bind_normal unit unit (schedule p) _ w tt)
      by (rewrite (schedule_playing p Hp Ht); reflexivity).
    cbn [final].
    assert (Hr' : 0 < speed (currentAudioSettings (final (schedule p w))))
      by (rewrite Hs; exact Hr).
    pose proof (IH _ Hp' Hr' Hrest) as Hle. rewrite Hc in Hle.
    pose proof (Q.le_max_l (nextStartTime w) (currentTime p)).
    pose proof (Qdiv_nonneg Hd Hr). lra.
Qed.

(** No chunk is started in the past, and scheduling never moves the clock
    backwards. *)
Theorem chunks_never_start_in_the_past (parts : list Part) (w : State) :
  playing w ->
  0 < speed (currentAudioSettings w) ->
  Forall audible parts ->
  let run := forOf schedule parts w in
  (forall k p s t r d,
     nth_error parts k = Some p ->
     nth_error (emitted run) k = Some (SourceStart s t r d) ->
     currentTime p <= t) /\
  nextStartTime w <= nextStartTime (final run).
Proof.
  intros Hp Hr Hall. cbv zeta. split.
  - assert (Ht : Forall (fun p => truthy (inlineData p) = true) parts)
      by (eapply Forall_impl; [|exact Hall]; intros a [H _]; exact H).
    destruct (forOf_schedule_timeline Hp Ht) as [_ He]. rewrite He.
    intros. eapply timeline_not_early; eassumption.
  - apply forOf_schedule_clock; assumption.
Qed.

(** ** What the operations keep *)

Lemma startedIn_app (a b : list Event) :
  startedIn (a ++ b) = startedIn a ++ startedIn b.
Proof. apply flat_map_app. Qed.

Lemma stoppedIn_app (a b : list Event) :
  stoppedIn (a ++ b) = stoppedIn a ++ stoppedIn b.
Proof. apply flat_map_app. Qed.

Lemma stoppedIn_stops (l : list Handle) : stoppedIn (map SourceStop l) = l.
Proof. induction l as [|x l IH]; simpl; [reflexivity|]. rewrite IH. reflexivity. Qed.

Lemma startedIn_stops (l : list Handle) : startedIn (map SourceStop l) = [].
Proof. induction l as [|x l IH]; simpl; auto. Qed.

Lemma kept_bind {A B : Type} (m : Js A) (k : A -> Js B) (w : State) :
  kept w (m w) ->
  (forall a, kept (final (m w)) (k a (final (m w)))) ->
  kept w (bind m k w).
Proof.
  intros Hm Hk. unfold bind.
  destruct (m w) as [[a|e] w1 e1]; [|exact Hm].
  specialize (Hk a). simpl in Hk. destruct (k a w1) as [c w2 e2].
  unfold kept in *. simpl in *.
  destruct Hm as [M1 [M2 [M3 [M4 [M5 [M6 M7]]]]]].
  destruct Hk as [K1 [K2 [K3 [K4 [K5 [K6 K7]]]]]].
  rewrite K1, K2, K3, M1, M2, M3. repeat apply conj; auto.
  - lia.
  - intros s. rewrite startedIn_app, stoppedIn_app, !in_app_iff.
    intros [H|[H|H]].
    + destruct (M6 s (or_introl H)) as [H1|H1]; [|tauto].
      destruct (K6 s (or_introl H1)); tauto.
    + destruct (M6 s (or_intror H)) as [H1|H1]; [|tauto].
      destruct (K6 s (or_introl H1)); tauto.
    + destruct (K6 s (or_intror H)); tauto.
  - intros s H. destruct (K7 s H) as [H1|H1].
    + destruct (M7 s H1); [tauto|right; assumption].
    + right. lia.
Qed.

Lemma kept_same {A : Type} (w : State) (c : Completion A) (evs : list Event) :
  startedIn evs = [] ->
  kept w {| completion := c; final := w; emitted := evs |}.
Proof.
  intros Hs. unfold kept. simpl. rewrite Hs. repeat apply conj; auto.
  intros s [H|[]]. left. exact H.
Qed.

Lemma kept_forOf {A : Type} (f : A -> Js unit) (l : list A) :
  (forall x w, kept w (f x w)) ->
  forall w, kept w (forOf f l w).
Proof.
  intros Hf. induction l as [|x l IH]; intros w.
  - simpl. apply kept_same. reflexivity.
  - simpl. apply kept_bind; [apply Hf|]. intros _. apply IH.
Qed.

Lemma kept_try_catch (m : Js unit) (w : State) :
  kept w (m w) -> kept w (try_catch m w).
Proof. unfold try_catch. destruct (m w) as [c w1 e1]. intros H. exact H. Qed.

Lemma set_add_keeps (x s : Handle) (l : list Handle) :
  In s l -> In s (set_add x l).
Proof.
  unfold set_add. destruct (existsb (Nat.eqb x) l); [auto|].
  intros H. apply in_or_app. left. exact H.
Qed.

Lemma set_add_fresh (x : Handle) (l : list Handle) :
  Forall (fun s => (s < x)%nat) l -> set_add x l = l ++ [x].
Proof.
  intros H. unfold set_add.
  destruct (existsb (Nat.eqb x) l) eqn:E; [|reflexivity].
  apply existsb_exists in E. destruct E as [y [Hy He]].
  apply Nat.eqb_eq in He. subst y.
  rewrite Forall_forall in H. specialize (H x Hy). lia.
Qed.

Lemma kept_schedule (p : Part) (w : State) : kept w (schedule p w).
Proof.
  destruct (hasAudio p) eqn:Ha;
    [|rewrite schedule_skips by (left; exact Ha); apply kept_same; reflexivity].
  destruct (audioContext w) as [c|] eqn:Ec;
    [|rewrite schedule_skips by (right; left; exact Ec);
      apply kept_same; reflexivity].
  destruct (outputNode w) as [n|] eqn:En;
    [|rewrite schedule_skips by (right; right; exact En);
      apply kept_same; reflexivity].
  assert (Hp : playing w) by (split; congruence).
  rewrite (schedule_playing p Hp Ha). unfold kept. simpl.
  repeat apply conj; auto.
  - intros [Hd [Hlt [Hc Hn]]]. unfold tidy. simpl.
    rewrite (set_add_fresh Hlt). repeat apply conj.
    + apply NoDup_app; [exact Hd|repeat constructor; intros []|].
      intros x Hx [Hx'|[]]. subst x.
      rewrite Forall_forall in Hlt. specialize (Hlt _ Hx). lia.
    + apply Forall_app. split.
      * eapply Forall_impl; [|exact Hlt]. simpl. intros. lia.
      * repeat constructor.
    + intros c' Hc'. specialize (Hc c' Hc'). lia.
    + intros n' Hn'. specialize (Hn n' Hn'). lia.
  - intros s [H|[H|[]]]; left.
    + apply set_add_keeps. exact H.
    + subst s. apply set_add_In.
  - intros s H. unfold set_add in H.
    destruct (existsb (Nat.eqb (fresh w)) (activeSources w)); [auto|].
    apply in_app_or in H. destruct H as [H|[H|[]]]; [auto|]. right. lia.
Qed.

Lemma kept_accumulate (sc : option ServerContent) (w : State) :
  kept w (accumulate sc w) /\
  activeSources (final (accumulate sc w)) = activeSources w /\
  nextStartTime (final (accumulate sc w)) = nextStartTime w /\
  startedIn (emitted (accumulate sc w)) = [] /\
  stoppedIn (emitted (accumulate sc w)) = [].
Proof.
  unfold accumulate, kept, tidy.
  destruct sc as [c|]; simpl;
    [destruct (outputTranscription c), (inputTranscription c); simpl|];
    repeat apply conj; auto; tauto.
Qed.

Lemma kept_completeTurn (sc : option ServerContent) (w : State) :
  kept w (completeTurn sc w) /\
  activeSources (final (completeTurn sc w)) = activeSources w /\
  nextStartTime (final (completeTurn sc w)) = nextStartTime w /\
  startedIn (emitted (completeTurn sc w)) = [] /\
  stoppedIn (emitted (completeTurn sc w)) = [].
Proof.
  unfold completeTurn, kept, tidy.
  destruct sc as [c|]; simpl; [destruct (turnComplete c); simpl|];
    repeat apply conj; auto; tauto.
Qed.

Lemma kept_stopAudio (env : Env) (w : State) : kept w (stopAudio env w).
Proof.
  rewrite stopAudio_run. unfold kept, tidy. simpl.
  rewrite stoppedIn_stops, startedIn_stops. repeat apply conj; auto.
  - intros [_ [_ [Hc Hn]]]. repeat apply conj; auto. constructor.
  - tauto.
  - intros s [].
Qed.

Lemma kept_onInterrupted (env : Env) (sc : option ServerContent) (w : State) :
  kept w (onInterrupted env sc w).
Proof.
  unfold onInterrupted. destruct sc as [c|];
    [destruct (interrupted c)|]; try (apply kept_same; reflexivity).
  apply kept_stopAudio.
Qed.

Lemma kept_bind_run {A B : Type} (m : Js A) (k : A -> Js B) (w : State) :
  kept w (m w) ->
  (forall a, completion (m w) = Normal a ->
             kept (final (m w)) (k a (final (m w)))) ->
  kept w (bind m k w).
Proof.
  intros Hm Hk.
  destruct (completion (m w)) as [a|e] eqn:E.
  - rewrite (run_bind_normal m k w E). specialize (Hk a eq_refl).
    unfold kept in *. cbn [completion final emitted].
    destruct Hm as [M1 [M2 [M3 [M4 [M5 [M6 M7]]]]]].
    destruct Hk as [K1 [K2 [K3 [K4 [K5 [K6 K7]]]]]].
    rewrite K1, K2, K3, M1, M2, M3. repeat apply conj; auto.
    + lia.
    + intros s. rewrite startedIn_app, stoppedIn_app, !in_app_iff.
      intros [H|[H|H]].
      * destruct (M6 s (or_introl H)) as [H1|H1]; [|tauto].
        destruct (K6 s (or_introl H1)); tauto.
      * destruct (M6 s (or_intror H)) as [H1|H1]; [|tauto].
        destruct (K6 s (or_introl H1)); tauto.
      * destruct (K6 s (or_intror H)); tauto.
    + intros s H. destruct (K7 s H) as [H1|H1].
      * destruct (M7 s H1); [tauto|right; assumption].
      * right. lia.
  - rewrite (run_bind_throw m k w E). exact Hm.
Qed.

Lemma toolEvents_startedIn (evs : list Event) :
  forallb toolEvent evs = true -> startedIn evs = [].
Proof. intros H. unfold startedIn. silent toolEvent. Qed.

Lemma kept_tools (env : Env) (m : LiveServerMessage) (w : State) :
  kept w (tools env m w).
Proof.
  destruct (tools_frame env m w) as [Hf [Ht _]].
  destruct (tools env m w) as [c w' evs]. simpl in *. subst w'.
  apply kept_same. apply toolEvents_startedIn. exact Ht.
Qed.

Lemma kept_emits (evs : list Event) (w : State) :
  startedIn evs = [] -> kept w (forOf emit evs w).
Proof. intros H. rewrite forOf_emit_run. apply kept_same. exact H. Qed.

Lemma kept_content (env : Env) (m : LiveServerMessage) (w : State) :
  kept w (content env m w).
Proof.
  unfold content. apply kept_bind.
  - apply kept_forOf. intros. apply kept_schedule.
  - intros _. apply kept_bind; [apply kept_accumulate|].
    intros _. apply kept_bind; [apply kept_completeTurn|].
    intros _. apply kept_onInterrupted.
Qed.

Lemma kept_onmessage (env : Env) (m : LiveServerMessage) (w : State) :
  kept w (onmessage env m w).
Proof.
  unfold onmessage. apply kept_bind_run; [apply kept_tools|].
  intros q Hq.
  assert (Hs : startedIn q = []).
  { destruct (tools_frame env m w) as [_ [_ [Hp _]]].
    unfold pending in Hp. rewrite Hq in Hp.
    apply toolEvents_startedIn. exact Hp. }
  apply kept_bind; [apply kept_same; reflexivity|].
  intros early. cbn [get final]. apply kept_bind.
  - destruct early; [apply kept_emits; exact Hs|apply kept_same; reflexivity].
  - intros _. apply kept_bind; [apply kept_content|].
    intros _.
    destruct early; [apply kept_same; reflexivity|apply kept_emits; exact Hs].
Qed.

Lemma kept_deliver (env : Env) (msgs : list LiveServerMessage) (w : State) :
  kept w (deliver env msgs w).
Proof.
  unfold deliver. apply kept_forOf. intros m w'.
  apply kept_try_catch. apply kept_onmessage.
Qed.

Lemma kept_stop (env : Env) (s : Session) (w : State) :
  kept w (stop env s w).
Proof.
  unfold stop. apply kept_bind.
  - apply kept_forOf. intros t w'. unfold trackStop, bind, emit. simpl.
    destruct (trackStopThrows env t); apply kept_same; reflexivity.
  - intros _. apply kept_bind.
    + rewrite closeContext_run. apply kept_same. reflexivity.
    + intros _. apply kept_stopAudio.
Qed.

(** ** Playback across messages *)

Lemma grown_bind {A B : Type} (m : Js A) (k : A -> Js B) (w : State) :
  grown w (m w) ->
  (forall a, grown (final (m w)) (k a (final (m w)))) ->
  grown w (bind m k w).
Proof.
  intros Hm Hk. unfold bind.
  destruct (m w) as [[a|e] w1 e1]; [|exact Hm].
  specialize (Hk a). simpl in Hk. destruct (k a w1) as [c w2 e2].
  unfold grown in *. simpl in *. intros s H.
  rewrite startedIn_app, in_app_iff.
  destruct (Hk s H) as [H1|H1]; [|tauto].
  destruct (Hm s H1); tauto.
Qed.

Lemma grown_same {A : Type} (w : State) (r : Run A) :
  activeSources (final r) = activeSources w -> grown w r.
Proof. intros H s Hs. left. rewrite <- H. exact Hs. Qed.

Lemma grown_forOf {A : Type} (f : A -> Js unit) (l : list A) :
  (forall x w, grown w (f x w)) ->
  forall w, grown w (forOf f l w).
Proof.
  intros Hf. induction l as [|x l IH]; intros w.
  - apply grown_same. reflexivity.
  - simpl. apply grown_bind; [apply Hf|]. intros _. apply IH.
Qed.

Lemma grown_schedule (p : Part) (w : State) : grown w (schedule p w).
Proof.
  destruct (hasAudio p) eqn:Ha;
    [|rewrite schedule_skips by (left; exact Ha); apply grown_same;
      reflexivity].
  destruct (audioContext w) as [c|] eqn:Ec;
    [|rewrite schedule_skips by (right; left; exact Ec);
      apply grown_same; reflexivity].
  destruct (outputNode w) as [n|] eqn:En;
    [|rewrite schedule_skips by (right; right; exact En);
      apply grown_same; reflexivity].
  assert (Hp : playing w) by (split; congruence).
  rewrite (schedule_playing p Hp Ha). intros s. simpl. unfold set_add.
  destruct (existsb (Nat.eqb (fresh w)) (activeSources w)); [auto|].
  intros H. apply in_app_or in H. destruct H as [H|[H|[]]]; auto.
Qed.

Lemma grown_content (env : Env) (m : LiveServerMessage) (w : State) :
  grown w (content env m w).
Proof.
  unfold content. apply grown_bind.
  - apply grown_forOf. intros. apply grown_schedule.
  - intros _. apply grown_bind;
      [apply grown_same; apply (kept_accumulate (serverContent m))|].
    intros _. apply grown_bind;
      [apply grown_same; apply (kept_completeTurn (serverContent m))|].
    intros _. unfold onInterrupted.
    destruct (serverContent m) as [c|]; [|apply grown_same; reflexivity].
    destruct (interrupted c); [|apply grown_same; reflexivity].
    rewrite stopAudio_run. intros s [].
Qed.

Lemma grown_onmessage (env : Env) (m : LiveServerMessage) (w : State) :
  grown w (onmessage env m w).
Proof.
  unfold onmessage. apply grown_bind.
  - apply grown_same. destruct (tools_frame env m w) as [Hf _].
    rewrite Hf. reflexivity.
  - intros q. apply grown_bind; [apply grown_same; reflexivity|].
    intros early. cbn [get final]. apply grown_bind.
    + destruct early; apply grown_same; [rewrite forOf_emit_run|];
        reflexivity.
    + intros _. apply grown_bind; [apply grown_content|].
      intros _. destruct early; apply grown_same; [|rewrite forOf_emit_run];
        reflexivity.
Qed.

Lemma happens_completes (env : Env) (h : Happening) (w : State) :
  completion (happens env h w) = Normal tt.
Proof.
  destruct h as [m|s]; simpl; [|reflexivity].
  apply try_catch_run.
Qed.

Lemma playback_of_messages (env : Env) (msgs : list LiveServerMessage) :
  playback env (map Arrives msgs) = deliver env msgs.
Proof.
  unfold playback, deliver. induction msgs as [|m msgs IH]; [reflexivity|].
  simpl. rewrite IH. reflexivity.
Qed.

(** Whatever happens in a session, messages arriving (with handlers that
    answer or reject) and sources reaching their end in any order: a source
    that was playing or was started is, at the end, still in
    [activeSources], or had [stop] called on it, or has ended; and
    [activeSources] holds nothing but sources that were playing or were
    started.  No started source is lost track of. *)
Theorem no_started_source_is_lost
        (env : Env) (hs : list Happening) (w : State) (s : Handle) :
  let r := playback env hs w in
  (In s (activeSources w) \/ In s (startedIn (emitted r)) ->
   In s (activeSources (final r)) \/ In s (stoppedIn (emitted r)) \/
   In s (endedIn hs)) /\
  (In s (activeSources (final r)) ->
   In s (activeSources w) \/ In s (startedIn (emitted r))).
Proof.
  cbv zeta. unfold playback. revert w.
  induction hs as [|h hs IH]; intros w.
  - simpl. split; [intros [H|[]]|]; auto.
  - simpl forOf.
    rewrite (run_bind_normal _ _ w (happens_completes env h w)).
    cbn [completion final emitted].
    destruct (IH (final (happens env h w))) as [I1 I2].
    rewrite startedIn_app, stoppedIn_app, !in_app_iff.
    destruct h as [m|s']; simpl happens in *; simpl endedIn.
    + destruct (try_catch_run (onmessage env m) w) as [_ [Hf He]].
      rewrite Hf, He in *.
      destruct (kept_onmessage env m w) as [_ [_ [_ [_ [_ [K _]]]]]].
      pose proof (grown_onmessage env m w s) as G.
      split.
      * intros [H|[H|H]].
        -- destruct (K s (or_introl H)) as [H1|H1]; [|tauto].
           destruct (I1 (or_introl H1)); tauto.
        -- destruct (K s (or_intror H)) as [H1|H1]; [|tauto].
           destruct (I1 (or_introl H1)); tauto.
        -- destruct (I1 (or_intror H)); tauto.
      * intros H. destruct (I2 H) as [H1|H1]; [|tauto].
        destruct (G H1); tauto.
    + unfold ended, modify in *. cbn [final emitted] in *.
      simpl startedIn. simpl stoppedIn. split.
      * intros [H|[[]|H]].
        -- destruct (Nat.eq_dec s' s) as [E|E]; [subst; right; right; left;
             reflexivity|].
           assert (H1 : In s (set_delete s' (activeSources w))).
           { unfold set_delete. apply filter_In. split; [exact H|].
             apply Bool.negb_true_iff, Nat.eqb_neq. exact E. }
           destruct (I1 (or_introl H1)) as [H2|[H2|H2]]; auto.
           right. right. right. exact H2.
        -- destruct (I1 (or_intror H)) as [H2|[H2|H2]]; auto.
           right. right. right. exact H2.
      * intros H. destruct (I2 H) as [H1|H1]; [|tauto].
        left. unfold set_delete in H1. apply filter_In in H1. tauto.
Qed.

Lemma set_delete_absent (s : Handle) (l : list Handle) :
  ~ In s l -> set_delete s l = l.
Proof.
  intros H. unfold set_delete. induction l as [|x l IH]; [reflexivity|].
  simpl. destruct (Nat.eqb s x) eqn:E.
  - apply Nat.eqb_eq in E. subst x. exfalso. apply H. left. reflexivity.
  - simpl. rewrite IH; [reflexivity|]. intros Hin. apply H. right. exact Hin.
Qed.

(** The ['ended'] event of a source that an interrupt has stopped may come
    at any later time: it removes none of the sources scheduled since. *)
Theorem late_ended_spares_newer_sources
        (env : Env) (msgs : list LiveServerMessage) (w : State) (s : Handle) :
  tidy w ->
  In s (activeSources w) ->
  let w1 := final (stopAudio env w) in
  let w2 := final (deliver env msgs w1) in
  activeSources (final (ended s w2)) = activeSources w2.
Proof.
  intros [_ [Hlt _]] Hs. cbv zeta. unfold ended, modify. simpl.
  apply set_delete_absent. intros Hin.
  destruct (kept_deliver env msgs (final (stopAudio env w)))
    as [_ [_ [_ [_ [_ [_ K]]]]]].
  destruct (K s Hin) as [H|H].
  - rewrite stopAudio_run in H. simpl in H. exact H.
  - rewrite stopAudio_run in H. simpl in H.
    rewrite Forall_forall in Hlt. specialize (Hlt s Hs). lia.
Qed.

Lemma content_final (env : Env) (m : LiveServerMessage) (w : State) :
  let sc := serverContent m in
  let w1 := final (forOf schedule (partsOf m) w) in
  let w3 := final (completeTurn sc (final (accumulate sc w1))) in
  final (content env m w) = final (onInterrupted env sc w3) /\
  emitted (content env m w)
  = emitted (forOf schedule (partsOf m) w)
    ++ emitted (accumulate sc w1)
    ++ emitted (completeTurn sc (final (accumulate sc w1)))
    ++ emitted (onInterrupted env sc w3) /\
  activeSources w3 = activeSources w1 /\
  nextStartTime w3 = nextStartTime w1.
Proof.
  cbv zeta. unfold content.
  destruct (forOf_schedule_frame (partsOf m) w) as [C1 _].
  set (w1 := final (forOf schedule (partsOf m) w)) in *.
  destruct (accumulate_run (serverContent m) w1) as [C2 _].
  destruct (kept_accumulate (serverContent m) w1) as [_ [A2 [N2 _]]].
  set (w2 := final (accumulate (serverContent m) w1)) in *.
  destruct (completeTurn_run (serverContent m) w2) as [C3 _].
  destruct (kept_completeTurn (serverContent m) w2) as [_ [A3 [N3 _]]].
  rewrite (run_bind_normal _ _ w C1). cbn [completion final emitted].
  fold w1. rewrite (run_bind_normal _ _ w1 C2). cbn [completion final emitted].
  fold w2. rewrite (run_bind_normal _ _ w2 C3). cbn [completion final emitted].
  rewrite A3, A2, N3, N2. auto.
Qed.

Lemma onmessage_reached_content (env : Env) (m : LiveServerMessage) (w : State) :
  reaches env m = true ->
  final (onmessage env m w) = final (content env m w) /\
  filter audioEvent (emitted (onmessage env m w))
  = filter audioEvent (emitted (content env m w)).
Proof.
  intros Hr. destruct (onmessage_run env m w Hr) as [_ [Hf He]].
  split; [exact Hf|]. rewrite He.
  destruct (tools_frame env m w) as [_ [Ht [Hp _]]].
  destruct (toolEvents_silent _ Ht) as [_ [_ F0]].
  destruct (toolEvents_silent _ Hp) as [_ [_ F1]].
  rewrite !filter_app, F0.
  destruct (awaited (partsOf m) w); simpl; rewrite F1, ?app_nil_r;
    reflexivity.
Qed.

(** A message whose handlers answer and that carries the [interrupted]
    signal leaves nothing playing: the set is empty, the clock is back at 0,
    and [stop] was called on every source that was active before the message
    or was started by the audio parts of the message itself. *)
Theorem interrupted_message_leaves_nothing_playing
        (env : Env) (m : LiveServerMessage) (w : State) :
  reaches env m = true ->
  interrupts m = true ->
  let r := onmessage env m w in
  activeSources (final r) = [] /\
  nextStartTime (final r) = 0 /\
  (forall s, In s (activeSources w) \/ In s (startedIn (emitted r)) ->
             In s (stoppedIn (emitted r))).
Proof.
  intros Hr Hi. cbv zeta.
  destruct (onmessage_reached_content env m w Hr) as [Hf _].
  destruct (content_final env m w) as [Hc _].
  assert (Ha : activeSources (final (onmessage env m w)) = [] /\
               nextStartTime (final (onmessage env m w)) = 0).
  { rewrite Hf, Hc. unfold interrupts, onInterrupted in *.
    destruct (serverContent m) as [c|]; [|discriminate].
    rewrite Hi, stopAudio_run. simpl. auto. }
  destruct Ha as [Ha Hn]. split; [exact Ha|]. split; [exact Hn|].
  intros s Hs.
  destruct (kept_onmessage env m w) as [_ [_ [_ [_ [_ [K _]]]]]].
  destruct (K s Hs) as [H|H]; [|exact H].
  rewrite Ha in H. destruct H.
Qed.

Lemma filter_audio_silent (P : Event -> bool) (evs : list Event) :
  (forall e, P e = true -> audioEvent e = false) ->
  forallb P evs = true ->
  filter audioEvent evs = [].
Proof.
  intros HP. induction evs as [|e evs IH]; simpl; [reflexivity|].
  intros H. apply andb_true_iff in H. destruct H as [He Hevs].
  rewrite (HP e He). apply IH. exact Hevs.
Qed.

(** When a tool handler rejects, the rest of the message is not looked at:
    its audio parts are not scheduled and its [interrupted] signal stops
    nothing, so what was playing keeps playing. *)
Theorem rejected_call_drops_audio_and_interrupt
        (env : Env) (m : LiveServerMessage) (w : State) :
  reaches env m = false ->
  let r := onmessage env m w in
  final r = w /\
  filter audioEvent (emitted r) = [] /\
  turnsOf (emitted r) = [].
Proof.
  intros Hr. cbv zeta.
  destruct (onmessage_unreached env m w Hr) as [_ [Hw [He _]]].
  destruct (tools_frame env m w) as [_ [Ht [Hq _]]].
  split; [exact Hw|]. rewrite He. split.
  - apply (@filter_audio_silent toolEvent); [|exact Ht].
    intros []; simpl; intros; (reflexivity || discriminate).
  - unfold turnsOf. silent toolEvent.
Qed.

Lemma filter_audio_all (evs : list Event) :
  forallb audioEvent evs = true -> filter audioEvent evs = evs.
Proof.
  induction evs as [|e evs IH]; simpl; [reflexivity|].
  intros H. apply andb_true_iff in H. destruct H as [He Hevs].
  rewrite He, (IH Hevs). reflexivity.
Qed.

(** What a message whose handlers answer does to playback: it schedules its
    parts, and then, when it carries [interrupted], stops every active
    source.  Tool calls, transcripts and the turn-complete signal add no
    call on a source. *)
Theorem onmessage_playback
        (env : Env) (m : LiveServerMessage) (w : State) :
  reaches env m = true ->
  let r := onmessage env m w in
  let r1 := forOf schedule (partsOf m) w in
  filter audioEvent (emitted r)
  = emitted r1
    ++ (if interrupts m then map SourceStop (activeSources (final r1)) else [])
  /\
  (interrupts m = false ->
     activeSources (final r) = activeSources (final r1) /\
     nextStartTime (final r) = nextStartTime (final r1)).
Proof.
  intros Hr. cbv zeta.
  destruct (onmessage_reached_content env m w Hr) as [Hf He].
  destruct (content_final env m w) as [Hc [Hev [Ha Hn]]].
  destruct (forOf_schedule_frame (partsOf m) w) as [_ [_ [_ Hs]]].
  rewrite Hf, He, Hc, Hev. rewrite !filter_app.
  rewrite (filter_audio_all _ Hs).
  set (w1 := final (forOf schedule (partsOf m) w)) in *.
  set (sc := serverContent m) in *.
  assert (E2 : filter audioEvent (emitted (accumulate sc w1)) = []).
  { unfold accumulate. destruct sc as [c|]; [|reflexivity].
    destruct (outputTranscription c), (inputTranscription c); reflexivity. }
  assert (E3 : filter audioEvent
                 (emitted (completeTurn sc (final (accumulate sc w1)))) = []).
  { unfold completeTurn. destruct sc as [c|]; [|reflexivity].
    destruct (turnComplete c); reflexivity. }
  rewrite E2, E3. simpl app.
  unfold interrupts, onInterrupted. fold sc.
  destruct sc as [c|].
  - destruct (interrupted c).
    + rewrite stopAudio_run. cbn [emitted final]. rewrite Ha.
      rewrite filter_audio_all
        by (clear; induction (activeSources w1); simpl; auto).
      split; [reflexivity|]. discriminate.
    + simpl. rewrite app_nil_r. auto.
  - simpl. rewrite app_nil_r. auto.
Qed.

(** ** Contexts across sessions *)

(** The handle that [connectLive] gives to its capture context. *)
Lemma connectLive_contexts (env : Env) (w : State) :
  let r := connectLive env w in
  let input := match audioContext w with
               | Some _ => fresh w
               | None => S (S (fresh w))
               end in
  createdAt 16000 (emitted r) = [input] /\
  createdAt 24000 (emitted r)
  = match audioContext w with Some _ => [] | None => [fresh w] end /\
  closedIn (emitted r) = [] /\
  audioContext (final r)
  = Some (match audioContext w with Some c => c | None => fresh w end) /\
  (input < fresh (final r))%nat /\
  (forall s, completion r = Normal (Some s) -> inputCtx s = input) /\
  (forall s, completion r = Normal (Some s) -> getUserMedia env = Normal (stream s)).
Proof.
  cbv zeta. unfold connectLive, ensureAudioContext, bind, get. simpl.
  destruct (audioContext w) as [c|] eqn:E; simpl;
    destruct (getUserMedia env) as [tracks|e]; simpl;
    repeat apply conj; auto; try lia;
    try (intros s H; inversion H; reflexivity).
Qed.

(** The output context is made once and then shared: after a first session,
    whatever messages came and whether or not the session was stopped
    cleanly, the start of the next session creates no playback context, keeps
    the one there is, and creates one capture context of its own, with a
    handle that the first session did not have. *)
Theorem second_session_reuses_output_context
        (env1 env2 : Env) (msgs : list LiveServerMessage) (w : State)
        (s1 : Session) :
  completion (connectLive env1 w) = Normal (Some s1) ->
  let w1 := final (connectLive env1 w) in
  let w2 := final (deliver env1 msgs w1) in
  let w3 := final (stop env1 s1 w2) in
  let r := connectLive env2 w3 in
  createdAt 24000 (emitted r) = [] /\
  audioContext (final r) = audioContext w1 /\
  audioContext w1 <> None /\
  exists input,
    createdAt 16000 (emitted r) = [input] /\ input <> inputCtx s1.
Proof.
  intros Hs1. cbv zeta.
  destruct (connectLive_contexts env1 w) as [_ [_ [_ [A1 [F1 [I1 _]]]]]].
  specialize (I1 s1 Hs1).
  set (w1 := final (connectLive env1 w)) in *.
  destruct (kept_deliver env1 msgs w1) as [A2 [_ [_ [F2 _]]]].
  set (w2 := final (deliver env1 msgs w1)) in *.
  destruct (kept_stop env1 s1 w2) as [A3 [_ [_ [F3 _]]]].
  set (w3 := final (stop env1 s1 w2)) in *.
  destruct (connectLive_contexts env2 w3) as [C16 [C24 [_ [A4 _]]]].
  assert (E3 : audioContext w3 = audioContext w1) by congruence.
  rewrite E3, A1 in C24, C16, A4.
  split; [exact C24|]. split; [rewrite A4, A1; reflexivity|].
  split; [rewrite A1; discriminate|].
  exists (fresh w3). split; [exact C16|]. rewrite I1. lia.
Qed.

Lemma closedIn_trackStops (l : list Handle) : closedIn (map TrackStop l) = [].
Proof. induction l as [|x l IH]; simpl; auto. Qed.

Lemma closedIn_sourceStops (l : list Handle) : closedIn (map SourceStop l) = [].
Proof. induction l as [|x l IH]; simpl; auto. Qed.

(** A session that was started and is stopped closes the capture context
    that its own start created, stops the tracks that the microphone gave
    it, and leaves the playback context open, whatever was received in
    between. *)
Theorem stop_closes_what_start_opened
        (env : Env) (msgs : list LiveServerMessage) (w : State) (s : Session) :
  tidy w ->
  completion (connectLive env w) = Normal (Some s) ->
  (forall t, In t (stream s) -> trackStopThrows env t = false) ->
  let start := connectLive env w in
  let w2 := final (deliver env msgs (final start)) in
  let r := stop env s w2 in
  getUserMedia env = Normal (stream s) /\
  In (inputCtx s) (createdAt 16000 (emitted start)) /\
  closedIn (emitted r) = [inputCtx s] /\
  (forall t, In t (stream s) -> In (TrackStop t) (emitted r)) /\
  (forall c, audioContext w2 = Some c -> ~ In c (closedIn (emitted r))).
Proof.
  intros [_ [_ [Hctx _]]] Hs Ht. cbv zeta.
  destruct (connectLive_contexts env w) as [C16 [_ [_ [A1 [_ [I1 G1]]]]]].
  specialize (I1 s Hs). specialize (G1 s Hs).
  destruct (kept_deliver env msgs (final (connectLive env w)))
    as [A2 _].
  set (w2 := final (deliver env msgs (final (connectLive env w)))) in *.
  assert (Hr : emitted (stop env s w2)
               = map TrackStop (stream s) ++ [AudioContextClose (inputCtx s)]
                 ++ map SourceStop (activeSources w2)).
  { unfold stop, bind.
    rewrite (forOf_trackStop_run env (stream s) w2 Ht), closeContext_run,
      stopAudio_run. reflexivity. }
  assert (Hclosed : closedIn (emitted (stop env s w2)) = [inputCtx s]).
  { rewrite Hr. unfold closedIn. rewrite !flat_map_app.
    fold (closedIn (map TrackStop (stream s))).
    fold (closedIn (map SourceStop (activeSources w2))).
    rewrite closedIn_trackStops, closedIn_sourceStops. reflexivity. }
  split; [exact G1|]. split; [rewrite C16, I1; left; reflexivity|].
  split; [exact Hclosed|]. split.
  - intros t Hin. rewrite Hr. apply in_or_app. left.
    apply in_map. exact Hin.
  - intros c Hc. rewrite Hclosed, I1. intros [H|[]].
    rewrite A2, A1 in Hc. inversion Hc as [Hc'].
    destruct (audioContext w) as [c0|] eqn:E.
    + specialize (Hctx c0 eq_refl). lia.
    + lia.
Qed.

(** ** The history window *)

Lemma slice_last_length {A : Type} (n : nat) (l : list A) :
  List.length (slice_last n l) = Nat.min n (List.length l).
Proof. unfold slice_last. rewrite length_skipn. lia. Qed.

Lemma slice_last_suffix {A : Type} (n : nat) (l : list A) :
  firstn (List.length l - n) l ++ slice_last n l = l.
Proof. unfold slice_last. apply firstn_skipn. Qed.

Lemma slice_last_all {A : Type} (n : nat) (l : list A) :
  (List.length l <= n)%nat -> slice_last n l = l.
Proof.
  intros H. unfold slice_last.
  replace (List.length l - n)%nat with 0%nat by lia. apply skipn_0.
Qed.

Lemma slice_last_idem {A : Type} (n : nat) (l : list A) :
  slice_last n (slice_last n l) = slice_last n l.
Proof. apply slice_last_all. rewrite slice_last_length. lia. Qed.

(** The request of [sendChatMessage] carries the most recent messages of the
    history, at most ten, in their order, each as [user] or [model], and
    then the new text as [user]: never more than eleven entries, and the
    image only when there is image data. *)
Theorem chat_request_window
        (text : string) (history : list ChatMessage)
        (imageData : option string) :
  let cs := chatContents text history imageData in
  exists older recent,
    history = older ++ recent /\
    List.length recent = Nat.min 10 (List.length history) /\
    cs = map historyContent recent
         ++ [{| req_role := "user"; req_parts := currentParts text imageData |}]
    /\
    (List.length cs <= 11)%nat /\
    Forall (fun c => req_role c = "user"%string \/ req_role c = "model"%string)
      cs /\
    (truthy imageData = false -> currentParts text imageData = [TextPart text]).
Proof.
  cbv zeta.
  exists (firstn (List.length history - 10) history), (slice_last 10 history).
  split; [symmetry; apply slice_last_suffix|].
  split; [apply slice_last_length|]. split; [reflexivity|]. split.
  - unfold chatContents. rewrite length_app, length_map, slice_last_length.
    simpl List.length. lia.
  - split.
    + unfold chatContents. apply Forall_app. split.
      * apply Forall_forall. intros c Hc. apply in_map_iff in Hc.
        destruct Hc as [m [Hm _]]. subst c. unfold historyContent. simpl.
        destruct (msg_role m); auto.
      * repeat constructor.
    + unfold currentParts. intros H. destruct imageData as [d|]; [|reflexivity].
      rewrite H. reflexivity.
Qed.

Lemma joined_skip_empty (l : list (option string)) :
  joined
    (map chunk_text
       (flat_map (fun c => if String.eqb (chunkText c) "" then []
                           else [{| chunk_text := chunkText c;
                                    isFinal := false |}]) l))
  = joined (map chunkText l).
Proof.
  induction l as [|c l IH]; [reflexivity|].
  simpl. destruct (String.eqb (chunkText c) "") eqn:E.
  - apply String.eqb_eq in E. rewrite E. simpl. exact IH.
  - simpl. rewrite IH. reflexivity.
Qed.

Lemma chatYields_joined (stream : ResponseStream) :
  joined (map chunk_text (fst (chatYields stream)))
  = joined (map chunkText (chunks stream)).
Proof.
  unfold chatYields. simpl. rewrite map_app, joined_app, joined_skip_empty.
  destruct (failure stream); simpl; rewrite append_nil_r; reflexivity.
Qed.

(** What [sendChatMessage] yields: the chunks of the stream that have text,
    in order and never an empty one, so that the texts yielded concatenate
    to the texts streamed; then the final marker, once and last, when the
    stream ends, and no marker but the error when it breaks off. *)
Theorem chat_yields_keep_the_text (stream : ResponseStream) :
  let ys := fst (chatYields stream) in
  joined (map chunk_text ys) = joined (map chunkText (chunks stream)) /\
  Forall (fun y => isFinal y = false -> chunk_text y <> ""%string) ys /\
  (failure stream = None ->
     snd (chatYields stream) = Normal tt /\
     exists front,
       ys = front ++ [{| chunk_text := ""; isFinal := true |}] /\
       Forall (fun y => isFinal y = false) front) /\
  (forall e, failure stream = Some e ->
     snd (chatYields stream) = Throw e /\
     Forall (fun y => isFinal y = false) ys).
Proof.
  cbv zeta. unfold chatYields. simpl.
  set (f := fun c : option string =>
              if String.eqb (chunkText c) "" then []
              else [{| chunk_text := chunkText c; isFinal := false |}]).
  assert (Hnf : Forall (fun y => isFinal y = false)
                  (flat_map f (chunks stream))).
  { apply Forall_forall. intros y Hy. apply in_flat_map in Hy.
    destruct Hy as [c [_ Hc]]. unfold f in Hc.
    destruct (String.eqb (chunkText c) ""); [destruct Hc|].
    destruct Hc as [Hc|[]]. subst y. reflexivity. }
  assert (Hne : Forall (fun y => isFinal y = false -> chunk_text y <> ""%string)
                  (flat_map f (chunks stream))).
  { apply Forall_forall. intros y Hy _. apply in_flat_map in Hy.
    destruct Hy as [c [_ Hc]]. unfold f in Hc.
    destruct (String.eqb (chunkText c) "") eqn:E; [destruct Hc|].
    destruct Hc as [Hc|[]]. subst y. simpl.
    apply String.eqb_neq. exact E. }
  repeat apply conj.
  - apply (chatYields_joined stream).
  - apply Forall_app. split; [exact Hne|].
    destruct (failure stream); repeat constructor. discriminate.
  - intros H. rewrite H. split; [reflexivity|].
    exists (flat_map f (chunks stream)). split; [reflexivity|exact Hnf].
  - intros e H. rewrite H. split; [reflexivity|].
    rewrite app_nil_r. exact Hnf.
Qed.

(** ** A text exchange *)

Lemma appendText_others (aid text : string) (l : list ChatMessage) :
  Forall (fun m => msg_id m <> aid) l -> appendText aid text l = l.
Proof.
  induction 1 as [|m l Hm _ IH]; [reflexivity|].
  unfold appendText in *. cbn [map]. apply String.eqb_neq in Hm.
  rewrite Hm, IH. reflexivity.
Qed.

Lemma fold_appendText (clock : SubmitClock) (pre : list ChatMessage)
      (ys : list ChatChunk) :
  Forall (fun m => msg_id m <> assistantId clock) pre ->
  forall text,
    fold_left (fun ms ch => appendText (assistantId clock) (chunk_text ch) ms)
      ys (pre ++ [replyMessage clock text])
    = pre ++ [replyMessage clock (text ++ joined (map chunk_text ys))].
Proof.
  intros Hpre. induction ys as [|y ys IH]; intros text.
  - simpl. rewrite append_nil_r. reflexivity.
  - simpl fold_left. unfold appendText at 2. rewrite map_app.
    fold (appendText (assistantId clock) (chunk_text y) pre).
    rewrite (appendText_others _ Hpre). simpl map.
    rewrite String.eqb_refl.
    change {| msg_id := assistantId clock; msg_role := ASSISTANT;
              msg_content := text ++ chunk_text y;
              msg_timestamp := replyAt clock; msg_isVoice := false |}
      with (replyMessage clock (text ++ chunk_text y)).
    rewrite IH. simpl. rewrite append_assoc. reflexivity.
Qed.

(** A text submitted while nothing is being processed: playback is stopped;
    the list of messages becomes the last nine messages, the user's message,
    and the reply, whose content is the concatenation of all the chunks
    streamed; when the stream breaks off, the reply keeps what had come and
    an [UPLINK_ERROR] message follows it.  The request is made from the
    messages as they were before. *)
Theorem submit_shows_the_whole_reply
        (env : Env) (trimmedInput : string) (clock : SubmitClock)
        (lastFrame : option string) (stream : ResponseStream)
        (app : Chat) (w : State) :
  trimmedInput <> ""%string ->
  isProcessing app = false ->
  Forall (fun m => msg_id m <> assistantId clock)
    (slice_last 9 (messages app)) ->
  decimal (userIdAt clock) <> assistantId clock ->
  let r := handleSubmitInput env trimmedInput clock lastFrame stream app w in
  exists out,
    completion r = Normal out /\
    messages (chat out)
    = slice_last 9 (messages app)
      ++ [userMessage trimmedInput clock;
          replyMessage clock (joined (map chunkText (chunks stream)))]
      ++ match failure stream with
         | None => []
         | Some e => [errorMessage clock e]
         end /\
    request out = Some (chatContents trimmedInput (messages app) lastFrame) /\
    inputText (chat out) = ""%string /\
    isProcessing (chat out) = false /\
    activeSources (final r) = [] /\
    emitted r = map SourceStop (activeSources w).
Proof.
  intros Hin Hproc Hids Hu. cbv zeta. unfold handleSubmitInput.
  apply String.eqb_neq in Hin. rewrite Hin, Hproc. cbn [orb].
  unfold bind. rewrite stopAudio_run. unfold ret. cbn [completion final emitted].
  eexists. split; [reflexivity|]. cbn [chat messages request inputText isProcessing].
  repeat apply conj; try reflexivity; [|rewrite app_nil_r; reflexivity].
  unfold submittedMessages. cbv zeta.
  assert (Hpre : Forall (fun m => msg_id m <> assistantId clock)
                   (slice_last 9 (messages app)
                    ++ [userMessage trimmedInput clock])).
  { apply Forall_app. split; [exact Hids|]. repeat constructor. exact Hu. }
  rewrite (@fold_appendText clock _ (fst (chatYields stream)) Hpre).
  rewrite chatYields_joined. simpl append.
  unfold chatYields. simpl snd.
  destruct (failure stream); rewrite <- !app_assoc; reflexivity.
Qed.

(** What is written to the history cache and read back at start: the last
    ten messages, in order; an empty list is never written (the cache is
    left as it is, whatever it holds), so that after a purge nothing comes
    back. *)
Theorem history_round_trip
        (msgs : list ChatMessage) (cache : option (list ChatMessage)) :
  (msgs <> [] ->
     loadHistory (saveHistory msgs cache) [] = slice_last 10 msgs /\
     (List.length (loadHistory (saveHistory msgs cache) []) <= 10)%nat /\
     exists older,
       msgs = older ++ loadHistory (saveHistory msgs cache) []) /\
  saveHistory [] cache = cache /\
  loadHistory
    (saveHistory (fst (handlePurgeHistory (msgs, cache)))
       (snd (handlePurgeHistory (msgs, cache)))) [] = [].
Proof.
  split; [|split; reflexivity].
  intros Hne. destruct msgs as [|m msgs]; [congruence|].
  unfold saveHistory, loadHistory. rewrite slice_last_idem.
  split; [reflexivity|]. split.
  - rewrite slice_last_length. lia.
  - eexists. symmetry. apply slice_last_suffix.
Qed.

(** ** Voice turns in the history *)

Lemma noInput_inFragment (m : LiveServerMessage) :
  noInputTranscription m -> inFragment m = ""%string.
Proof.
  unfold noInputTranscription, inFragment, inText. intros H.
  destruct (serverContent m) as [c|]; [|reflexivity].
  rewrite (H c eq_refl). destruct (outputTranscription c); reflexivity.
Qed.

Lemma deliver_without_input (env : Env) (msgs : list LiveServerMessage) :
  Forall noInputTranscription msgs ->
  forall w,
    currentInputTranscription w = ""%string ->
    currentInputTranscription (final (deliver env msgs w)) = ""%string /\
    Forall (fun t => fst t = ""%string)
      (turnsOf (emitted (deliver env msgs w))).
Proof.
  induction 1 as [|m msgs Hm _ IH]; intros w Hw.
  - simpl. auto.
  - unfold deliver in *. simpl forOf.
    destruct (try_catch_run (onmessage env m) w) as [C [F E]].
    rewrite (run_bind_normal _ _ w C). cbn [completion final emitted].
    rewrite F, E.
    assert (H1 : currentInputTranscription (final (onmessage env m w))
                 = ""%string /\
                 Forall (fun t => fst t = ""%string)
                   (turnsOf (emitted (onmessage env m w)))).
    { destruct (reaches env m) eqn:Hr.
      - destruct (onmessage_reached env m w Hr) as [_ [_ [I [T _]]]].
        rewrite I, T, Hw, (noInput_inFragment Hm).
        destruct (completes m); simpl; auto.
      - destruct (onmessage_unreached env m w Hr) as [_ [Hf [He _]]].
        rewrite Hf, He. split; [exact Hw|].
        destruct (tools_frame env m w) as [_ [Ht [Hq _]]].
        replace (turnsOf (emitted (tools env m w)))
          with (@nil (string * string))
          by (symmetry; unfold turnsOf; silent toolEvent).
        constructor. }
    destruct H1 as [H1 H2]. destruct (IH _ H1) as [H3 H4].
    split; [exact H3|]. unfold turnsOf in *. rewrite flat_map_app.
    apply Forall_app. split; assumption.
Qed.

(** With input transcription off, as the session is configured, every voice
    turn is entered in the history as the placeholder [[Voice Input]] for
    the user, followed by the reply (or its placeholder), after the last
    eight messages: the history never exceeds ten messages. *)
Theorem voice_turn_enters_history
        (env : Env) (msgs : list LiveServerMessage) (w : State)
        (i o : string) (now : N) (prev : list ChatMessage) :
  currentInputTranscription w = ""%string ->
  Forall noInputTranscription msgs ->
  In (i, o) (turnsOf (emitted (deliver env msgs w))) ->
  voiceTurn i o now prev
  = slice_last 8 prev
    ++ [{| msg_id := "v-in-" ++ decimal now; msg_role := USER;
           msg_content := "[Voice Input]";
           msg_timestamp := now; msg_isVoice := true |};
        {| msg_id := "v-out-" ++ decimal now; msg_role := ASSISTANT;
           msg_content := orDefault o "[Neural Output]";
           msg_timestamp := now + 1; msg_isVoice := true |}] /\
  (List.length (voiceTurn i o now prev) <= 10)%nat.
Proof.
  intros Hw Hall Hin.
  destruct (deliver_without_input env Hall w Hw) as [_ Hturns].
  rewrite Forall_forall in Hturns. specialize (Hturns _ Hin). simpl in Hturns.
  subst i. split; [reflexivity|].
  unfold voiceTurn. rewrite length_app, slice_last_length. simpl List.length.
  lia.
Qed.

(** ** The voice button *)

Lemma emits_bind {A B : Type} (P : Event -> Prop) (m : Js A) (k : A -> Js B) :
  emits P m -> (forall a, emits P (k a)) -> emits P (bind m k).
Proof.
  intros Hm Hk w. unfold bind. specialize (Hm w).
  destruct (m w) as [[a|e] w1 e1]; [|exact Hm].
  specialize (Hk a w1). destruct (k a w1) as [c w2 e2]. simpl in *.
  apply Forall_app. split; assumption.
Qed.

Lemma emits_forOf {A : Type} (P : Event -> Prop) (f : A -> Js unit)
      (l : list A) :
  (forall x, emits P (f x)) -> emits P (forOf f l).
Proof.
  intros Hf. induction l as [|x l IH].
  - intros w. constructor.
  - simpl. apply emits_bind; [apply Hf|]. intros _. exact IH.
Qed.

Lemma emits_try_catch (P : Event -> Prop) (m : Js unit) :
  emits P m -> emits P (try_catch m).
Proof.
  intros Hm w. unfold try_catch. specialize (Hm w).
  destruct (m w) as [c w1 e1]. exact Hm.
Qed.

Lemma toolEvents_messageEvents (evs : list Event) :
  forallb toolEvent evs = true -> Forall messageEvent evs.
Proof.
  intros H. rewrite forallb_forall in H. apply Forall_forall. intros e He.
  specialize (H e He). destruct e; simpl in *; (exact I || discriminate).
Qed.

Lemma content_emits_message_events (env : Env) (m : LiveServerMessage) :
  emits messageEvent (content env m).
Proof.
  unfold content. apply emits_bind.
  - apply emits_forOf. intros p w.
    destruct (schedule_frame p w) as [_ [_ [_ Ha]]].
    rewrite forallb_forall in Ha. apply Forall_forall. intros e He.
    specialize (Ha e He). destruct e; simpl in *; (exact I || discriminate).
  - intros _. apply emits_bind.
    + intros w. unfold accumulate. destruct (serverContent m) as [c|];
        [|constructor].
      destruct (outputTranscription c), (inputTranscription c);
        repeat constructor.
    + intros _. apply emits_bind.
      * intros w. unfold completeTurn.
        destruct (serverContent m) as [c|]; [|constructor].
        destruct (turnComplete c); repeat constructor.
      * intros _ w. unfold onInterrupted.
        destruct (serverContent m) as [c|]; [|constructor].
        destruct (interrupted c); [|constructor].
        rewrite stopAudio_run. simpl. apply Forall_forall.
        intros e He. apply in_map_iff in He. destruct He as [x [Hx _]].
        subst e. exact I.
Qed.

Lemma onmessage_emits_message_events (env : Env) (m : LiveServerMessage) :
  emits messageEvent (onmessage env m).
Proof.
  intros w. destruct (tools_frame env m w) as [_ [Ht [Hp _]]].
  apply toolEvents_messageEvents in Ht.
  apply toolEvents_messageEvents in Hp.
  destruct (reaches env m) eqn:Hr.
  - destruct (onmessage_run env m w Hr) as [_ [_ He]]. rewrite He.
    pose proof (content_emits_message_events env m w) as Hc.
    destruct (awaited (partsOf m) w); repeat (apply Forall_app; split);
      try assumption; constructor.
  - destruct (onmessage_unreached env m w Hr) as [_ [_ [He _]]].
    rewrite He. exact Ht.
Qed.

Lemma deliver_emits_message_events
      (env : Env) (msgs : list LiveServerMessage) :
  emits messageEvent (deliver env msgs).
Proof.
  unfold deliver. apply emits_forOf. intros m. apply emits_try_catch.
  apply onmessage_emits_message_events.
Qed.

Lemma messageEvents_closedIn (evs : list Event) :
  Forall messageEvent evs -> closedIn evs = [].
Proof.
  induction 1 as [|e evs He _ IH]; [reflexivity|].
  simpl. rewrite IH. destruct e; simpl in *; (reflexivity || destruct He).
Qed.

Lemma messageEvents_createdAt (rate : N) (evs : list Event) :
  Forall messageEvent evs -> createdAt rate evs = [].
Proof.
  induction 1 as [|e evs He _ IH]; [reflexivity|].
  simpl. rewrite IH. destruct e; simpl in *; (reflexivity || destruct He).
Qed.

Lemma messageEvents_react (evs : list Event) :
  Forall messageEvent evs -> forall v, react evs v = v.
Proof.
  unfold react. induction 1 as [|e evs He _ IH]; intros v; [reflexivity|].
  simpl. destruct e; simpl in *; (apply IH || destruct He).
Qed.

Lemma closedIn_app (a b : list Event) :
  closedIn (a ++ b) = closedIn a ++ closedIn b.
Proof. apply flat_map_app. Qed.

Lemma stop_closes_only_its_context (env : Env) (s : Session) (w : State) :
  forall c, In c (closedIn (emitted (stop env s w))) -> c = inputCtx s.
Proof.
  intros c. unfold stop, bind.
  assert (Ht : forall l w0,
             closedIn (emitted (forOf (trackStop env) l w0)) = [] /\
             final (forOf (trackStop env) l w0) = w0).
  { induction l as [|t l IH]; intros w0; [simpl; auto|].
    simpl forOf. unfold bind.
    assert (Hrun : trackStop env t w0
                   = {| completion := if trackStopThrows env t
                                      then Throw "TrackStopError"
                                      else Normal tt;
                        final := w0; emitted := [TrackStop t] |}).
    { unfold trackStop, bind, emit. simpl.
      destruct (trackStopThrows env t); reflexivity. }
    rewrite Hrun. destruct (trackStopThrows env t); [simpl; auto|].
    destruct (IH w0) as [IH1 IH2].
    destruct (forOf (trackStop env) l w0) as [c0 w1 e1]. simpl in *. auto. }
  destruct (Ht (stream s) w) as [Hc Hf].
  destruct (forOf (trackStop env) (stream s) w) as [[[]|e] w1 e1];
    simpl in *.
  - rewrite closeContext_run, stopAudio_run. simpl.
    rewrite closedIn_app, Hc. simpl. rewrite closedIn_sourceStops.
    intros [H|[]]. auto.
  - rewrite Hc. intros [].
Qed.

Lemma react_keeps (evs : list Event) :
  forall v,
    liveSessionRef (react evs v) = liveSessionRef v /\
    (voiceActive (react evs v) = true -> voiceActive v = true).
Proof.
  unfold react. induction evs as [|e evs IH]; intros v; [simpl; auto|].
  simpl fold_left.
  destruct (IH (match e with
                | OnError message => onErrorCallback message v
                | _ => v
                end)) as [IH1 IH2].
  rewrite IH1. split.
  - destruct e; reflexivity.
  - intros H. specialize (IH2 H). destruct e; try exact IH2.
    simpl in IH2. discriminate.
Qed.

Lemma connectLive_completes (env : Env) (w : State) :
  exists o, completion (connectLive env w) = Normal o.
Proof.
  unfold connectLive, ensureAudioContext, bind, get. simpl.
  destruct (audioContext w); simpl; destruct (getUserMedia env); simpl;
    eexists; reflexivity.
Qed.

(** One event keeps what makes a forgotten session unreachable: its context
    [c] is older than every handle to come, and whenever the button shows
    an active session, that session is another one. *)
Lemma appStep_spares (c : Handle) (e : AppEvent) (v : Voice) (w : State) :
  (c < fresh w)%nat ->
  (voiceActive v = true ->
   forall s, liveSessionRef v = Some s -> inputCtx s <> c) ->
  let v1 := fst (appStep e v w) in
  let r := snd (appStep e v w) in
  ~ In c (closedIn (emitted r)) /\
  (c < fresh (final r))%nat /\
  (voiceActive v1 = true ->
   forall s, liveSessionRef v1 = Some s -> inputCtx s <> c).
Proof.
  intros Hc Hv. cbv zeta. destruct e as [env|code|message|env msgs].
  - simpl. unfold toggleVoice. destruct (voiceActive v) eqn:Ha.
    + specialize (Hv eq_refl).
      destruct (liveSessionRef v) as [s|] eqn:Hs.
      * pose proof (stop_closes_only_its_context env s w) as Hclose.
        destruct (kept_stop env s w) as [_ [_ [_ [Hf _]]]].
        destruct (completion (stop env s w)) eqn:Ec; simpl.
        -- repeat apply conj.
           ++ intros Hin. apply Hclose in Hin. apply (Hv s eq_refl).
              symmetry. exact Hin.
           ++ lia.
           ++ discriminate.
        -- repeat apply conj.
           ++ intros Hin. apply Hclose in Hin. apply (Hv s eq_refl).
              symmetry. exact Hin.
           ++ lia.
           ++ intros _ s' Hs'. rewrite Hs in Hs'. inversion Hs'; subst.
              apply Hv. reflexivity.
      * simpl. repeat apply conj; auto; try discriminate.
    + destruct (connectLive_contexts env w)
        as [_ [_ [Hcl [_ [Hlt [Hin _]]]]]].
      assert (Hfresh : (fresh w <= fresh (final (connectLive env w)))%nat).
      { destruct (audioContext w); lia. }
      destruct (completion (connectLive env w)) as [[s|]|e] eqn:Ec; simpl;
        rewrite Hcl; repeat apply conj; auto; try lia.
      * intros _ s' Hs'. inversion Hs'; subst s'.
        rewrite (Hin s eq_refl). destruct (audioContext w); lia.
      * exfalso. destruct (connectLive_completes env w) as [o Ho].
        congruence.
  - simpl. repeat apply conj; auto; try discriminate.
  - simpl. repeat apply conj; auto; try discriminate.
  - simpl.
    rewrite (messageEvents_closedIn (deliver_emits_message_events env msgs w)).
    destruct (kept_deliver env msgs w) as [_ [_ [_ [Hf _]]]].
    destruct (react_keeps (emitted (deliver env msgs w)) v) as [R1 R2].
    repeat apply conj; auto; try lia.
    intros H s Hs. rewrite R1 in Hs. apply (Hv (R2 H) s Hs).
Qed.

Lemma appRun_spares (c : Handle) (es : list AppEvent) :
  forall v w,
    (c < fresh w)%nat ->
    (voiceActive v = true ->
     forall s, liveSessionRef v = Some s -> inputCtx s <> c) ->
    ~ In c (closedIn (snd (appRun es v w))).
Proof.
  induction es as [|e es IH]; intros v w Hc Hv; [intros []|].
  destruct (appStep_spares e v w Hc Hv) as [H1 [H2 H3]].
  simpl appRun. destruct (appStep e v w) as [v1 r]. simpl in H1, H2, H3.
  specialize (IH v1 (final r) H2 H3).
  destruct (appRun es v1 (final r)) as [[v2 w2] evs]. simpl in *.
  rewrite closedIn_app. intros Hin. apply in_app_or in Hin. tauto.
Qed.

(** When the channel of a session closes or fails, the application marks
    voice as off and keeps the session without stopping it.  Nothing that
    follows, each event handled before the next one comes (presses of the
    button, with the microphone granted or refused, more errors, more
    messages), ever closes the capture context of that session: the next
    press starts a new session over it. *)
Theorem ended_session_is_never_closed
        (first : AppEvent) (es : list AppEvent) (v : Voice) (w : State)
        (s : Session) :
  ends first = true ->
  liveSessionRef v = Some s ->
  (inputCtx s < fresh w)%nat ->
  let v1 := fst (appStep first v w) in
  voiceActive v1 = false /\
  liveSessionRef v1 = Some s /\
  ~ In (inputCtx s) (closedIn (snd (appRun (first :: es) v w))).
Proof.
  intros Hfirst Hs Hc. cbv zeta.
  assert (H : voiceActive (fst (appStep first v w)) = false /\
              liveSessionRef (fst (appStep first v w)) = Some s /\
              emitted (snd (appStep first v w))
              = match first with
                | Closed code => emitted (onclose code w)
                | Failed message => emitted (onerror message w)
                | _ => []
                end /\
              final (snd (appStep first v w)) = w).
  { destruct first; try discriminate; simpl; auto. }
  destruct H as [Ha [Hr [He Hf]]]. split; [exact Ha|]. split; [exact Hr|].
  simpl appRun. destruct (appStep first v w) as [v1 r]. simpl in *.
  assert (Hspare : ~ In (inputCtx s)
                     (closedIn (snd (appRun es v1 (final r))))).
  { apply appRun_spares; [rewrite Hf; exact Hc|].
    rewrite Ha. discriminate. }
  destruct (appRun es v1 (final r)) as [[v2 w2] evs]. simpl in *.
  rewrite closedIn_app, He. intros Hin. apply in_app_or in Hin.
  destruct Hin as [Hin|Hin]; [|tauto].
  destruct first; try discriminate; simpl in Hin; exact Hin.
Qed.

Lemma createdAt_app (rate : N) (a b : list Event) :
  createdAt rate (a ++ b) = createdAt rate a ++ createdAt rate b.
Proof. apply flat_map_app. Qed.

Lemma createdAt_trackStops (rate : N) (l : list Handle) :
  createdAt rate (map TrackStop l) = [].
Proof. induction l as [|x l IH]; simpl; auto. Qed.

Lemma createdAt_sourceStops (rate : N) (l : list Handle) :
  createdAt rate (map SourceStop l) = [].
Proof. induction l as [|x l IH]; simpl; auto. Qed.

Lemma connectLive_granted (env : Env) (w : State) (tracks : list Handle) :
  getUserMedia env = Normal tracks ->
  exists s,
    completion (connectLive env w) = Normal (Some s) /\
    stream s = tracks /\
    createdAt 16000 (emitted (connectLive env w)) = [inputCtx s] /\
    closedIn (emitted (connectLive env w)) = [] /\
    (forall v, react (emitted (connectLive env w)) v = v) /\
    (forall t, ~ In (TrackStop t) (emitted (connectLive env w))).
Proof.
  intros Hm. unfold connectLive, ensureAudioContext, bind, get. simpl.
  rewrite Hm. destruct (audioContext w); simpl;
    (eexists; repeat apply conj; try reflexivity;
     intros t H; simpl in H; intuition discriminate).
Qed.

(** The button pressed to start and, after any messages, pressed again to
    stop: the second press closes the capture context that the first
    created and stops the tracks of the microphone, and leaves voice off
    with no session kept. *)
Theorem toggle_off_releases_the_session
        (env env' envm : Env) (msgs : list LiveServerMessage)
        (v : Voice) (w : State) (tracks : list Handle) :
  voiceActive v = false ->
  getUserMedia env = Normal tracks ->
  (forall t, In t tracks -> trackStopThrows env' t = false) ->
  let result := appRun [Toggle env; Received envm msgs; Toggle env'] v w in
  voiceActive (fst (fst result)) = false /\
  liveSessionRef (fst (fst result)) = None /\
  (exists c, createdAt 16000 (snd result) = [c] /\
             closedIn (snd result) = [c]) /\
  (forall t, In t tracks -> In (TrackStop t) (snd result)) /\
  activeSources (snd (fst result)) = [].
Proof.
  intros Hv Hm Ht. cbv zeta.
  destruct (connectLive_granted env w Hm)
    as [s [Hc [Hs [H16 [Hcl [Hre _]]]]]].
  unfold appRun, appStep, toggleVoice. rewrite Hv, Hc. cbn [final emitted].
  rewrite Hre.
  set (w1 := final (connectLive env w)).
  pose proof (deliver_emits_message_events envm msgs w1) as Hmsg.
  rewrite (messageEvents_react Hmsg). cbn [voiceActive liveSessionRef].
  set (w2 := final (deliver envm msgs w1)).
  assert (Hstop : stop env' s w2
                  = {| completion := Normal tt;
                       final := set_nextStartTime 0 (set_activeSources [] w2);
                       emitted := map TrackStop tracks
                                  ++ [AudioContextClose (inputCtx s)]
                                  ++ map SourceStop (activeSources w2) |}).
  { unfold stop, bind. rewrite Hs.
    rewrite (forOf_trackStop_run env' tracks w2 Ht), closeContext_run,
      stopAudio_run. reflexivity. }
  rewrite Hstop. cbn [completion final emitted fst snd voiceActive
                      liveSessionRef]. rewrite ?app_nil_r.
  repeat apply conj; try reflexivity.
  - exists (inputCtx s).
    rewrite !createdAt_app, !closedIn_app, H16, Hcl,
      (messageEvents_createdAt _ Hmsg), (messageEvents_closedIn Hmsg),
      closedIn_trackStops, closedIn_sourceStops, createdAt_trackStops,
      createdAt_sourceStops.
    split; reflexivity.
  - intros t Hin. apply in_or_app. right. apply in_or_app. right.
    apply in_or_app. left. apply in_map. exact Hin.
Qed.

(** ** The tool handler of the application *)

Lemma volume_level_bounds (l : Q) :
  0 <= Qmax 0 (Qmin 100 l) / 100 <= 1 /\
  (0 <= l <= 100 -> Qmax 0 (Qmin 100 l) / 100 == l / 100).
Proof.
  assert (H0 : 0 <= Qmax 0 (Qmin 100 l)) by apply Q.le_max_l.
  assert (H1 : Qmax 0 (Qmin 100 l) <= 100).
  { apply Q.max_lub; [discriminate|apply Q.le_min_l]. }
  split; [split|].
  - apply Qle_shift_div_l; [reflexivity|]. lra.
  - apply Qle_shift_div_r; [reflexivity|]. lra.
  - intros [Hl Hu]. rewrite (Q.min_r 100 l Hu), (Q.max_r 0 l Hl). reflexivity.
Qed.

(** The clamp of line 436 on a level that is a number or an infinity: the
    volume is a number between 0 and 1. *)
Lemma clamp_bounds (l : JsNumber) :
  l <> NaN ->
  exists v,
    over (mathMax (Finite 0) (mathMin (Finite 100) l)) 100 = Finite v /\
    0 <= v <= 1 /\
    (forall q, l = Finite q -> 0 <= q <= 100 -> v == q / 100).
Proof.
  intros Hl. destruct l as [q| | |]; [| congruence | |]; simpl.
  - exists (Qmax 0 (Qmin 100 q) / 100).
    destruct (volume_level_bounds q) as [Hb He].
    split; [reflexivity|]. split; [exact Hb|].
    intros q' Hq Hr. inversion Hq; subst. apply He. exact Hr.
  - exists (Qmax 0 100 / 100). split; [reflexivity|].
    split; [split; discriminate|]. intros q Hq. discriminate.
  - exists (0 / 100). split; [reflexivity|].
    split; [split; discriminate|]. intros q Hq. discriminate.
Qed.

(** A [set_volume] call.  Without an [args] object the handler rejects and
    changes nothing.  With one it answers and touches neither the playback
    rate nor the messages nor the detections.  A level that is a number
    leaves a volume between 0 and 1 (the level over 100 when it is between
    0 and 100); once these settings reach the service, the gain is aimed at
    that volume and neither the clock nor the chunks playing are disturbed.
    A level that is not a number passes the clamp: the volume is [NaN]. *)
Theorem set_volume_clamps
        (b : Builtins) (random : nat -> Q) (args : option ToolArgs) (h : Hud)
        (now : Q) (w : State) :
  let res := appToolCall b random "set_volume" args h in
  let h' := fst res in
  (args = None -> res = (h, Throw "TypeError"%string)) /\
  (forall a, args = Some a ->
     (exists text, snd res = Normal text) /\
     hud_speed h' = hud_speed h /\
     hud_messages h' = hud_messages h /\
     hud_detections h' = hud_detections h /\
     (args_level a = NaN ->
        hud_volume h' = NaN /\ audioSettingsOf h' = None) /\
     (args_level a <> NaN ->
        exists v,
          hud_volume h' = Finite v /\
          0 <= v <= 1 /\
          (forall l, args_level a = Finite l -> 0 <= l <= 100 ->
                     v == l / 100) /\
          audioSettingsOf h' = Some {| volume := v; speed := hud_speed h |} /\
          let r := setAudioSettings {| volume := v; speed := hud_speed h |}
                     now w in
          speed (currentAudioSettings (final r)) = hud_speed h /\
          nextStartTime (final r) = nextStartTime w /\
          activeSources (final r) = activeSources w /\
          (forall n t s c, In (GainTarget n t s c) (emitted r) ->
                           0 <= t <= 1))).
Proof.
  cbv zeta. unfold appToolCall. simpl String.eqb. cbv iota. split.
  - intros Ha. rewrite Ha. reflexivity.
  - intros a Ha. rewrite Ha. cbn [fst snd].
    cbn [hud_speed hud_messages hud_detections hud_volume].
    split; [eexists; reflexivity|]. repeat (split; [reflexivity|]). split.
    + intros Hn. unfold audioSettingsOf. cbn [hud_volume]. rewrite Hn.
      split; reflexivity.
    + intros Hn. destruct (clamp_bounds Hn) as [v [Hv [Hb He]]].
      exists v. unfold audioSettingsOf. cbn [hud_volume hud_speed].
      rewrite Hv. split; [reflexivity|]. split; [exact Hb|].
      split; [exact He|]. split; [reflexivity|].
      unfold setAudioSettings, bind, get, modify. simpl.
      destruct (outputNode w), (audioContext w); simpl;
        repeat (split; [reflexivity|]); intros n t s c Hin; try tauto.
      destruct Hin as [Hin|[]]. inversion Hin; subst. exact Hb.
Qed.

Lemma sameLabel_eq (a b : Label) : sameLabel a b = true <-> a = b.
Proof.
  destruct a as [x| |x|x], b as [y| |y|y]; simpl; split; intros H;
    try discriminate; try reflexivity.
  - apply String.eqb_eq in H. subst. reflexivity.
  - inversion H. apply String.eqb_refl.
  - apply String.eqb_eq in H. subst. reflexivity.
  - inversion H. apply String.eqb_refl.
  - apply Nat.eqb_eq in H. subst. reflexivity.
  - inversion H. apply Nat.eqb_refl.
Qed.

Lemma retarget_keeps (args : ToolArgs) (random : nat -> Q)
      (prev : list Detection) :
  forall k,
    map det_label (retarget args random k prev) = map det_label prev /\
    map boxOf (retarget args random k prev) = map boxOf prev /\
    map det_id (retarget args random k prev) = map det_id prev /\
    (forall d, In d (retarget args random k prev) ->
               det_label d = args_label args ->
               opacity d = 1 /\
               (targetX d, targetY d, targetW d, targetH d)
               = (args_x args, args_y args, args_w args, args_h args)).
Proof.
  induction prev as [|d rest IH]; intros k.
  - simpl. repeat apply conj; auto. intros d [].
  - simpl. destruct (sameLabel (det_label d) (args_label args)) eqn:E.
    + destruct (IH (S (S k))) as [I1 [I2 [I3 I4]]]. simpl.
      rewrite I1, I2, I3. repeat apply conj; auto.
      intros d' [H|H] Hl; [subst d'; simpl; auto|apply I4; assumption].
    + destruct (IH k) as [I1 [I2 [I3 I4]]]. simpl.
      rewrite I1, I2, I3. repeat apply conj; auto.
      intros d' [H|H] Hl; [|apply I4; assumption].
      subst d'. apply sameLabel_eq in Hl. congruence.
Qed.

(** [draw_detection] draws by label: a label already on the display keeps
    its box, its id and its place in the list, and gets the new target and
    full opacity; a new label is added at the end, at its target.  The
    display never comes to show a label twice. *)
Theorem draw_detection_upserts
        (b : Builtins) (args : ToolArgs) (random : nat -> Q)
        (prev : list Detection) :
  let new := drawDetection b args random prev in
  In (args_label args) (map det_label new) /\
  (In (args_label args) (map det_label prev) ->
     map det_label new = map det_label prev /\
     map boxOf new = map boxOf prev /\
     map det_id new = map det_id prev) /\
  (~ In (args_label args) (map det_label prev) ->
     exists d, new = prev ++ [d] /\
               boxOf d = (args_x args, args_y args, args_w args, args_h args)) /\
  (forall d, In d new -> det_label d = args_label args ->
             opacity d = 1 /\
             (targetX d, targetY d, targetW d, targetH d)
             = (args_x args, args_y args, args_w args, args_h args)) /\
  (NoDup (map det_label prev) -> NoDup (map det_label new)).
Proof.
  cbv zeta. unfold drawDetection.
  destruct (existsb (fun d => sameLabel (det_label d) (args_label args)) prev)
    eqn:E.
  - apply existsb_exists in E. destruct E as [d0 [Hd0 Hl0]].
    apply sameLabel_eq in Hl0.
    assert (Hin : In (args_label args) (map det_label prev))
      by (rewrite <- Hl0; apply in_map; exact Hd0).
    destruct (retarget_keeps args random prev 0) as [R1 [R2 [R3 R4]]].
    rewrite R1. repeat apply conj; auto. intros Hn. contradiction.
  - assert (Hout : ~ In (args_label args) (map det_label prev)).
    { intros Hin. apply in_map_iff in Hin. destruct Hin as [d [Hl Hd]].
      assert (Ht : existsb
                     (fun d => sameLabel (det_label d) (args_label args)) prev
                   = true).
      { apply existsb_exists. exists d. split; [exact Hd|].
        apply sameLabel_eq. exact Hl. }
      congruence. }
    rewrite map_app. simpl. repeat apply conj.
    + apply in_or_app. right. left. reflexivity.
    + intros Hin. contradiction.
    + intros _. eexists. split; reflexivity.
    + intros d Hd Hl. apply in_app_or in Hd. destruct Hd as [Hd|[Hd|[]]].
      * exfalso. apply Hout. rewrite <- Hl. apply in_map. exact Hd.
      * subst d. simpl. auto.
    + intros Hnd. apply NoDup_app; [exact Hnd|repeat constructor; intros []|].
      intros x Hx [Hx'|[]]. subst x. contradiction.
Qed.


(** ** The detections on the display *)

Lemma faded_S (n : nat) : faded (S n) == faded n + (15 # 1000).
Proof.
  unfold faded. rewrite Nat2Z.inj_succ. unfold Z.succ.
  rewrite inject_Z_plus. ring.
Qed.

Lemma faded_le (n m : nat) : (n <= m)%nat -> faded n <= faded m.
Proof.
  intros H. unfold faded.
  assert (Hz : inject_Z (Z.of_nat n) <= inject_Z (Z.of_nat m))
    by (rewrite <- Zle_Qle; lia).
  lra.
Qed.

Lemma aged_opacity (n : nat) (d : Detection) :
  opacity (Nat.iter n tickOne d) == opacity d - faded n.
Proof.
  induction n as [|n IH].
  - simpl Nat.iter. assert (H0 : faded 0 == 0) by reflexivity. lra.
  - simpl Nat.iter. unfold tickOne at 1. cbn [opacity].
    rewrite IH, faded_S. ring.
Qed.

Lemma visible_iff (d : Detection) : visible d = true <-> 0 < opacity d.
Proof.
  unfold visible. rewrite negb_true_iff. split; intros H.
  - apply Qnot_le_lt. intros Hle. apply Qle_bool_iff in Hle. congruence.
  - destruct (Qle_bool (opacity d) 0) eqn:E; [|reflexivity].
    apply Qle_bool_iff in E. lra.
Qed.

Lemma tick_iter_In (n : nat) :
  forall prev d,
    In d prev -> faded n < opacity d ->
    In (Nat.iter n tickOne d) (Nat.iter n tick prev).
Proof.
  induction n as [|n IH]; intros prev d Hin Hop; [exact Hin|].
  simpl Nat.iter. unfold tick at 1. apply filter_In. split.
  - apply in_map. apply IH; [exact Hin|].
    pose proof (faded_le (Nat.le_succ_diag_r n)). lra.
  - apply visible_iff.
    change (tickOne (Nat.iter n tickOne d)) with (Nat.iter (S n) tickOne d).
    rewrite aged_opacity. lra.
Qed.

Lemma tick_iter_bound (n : nat) :
  forall prev,
    Forall (fun d => opacity d <= 1) prev ->
    Forall (fun d => opacity d <= 1 - faded n) (Nat.iter n tick prev).
Proof.
  induction n as [|n IH]; intros prev H.
  - simpl Nat.iter. eapply Forall_impl; [|exact H]. intros d Hd.
    cbv beta in *. assert (H0 : faded 0 == 0) by reflexivity. lra.
  - simpl Nat.iter. specialize (IH prev H). rewrite Forall_forall in IH.
    apply Forall_forall. intros d Hd. unfold tick in Hd.
    apply filter_In in Hd. destruct Hd as [Hd _].
    apply in_map_iff in Hd. destruct Hd as [a [Ha Hin]]. subst d.
    specialize (IH a Hin). cbv beta in IH. unfold tickOne. cbn [opacity].
    rewrite faded_S. lra.
Qed.

(** A detection lives 66 ticks after it was last drawn: drawn at full
    opacity, it is on the display after each of the next 66 ticks, where the
    ticks have taken it; after 67 ticks the display shows nothing that was
    not drawn again. *)
Theorem detection_lifetime
        (prev : list Detection) (d : Detection) (n : nat) :
  Forall (fun x => opacity x <= 1) prev ->
  In d prev ->
  opacity d == 1 ->
  ((n <= 66)%nat -> In (Nat.iter n tickOne d) (Nat.iter n tick prev)) /\
  ((67 <= n)%nat -> Nat.iter n tick prev = []).
Proof.
  intros Hall Hin Hop. split; intros Hn.
  - apply tick_iter_In; [exact Hin|].
    pose proof (faded_le Hn) as Hf.
    assert (H66 : faded 66 == 990 # 1000) by reflexivity. lra.
  - destruct n as [|n]; [lia|].
    pose proof (tick_iter_bound (S n) Hall) as Hb.
    pose proof (faded_le Hn) as Hf.
    assert (H67 : faded 67 == 1005 # 1000) by reflexivity.
    simpl Nat.iter in *. destruct (tick (Nat.iter n tick prev)) as [|x l] eqn:E;
      [reflexivity|].
    exfalso. inversion Hb as [|? ? Hx _]; subst.
    assert (Hv : In x (tick (Nat.iter n tick prev)))
      by (rewrite E; left; reflexivity).
    unfold tick in Hv. apply filter_In in Hv. destruct Hv as [_ Hv].
    apply visible_iff in Hv. lra.
Qed.

Lemma approach (a t : Q) :
  t - (a + (t - a) * (15 # 100)) == (85 # 100) * (t - a).
Proof. ring. Qed.

Lemma shrink_S (n : nat) :
  (85 # 100) ^ Z.of_nat (S n) == (85 # 100) * (85 # 100) ^ Z.of_nat n.
Proof.
  rewrite Nat2Z.inj_succ. unfold Z.succ.
  rewrite Qpower_plus by discriminate. simpl ((85 # 100) ^ 1). ring.
Qed.

(** The box of a detection closes on its target geometrically: the target
    stays, and after [n] ticks each of x, y, width and height is at 0.85 to
    the power [n] of its first distance from the target. *)
Theorem box_closes_on_target (n : nat) (d : Detection) :
  let d' := Nat.iter n tickOne d in
  (targetX d', targetY d', targetW d', targetH d')
  = (targetX d, targetY d, targetW d, targetH d) /\
  targetX d - det_x d' == (85 # 100) ^ Z.of_nat n * (targetX d - det_x d) /\
  targetY d - det_y d' == (85 # 100) ^ Z.of_nat n * (targetY d - det_y d) /\
  targetW d - det_w d' == (85 # 100) ^ Z.of_nat n * (targetW d - det_w d) /\
  targetH d - det_h d' == (85 # 100) ^ Z.of_nat n * (targetH d - det_h d).
Proof.
  cbv zeta. induction n as [|n IH].
  - simpl. repeat apply conj; try reflexivity; ring.
  - destruct IH as [Ht [Hx [Hy [Hw Hh]]]]. inversion Ht as [[Tx Ty Tw Th]].
    set (a := Nat.iter n tickOne d) in *.
    change (Nat.iter (S n) tickOne d) with (tickOne a). unfold tickOne.
    cbn [targetX targetY targetW targetH det_x det_y det_w det_h].
    rewrite Tx, Ty, Tw, Th. split; [reflexivity|].
    rewrite !approach, !shrink_S, Hx, Hy, Hw, Hh.
    repeat apply conj; ring.
Qed.

(** ** The scan at start-up *)

Lemma scan_running (s : Scan) (n : nat) :
  (n < 50)%nat ->
  let s' := Nat.iter n scanTick (startScan s) in
  scan_p s' = N.of_nat (2 * n) /\
  scan_interval s' = true /\
  scan_authenticated s' = scan_authenticated s /\
  scan_phase s' = (if (n <? 30)%nat then SCANNING else VERIFYING) /\
  (1 <= n -> scan_progress s' = N.of_nat (2 * n))%nat.
Proof.
  cbv zeta. induction n as [|n IH]; intros Hn.
  - simpl. repeat apply conj; auto. lia.
  - destruct IH as [Hp [Hi [Ha [Hph _]]]]; [lia|].
    simpl Nat.iter. set (a := Nat.iter n scanTick (startScan s)) in *.
    unfold scanTick. rewrite Hi, Hp. cbv zeta.
    replace (N.of_nat (2 * n) + 2)%N with (N.of_nat (2 * S n)) by lia.
    destruct (N.leb_spec 100 (N.of_nat (2 * S n))) as [H|H]; [lia|].
    cbn [scan_p scan_interval scan_authenticated scan_phase scan_progress].
    repeat apply conj; auto.
    rewrite Hph.
    destruct (N.eqb_spec (N.of_nat (2 * S n)) 60) as [E|E].
    + assert (n = 29)%nat by lia. subst n. reflexivity.
    + destruct (Nat.ltb_spec n 30), (Nat.ltb_spec (S n) 30);
        try reflexivity; try lia.
Qed.

Lemma scan_done (s : Scan) (n : nat) :
  (50 <= n)%nat ->
  Nat.iter n scanTick (startScan s)
  = {| scan_p := 100; scan_phase := GRANTED; scan_progress := 100;
       scan_interval := false;
       scan_authenticated := S (scan_authenticated s) |}.
Proof.
  induction n as [|n IH]; intros Hn; [lia|].
  simpl Nat.iter. destruct (Nat.eq_dec n 49) as [E|E].
  - subst n. destruct (scan_running s (n := 49)) as [Hp [Hi [Ha _]]]; [lia|].
    set (a := Nat.iter 49 scanTick (startScan s)) in *.
    unfold scanTick. rewrite Hi, Hp, Ha. reflexivity.
  - rewrite IH by lia. reflexivity.
Qed.

(** The scan started by the button: the progress shown is twice the number
    of ticks and never above 100; the phase turns to verifying at the 30th
    tick and to granted at the 50th, where the timer is cleared and
    [onAuthenticated] is scheduled, once, however long one waits. *)
Theorem scan_grants_at_the_fiftieth_tick (s : Scan) (n : nat) :
  let s' := Nat.iter n scanTick (startScan s) in
  ((n < 30)%nat -> scan_phase s' = SCANNING) /\
  ((30 <= n < 50)%nat -> scan_phase s' = VERIFYING) /\
  ((n < 50)%nat ->
     scan_interval s' = true /\
     scan_authenticated s' = scan_authenticated s) /\
  ((50 <= n)%nat ->
     scan_phase s' = GRANTED /\ scan_interval s' = false /\
     scan_authenticated s' = S (scan_authenticated s)) /\
  ((1 <= n)%nat -> scan_progress s' = N.of_nat (Nat.min (2 * n) 100)).
Proof.
  cbv zeta. repeat apply conj.
  - intros H. destruct (scan_running s (n := n)) as [_ [_ [_ [Hph _]]]];
      [lia|].
    rewrite Hph. destruct (Nat.ltb_spec n 30); [reflexivity|lia].
  - intros H. destruct (scan_running s (n := n)) as [_ [_ [_ [Hph _]]]];
      [lia|].
    rewrite Hph. destruct (Nat.ltb_spec n 30); [lia|reflexivity].
  - intros H. destruct (scan_running s H) as [_ [Hi [Ha _]]]. auto.
  - intros H. rewrite (scan_done s H). auto.
  - intros H. destruct (Nat.lt_ge_cases n 50) as [Hlt|Hge].
    + destruct (scan_running s Hlt) as [_ [_ [_ [_ Hpr]]]].
      rewrite (Hpr H). f_equal. lia.
    + rewrite (scan_done s Hge). simpl scan_progress.
      replace (Nat.min (2 * n) 100) with 100%nat by lia. reflexivity.
Qed.

(** ** The further theorems at sample inputs *)


Lemma audible_twoChunks : Forall audible twoChunks.
Proof.
  apply Forall_cons; [exact audible_chunk_1|].
  apply Forall_cons; [exact audible_chunk_2|apply Forall_nil].
Defined.

Lemma tidy_busy : tidy busy.
Proof.
  unfold tidy, busy. simpl. repeat apply conj.
  - apply NoDup_cons; [simpl; intros [H|[]]; discriminate|].
    apply NoDup_cons; [simpl; intros []|apply NoDup_nil].
  - apply Forall_cons; [lia|]. apply Forall_cons; [lia|apply Forall_nil].
  - intros c H. inversion H. lia.
  - intros n H. inversion H. lia.
Defined.

Lemma tidy_initial : tidy initial.
Proof.
  unfold tidy, initial. simpl. repeat apply conj.
  - apply NoDup_nil.
  - apply Forall_nil.
  - intros c H. discriminate.
  - intros n H. discriminate.
Defined.

Lemma forOf_schedule_without_context_at_initial :
  (audioContext initial = None \/ outputNode initial = None) /\
  forOf schedule twoChunks initial
  = {| completion := Normal tt; final := initial; emitted := [] |}.
Proof.
  assert (H : audioContext initial = None \/ outputNode initial = None)
    by (left; reflexivity).
  split; [exact H|]. apply (@forOf_schedule_without_context twoChunks initial H).
Defined.


Lemma chunks_never_start_in_the_past_at_two_chunks :
  playing connected /\
  0 < speed (currentAudioSettings connected) /\
  Forall audible twoChunks /\
  nextStartTime connected
  <= nextStartTime (final (forOf schedule twoChunks connected)).
Proof.
  assert (Hr : 0 < speed (currentAudioSettings connected)) by reflexivity.
  split; [exact playing_connected|]. split; [exact Hr|].
  split; [exact audible_twoChunks|].
  apply (@chunks_never_start_in_the_past twoChunks connected
           playing_connected Hr audible_twoChunks).
Defined.


Lemma schedule_after_stopAudio_starts_now_at_busy :
  playing busy /\
  truthy (inlineData (chunk 3 1)) = true /\
  0 <= currentTime (chunk 3 1) /\
  exists t,
    startTimes (emitted (schedule (chunk 3 1) (final (stopAudio calm busy))))
    = [t] /\
    t == currentTime (chunk 3 1).
Proof.
  assert (Hn : 0 <= currentTime (chunk 3 1)) by discriminate.
  split; [exact playing_busy|]. split; [reflexivity|]. split; [exact Hn|].
  apply (@schedule_after_stopAudio_starts_now calm (chunk 3 1) busy
           playing_busy eq_refl Hn).
Defined.

Lemma no_started_source_is_lost_at_busy :
  (In 6%nat (activeSources busy) \/
   In 6%nat (startedIn (emitted (playback calm chunkEnds busy)))) /\
  (In 6%nat (activeSources (final (playback calm chunkEnds busy))) \/
   In 6%nat (stoppedIn (emitted (playback calm chunkEnds busy))) \/
   In 6%nat (endedIn chunkEnds)).
Proof.
  assert (H : In 6%nat (activeSources busy) \/
              In 6%nat (startedIn (emitted (playback calm chunkEnds busy))))
    by (right; left; reflexivity).
  split; [exact H|].
  destruct (@no_started_source_is_lost calm chunkEnds busy 6%nat) as [H1 _].
  exact (H1 H).
Defined.

Lemma late_ended_spares_newer_sources_at_busy :
  tidy busy /\
  In 4%nat (activeSources busy) /\
  activeSources
    (final (ended 4%nat
              (final (deliver calm threeChunks (final (stopAudio calm busy))))))
  = activeSources
      (final (deliver calm threeChunks (final (stopAudio calm busy)))).
Proof.
  assert (H : In 4%nat (activeSources busy)) by (left; reflexivity).
  split; [exact tidy_busy|]. split; [exact H|].
  apply (@late_ended_spares_newer_sources calm threeChunks busy 4%nat
           tidy_busy H).
Defined.

Lemma interrupted_message_leaves_nothing_playing_at_bargeIn :
  reaches calm bargeIn = true /\
  interrupts bargeIn = true /\
  activeSources (final (onmessage calm bargeIn busy)) = [] /\
  nextStartTime (final (onmessage calm bargeIn busy)) = 0 /\
  (forall s,
     In s (activeSources busy) \/
     In s (startedIn (emitted (onmessage calm bargeIn busy))) ->
     In s (stoppedIn (emitted (onmessage calm bargeIn busy)))).
Proof.
  split; [reflexivity|]. split; [reflexivity|].
  apply (@interrupted_message_leaves_nothing_playing calm bargeIn busy
           eq_refl eq_refl).
Defined.

Lemma rejected_call_drops_audio_and_interrupt_at_stalled :
  reaches hostile stalled = false /\
  final (onmessage hostile stalled busy) = busy /\
  filter audioEvent (emitted (onmessage hostile stalled busy)) = [] /\
  turnsOf (emitted (onmessage hostile stalled busy)) = [].
Proof.
  split; [reflexivity|].
  apply (@rejected_call_drops_audio_and_interrupt hostile stalled busy eq_refl).
Defined.

Lemma onmessage_playback_at_bargeIn :
  reaches calm bargeIn = true /\
  filter audioEvent (emitted (onmessage calm bargeIn busy))
  = emitted (forOf schedule (partsOf bargeIn) busy)
    ++ (if interrupts bargeIn
        then map SourceStop
               (activeSources (final (forOf schedule (partsOf bargeIn) busy)))
        else []).
Proof.
  split; [reflexivity|].
  apply (@onmessage_playback calm bargeIn busy eq_refl).
Defined.

Lemma second_session_reuses_output_context_at_initial :
  completion (connectLive calm initial) = Normal (Some firstSession) /\
  createdAt 24000
    (emitted
       (connectLive hostile
          (final (stop calm firstSession
                    (final (deliver calm threeChunks
                              (final (connectLive calm initial)))))))) = [].
Proof.
  split; [reflexivity|].
  destruct (@second_session_reuses_output_context calm hostile threeChunks
              initial firstSession eq_refl) as [H _].
  exact H.
Defined.

Lemma calm_tracks_stop (t : Handle) :
  In t (stream firstSession) -> trackStopThrows calm t = false.
Proof. intros _. reflexivity. Defined.

Lemma stop_closes_what_start_opened_at_initial :
  tidy initial /\
  completion (connectLive calm initial) = Normal (Some firstSession) /\
  (forall t, In t (stream firstSession) -> trackStopThrows calm t = false) /\
  closedIn
    (emitted
       (stop calm firstSession
          (final (deliver calm threeChunks
                    (final (connectLive calm initial))))))
  = [inputCtx firstSession].
Proof.
  split; [exact tidy_initial|]. split; [reflexivity|].
  split; [exact calm_tracks_stop|].
  destruct (@stop_closes_what_start_opened calm threeChunks initial
              firstSession tidy_initial eq_refl calm_tracks_stop)
    as [_ [_ [H _]]].
  exact H.
Defined.

Lemma chat_request_window_at_greeting :
  truthy None = false /\
  currentParts "what is this" None = [TextPart "what is this"] /\
  (List.length (chatContents "what is this" [greeting] None) <= 11)%nat.
Proof.
  split; [reflexivity|].
  destruct (@chat_request_window "what is this" [greeting] None)
    as [older [recent [_ [_ [_ [Hlen [_ Hparts]]]]]]].
  split; [exact (Hparts eq_refl)|exact Hlen].
Defined.

Lemma chat_yields_keep_the_text_at_sample :
  failure sampleStream = None /\
  snd (chatYields sampleStream) = Normal tt /\
  joined (map chunk_text (fst (chatYields sampleStream)))
  = joined (map chunkText (chunks sampleStream)).
Proof.
  split; [reflexivity|].
  destruct (chat_yields_keep_the_text sampleStream) as [Hj [_ [Hend _]]].
  destruct (Hend eq_refl) as [Hc _].
  split; [exact Hc|exact Hj].
Defined.

Lemma sample_ids_differ :
  Forall (fun m => msg_id m <> assistantId sampleClock)
    (slice_last 9 (messages sampleChat)).
Proof. apply Forall_cons; [discriminate|apply Forall_nil]. Defined.

Lemma submit_shows_the_whole_reply_at_sample :
  "what is this"%string <> ""%string /\
  isProcessing sampleChat = false /\
  Forall (fun m => msg_id m <> assistantId sampleClock)
    (slice_last 9 (messages sampleChat)) /\
  decimal (userIdAt sampleClock) <> assistantId sampleClock /\
  exists out,
    completion (handleSubmitInput calm "what is this" sampleClock None
                  brokenStream sampleChat busy) = Normal out /\
    messages (chat out)
    = [greeting; userMessage "what is this" sampleClock;
       replyMessage sampleClock "It is ";
       errorMessage sampleClock ""].
Proof.
  assert (H1 : "what is this"%string <> ""%string) by discriminate.
  assert (H4 : decimal (userIdAt sampleClock) <> assistantId sampleClock)
    by discriminate.
  split; [exact H1|]. split; [reflexivity|].
  split; [exact sample_ids_differ|]. split; [exact H4|].
  destruct (@submit_shows_the_whole_reply calm "what is this" sampleClock
              None brokenStream sampleChat busy H1 eq_refl
              sample_ids_differ H4) as [out [Hc [Hm _]]].
  exists out. split; [exact Hc|exact Hm].
Defined.

Lemma history_round_trip_at_greeting :
  [greeting] <> [] /\
  loadHistory (saveHistory [greeting] None) [] = slice_last 10 [greeting] /\
  saveHistory [] (Some [greeting]) = Some [greeting].
Proof.
  assert (H : [greeting] <> []) by discriminate.
  split; [exact H|].
  destruct (history_round_trip [greeting] None) as [Hrt _].
  destruct (history_round_trip [greeting] (Some [greeting])) as [_ [Hkeep _]].
  destruct (Hrt H) as [Hl _]. split; [exact Hl|exact Hkeep].
Defined.

Lemma noInput_saidLast : Forall noInputTranscription [saidLast "Quite."].
Proof.
  apply Forall_cons; [|apply Forall_nil].
  intros c H. inversion H. reflexivity.
Defined.

Lemma voice_turn_enters_history_at_quite :
  currentInputTranscription connected = ""%string /\
  Forall noInputTranscription [saidLast "Quite."] /\
  In (""%string, "Quite."%string)
     (turnsOf (emitted (deliver calm [saidLast "Quite."] connected))) /\
  (List.length (voiceTurn "" "Quite." 2000 [greeting]) <= 10)%nat.
Proof.
  assert (Hin : In (""%string, "Quite."%string)
                   (turnsOf (emitted (deliver calm [saidLast "Quite."]
                                        connected))))
    by (left; reflexivity).
  split; [reflexivity|]. split; [exact noInput_saidLast|].
  split; [exact Hin|].
  destruct (@voice_turn_enters_history calm [saidLast "Quite."] connected
              "" "Quite." 2000 [greeting] eq_refl noInput_saidLast Hin)
    as [_ H].
  exact H.
Defined.

Lemma ended_session_is_never_closed_at_first_session :
  ends (Closed (Some 1000%N)) = true /\
  liveSessionRef inSession = Some firstSession /\
  (inputCtx firstSession < fresh connected)%nat /\
  ~ In (inputCtx firstSession)
       (closedIn
          (snd (appRun [Closed (Some 1000%N); Toggle calm; Toggle calm]
                  inSession connected))).
Proof.
  assert (Hc : (inputCtx firstSession < fresh connected)%nat)
    by (simpl; lia).
  split; [reflexivity|]. split; [reflexivity|]. split; [exact Hc|].
  destruct (@ended_session_is_never_closed (Closed (Some 1000%N))
              [Toggle calm; Toggle calm] inSession connected firstSession
              eq_refl eq_refl Hc) as [_ [_ H]].
  exact H.
Defined.

Lemma calm_tracks_stop_any (t : Handle) :
  In t [7%nat; 8%nat] -> trackStopThrows calm t = false.
Proof. intros _. reflexivity. Defined.

Lemma toggle_off_releases_the_session_at_idle :
  voiceActive idle = false /\
  getUserMedia calm = Normal [7%nat; 8%nat] /\
  (forall t, In t [7%nat; 8%nat] -> trackStopThrows calm t = false) /\
  liveSessionRef
    (fst (fst (appRun [Toggle calm; Received calm threeChunks; Toggle calm]
                 idle initial))) = None.
Proof.
  split; [reflexivity|]. split; [reflexivity|].
  split; [exact calm_tracks_stop_any|].
  destruct (@toggle_off_releases_the_session calm calm calm threeChunks idle
              initial [7%nat; 8%nat] eq_refl eq_refl calm_tracks_stop_any)
    as [_ [H _]].
  exact H.
Defined.

Lemma set_volume_clamps_at_half :
  Some halfVolume = Some halfVolume /\
  args_level halfVolume <> NaN /\
  args_level halfVolume = Finite 50 /\
  0 <= 50 <= 100 /\
  exists v,
    hud_volume (fst (appToolCall plain (fun _ => 0) "set_volume"
                       (Some halfVolume) sampleHud)) = Finite v /\
    v == 50 / 100.
Proof.
  assert (Hn : args_level halfVolume <> NaN) by discriminate.
  assert (Hr : 0 <= 50 <= 100) by (split; discriminate).
  split; [reflexivity|]. split; [exact Hn|]. split; [reflexivity|].
  split; [exact Hr|].
  destruct (@set_volume_clamps plain (fun _ => 0) (Some halfVolume) sampleHud
              0 connected) as [_ H].
  destruct (H halfVolume eq_refl) as [_ [_ [_ [_ [_ Hv]]]]].
  destruct (Hv Hn) as [v [Hvol [_ [He _]]]].
  exists v. split; [exact Hvol|exact (He 50 eq_refl Hr)].
Defined.

Lemma draw_detection_upserts_at_parcel :
  In (args_label sampleArgs) (map det_label [parcel]) /\
  map boxOf (drawDetection plain sampleArgs (fun _ => 1 # 2) [parcel])
  = map boxOf [parcel].
Proof.
  assert (H : In (args_label sampleArgs) (map det_label [parcel]))
    by (left; reflexivity).
  split; [exact H|].
  destruct (@draw_detection_upserts plain sampleArgs (fun _ => 1 # 2)
              [parcel]) as [_ [Hkeep _]].
  destruct (Hkeep H) as [_ [Hbox _]]. exact Hbox.
Defined.


Lemma parcel_opaque : Forall (fun x => opacity x <= 1) [parcel].
Proof. apply Forall_cons; [discriminate|apply Forall_nil]. Defined.

Lemma detection_lifetime_at_parcel :
  Forall (fun x => opacity x <= 1) [parcel] /\
  In parcel [parcel] /\
  opacity parcel == 1 /\
  (67 <= 70)%nat /\
  Nat.iter 70 tick [parcel] = [].
Proof.
  assert (Hin : In parcel [parcel]) by (left; reflexivity).
  assert (Hop : opacity parcel == 1) by reflexivity.
  assert (Hn : (67 <= 70)%nat) by lia.
  split; [exact parcel_opaque|]. split; [exact Hin|]. split; [exact Hop|].
  split; [exact Hn|].
  destruct (@detection_lifetime [parcel] parcel 70 parcel_opaque Hin Hop)
    as [_ H].
  exact (H Hn).
Defined.

Lemma scan_grants_at_the_fiftieth_tick_at_sixty :
  (50 <= 60)%nat /\
  scan_phase (Nat.iter 60 scanTick (startScan noScan)) = GRANTED /\
  scan_authenticated (Nat.iter 60 scanTick (startScan noScan)) = 1%nat.
Proof.
  assert (Hn : (50 <= 60)%nat) by lia.
  split; [exact Hn|].
  destruct (scan_grants_at_the_fiftieth_tick noScan 60)
    as [_ [_ [_ [H _]]]].
  destruct (H Hn) as [Hp [_ Ha]]. split; [exact Hp|exact Ha].
Defined.
